(** * Pyrogram client core: update handling, gap recovery, dispatch,
      peer cache, chunked download and the bounded cache

    A shallow embedding of [pyrogram/client.py] and [pyrogram/dispatcher.py].
    Python integers are [Z], dictionaries whose iteration order is observed
    are association lists in insertion order, dictionaries used as plain maps
    are [gmap]s, and awaited collaborators (server, storage, callbacks) are
    oracles and effect traces. *)

From stdpp Require Import gmap list strings sorting.
From Stdlib Require Import ZArith Lia Strings.Byte.

Local Open Scope Z_scope.

(** ** Python dictionaries with observable insertion order *)

Module PyDict.
Section Dict.
Context {K V : Type} `{EqDecision K}.

(** [key in d] *)
Definition contains (k : K) (d : list (K * V)) : bool :=
  bool_decide (k ∈ d.*1).

(** [d.get(key, None)] *)
Fixpoint get (k : K) (d : list (K * V)) : option V :=
  match d with
  | [] => None
  | (k', v) :: d' => if decide (k' = k) then Some v else get k d'
  end.

(** [del d[key]] for a key that is present *)
Definition del (k : K) (d : list (K * V)) : list (K * V) :=
  filter (λ kv, kv.1 ≠ k) d.

(** [d[key] = value]: an existing key keeps its position, a new one goes last *)
Definition set (k : K) (v : V) (d : list (K * V)) : list (K * V) :=
  if contains k d
  then (λ kv, if decide (kv.1 = k) then (k, v) else kv) <$> d
  else d ++ [(k, v)].

(** [next(iter(d))]: the oldest key, [None] standing for [StopIteration] *)
Definition first_key (d : list (K * V)) : option K :=
  match d with
  | [] => None
  | (k, _) :: _ => Some k
  end.
End Dict.
End PyDict.

(** ** [class Cache] (client.py) *)

Module Cache.
Section Cache.
Context {K V : Type} `{EqDecision K}.

Record t := Build { capacity : Z; store : list (K * V) }.

(** [__init__] *)
Definition init (cap : Z) : t := {| capacity := cap; store := [] |}.

(** [__getitem__] *)
Definition getitem (c : t) (k : K) : option V := PyDict.get k (store c).

(** [del self.store[next(iter(self.store))]] *)
Definition del_oldest (d : list (K * V)) : option (list (K * V)) :=
  k ← PyDict.first_key d; Some (PyDict.del k d).

(** [for _ in range(n): del self.store[next(iter(self.store))]] *)
Fixpoint evict (n : nat) (d : list (K * V)) : option (list (K * V)) :=
  match n with
  | O => Some d
  | S n' => d' ← del_oldest d; evict n' d'
  end.

(** [__setitem__]; [None] is an exception escaping the method *)
Definition setitem (c : t) (k : K) (v : V) : option t :=
  let s1 := if PyDict.contains k (store c) then PyDict.del k (store c) else store c in
  let s2 := PyDict.set k v s1 in
  if decide (capacity c < Z.of_nat (length s2))
  then s3 ← evict (Z.to_nat (capacity c / 2 + 1)) s2;
       Some {| capacity := capacity c; store := s3 |}
  else Some {| capacity := capacity c; store := s2 |}.

Inductive op := SetItem (k : K) (v : V) | GetItem (k : K).

Definition run_op (c : t) (o : op) : option t :=
  match o with
  | SetItem k v => setitem c k v
  | GetItem k => let _ := getitem c k in Some c
  end.

(** The cache states after each operation of a sequence *)
Fixpoint run (c : t) (ops : list op) : option (list t) :=
  match ops with
  | [] => Some []
  | o :: ops' => c' ← run_op c o; l ← run c' ops'; Some (c' :: l)
  end.

Definition size (c : t) : Z := Z.of_nat (length (store c)).

(** Entries present before the insertion of [(k, v)] or inserted by it,
    and gone afterwards: [store c ++ [(k, v)] = ev ++ store c'] *)
Definition evicted (c : t) (k : K) (v : V) (c' : t) (ev : list (K * V)) : Prop :=
  store c ++ [(k, v)] = ev ++ store c'.
End Cache.
Arguments t : clear implicits.
Arguments op : clear implicits.
End Cache.

(** What every reachable cache satisfies: it is a dictionary (no key twice)
    of at most [capacity] entries *)
Definition cache_inv {K V : Type} (c : Cache.t K V) : Prop :=
  NoDup (Cache.store c).*1 ∧ Cache.size c ≤ Cache.capacity c.

(** ** Exceptions of the client code *)

Inductive exn :=
  | ChannelPrivate | ChannelInvalid
  | PersistentTimestampOutdated | PersistentTimestampInvalid
  | FloodWait | FloodPremiumWait
  | StopTransmission | StopPropagation | ContinuePropagation
  | CDNFileHashMismatch | VolumeLocNotFound | AuthBytesInvalid
  | AttributeError | TypeError | IndexError | OverflowError | ValueError
  | OtherError (tag : nat)      (* any further subclass of [Exception] *)
  | CancelledError              (* [asyncio.CancelledError], a [BaseException] only *)
  | GeneratorExit               (* raised at a [yield] when a generator is closed *)
  | KeyboardInterrupt | SystemExit.   (* further [BaseException]s *)

Global Instance exn_eq_dec : EqDecision exn.
Proof. solve_decision. Defined.

(** [isinstance(e, Exception)] *)
Definition is_Exception (e : exn) : bool :=
  match e with
  | CancelledError | GeneratorExit | KeyboardInterrupt | SystemExit => false
  | _ => true
  end.

(** ** Awaited collaborators

    A coroutine runs against a scripted outside world: the [n]-th awaited
    call to the server (or to a user callback) is answered by [script n],
    either with a value or with a raised exception. What the coroutine does
    to its collaborators is recorded, in order, in a trace of events. *)

Module Co.
Section Co.
Context {Resp Ev : Type}.

Record world := World { calls : nat; trace : list Ev }.

Definition M (A : Type) : Type :=
  (nat → exn + Resp) → world → (exn + A) * world.

Definition ret {A} (a : A) : M A := λ _ w, (inr a, w).
Definition raise {A} (e : exn) : M A := λ _ w, (inl e, w).

Definition bind {A B} (m : M A) (k : A → M B) : M B := λ script w,
  match m script w with
  | (inl e, w') => (inl e, w')
  | (inr a, w') => k a script w'
  end.

(** record an event *)
Definition tell (ev : Ev) : M unit := λ _ w,
  (inr tt, {| calls := calls w; trace := trace w ++ [ev] |}).

(** [await] the next answer of the outside world *)
Definition await : M Resp := λ script w,
  (script (calls w), {| calls := S (calls w); trace := trace w |}).

(** [try: m  except <handles>: h] *)
Definition try_except {A} (m : M A) (handles : exn → bool) (h : exn → M A) : M A :=
  λ script w,
    match m script w with
    | (inl e, w') => if handles e then h e script w' else (inl e, w')
    | r => r
    end.

(** [try: m  finally: f] *)
Definition try_finally {A} (m : M A) (f : M unit) : M A := λ script w,
  match m script w with
  | (r, w') =>
      match f script w' with
      | (inl e, w'') => (inl e, w'')
      | (inr _, w'') => (r, w'')
      end
  end.

Definition start : world := {| calls := O; trace := [] |}.

(** run a coroutine from the initial world *)
Definition run {A} (m : M A) (script : nat → exn + Resp) : (exn + A) * world :=
  m script start.
End Co.
Arguments world : clear implicits.
Arguments M : clear implicits.
End Co.

Global Instance co_ret {Resp Ev} : MRet (Co.M Resp Ev) := λ A, Co.ret.
Global Instance co_bind {Resp Ev} : MBind (Co.M Resp Ev) := λ A B k m, Co.bind m k.

(** ** The raw objects the client reads (their generated classes are outside
    the client module; one field per attribute the code accesses) *)

Module Raw.
(** [raw.types.User] *)
Record User := {
  user_id : Z;
  user_access_hash : option Z;
  user_phone : option string;
  user_bot : bool;
  user_username : option string;
  user_usernames : list string;     (* the [.username] of each entry *)
  user_min : bool }.

(** [raw.types.Channel] *)
Record Channel := {
  channel_id : Z;
  channel_access_hash : option Z;
  channel_broadcast : bool;
  channel_username : option string;
  channel_usernames : list string;
  channel_min : bool }.

(** An element of [updates.users] or [updates.chats] *)
Inductive peer :=
  | PUser (u : User)
  | PChat (id : Z)
  | PChatForbidden (id : Z)
  | PChannel (c : Channel)
  | PChannelForbidden (id : Z) (access_hash : option Z) (broadcast : bool)
  | POther (id : Z) (min : bool).   (* any other object, e.g. [UserEmpty] *)

(** [peer.id] *)
Definition peer_id (p : peer) : Z :=
  match p with
  | PUser u => user_id u
  | PChat i | PChatForbidden i | PChannelForbidden i _ _ | POther i _ => i
  | PChannel c => channel_id c
  end.

(** [getattr(peer, "min", False)] *)
Definition peer_min (p : peer) : bool :=
  match p with
  | PUser u => user_min u
  | PChannel c => channel_min c
  | POther _ m => m
  | PChat _ | PChatForbidden _ | PChannelForbidden _ _ _ => false
  end.

(** [raw.types.Message] / [MessageEmpty] *)
Record Message := {
  msg_id : Z;
  msg_is_empty : bool;                   (* [isinstance(message, MessageEmpty)] *)
  msg_peer_channel_id : option Z }.      (* [message.peer_id.channel_id], if any *)

Inductive update_kind :=
  | UpdateNewMessage | UpdateNewChannelMessage | UpdateChannelTooLong
  | UpdateOther (tag : nat).

(** A raw update, with the attributes [handle_updates] probes by [getattr] *)
Record Update := {
  upd_kind : update_kind;
  upd_message : option Message;
  upd_channel_id : option Z;
  upd_pts : option Z;
  upd_pts_count : option Z }.
End Raw.

Inductive peer_type := TBot | TUser | TGroup | TChannel | TSupergroup.

(** A row of [parsed_peers]: [(peer_id, access_hash, peer_type, phone_number)] *)
Definition peer_row : Type := Z * option Z * peer_type * option string.
(** A row of [parsed_usernames]: [(peer_id, usernames)] *)
Definition username_row : Type := Z * list string.

(** [(id, pts, qts, date, seq)] as handed to [storage.update_state] *)
Definition state_row : Type := Z * Z * option Z * Z * option Z.

(** Python truthiness of an optional string and of an optional integer *)
Definition truthy_str (s : option string) : bool :=
  match s with
  | Some s => negb (bool_decide (s = EmptyString))
  | None => false
  end.

Definition truthy_int (z : option Z) : bool :=
  match z with
  | Some z => negb (z =? 0)
  | None => false
  end.

(** ** [class Client] (client.py): peers, updates and gap recovery *)

Module Client.
Import Raw.

(** The body shared by the non-empty difference answers *)
Record diff_body := {
  new_messages : list Message;
  other_updates : list Update;
  diff_users : list peer;
  diff_chats : list peer }.

(** Answers to [updates.GetDifference] and [updates.GetChannelDifference] *)
Inductive difference :=
  | DifferenceEmpty
  | DifferenceTooLong
  | Difference (b : diff_body) (state_pts : Z)
  | DifferenceSlice (b : diff_body) (intermediate_pts intermediate_date : Z)
  | ChannelDifferenceEmpty
  | ChannelDifferenceTooLong (users chats : list peer)
  | ChannelDifference (b : diff_body) (pts : Z).

Inductive request :=
  | GetChannelDifference (channel : Z) (range : option (Z * Z)) (pts limit : Z)
  | GetDifference (pts date qts : Z).

(** What is put on [dispatcher.updates_queue]: [(update, users, chats)] *)
Definition packet : Type := Update * gmap Z peer * gmap Z peer.

Inductive event :=
  | StorageUpdatePeers (rows : list peer_row)
  | StorageUpdateUsernames (rows : list username_row)
  | StorageUpdateState (row : state_row)     (* [update_state(tuple)] *)
  | StorageDeleteState (id : Z)              (* [update_state(id)] *)
  | Invoke (r : request)
  | QueuePut (p : packet)     (* [put_nowait]: the update, the tables as they are *)
  | LogInfo.

Abbreviation M := (Co.M difference event).

(** [{p.id: p for p in l}]: a later entry replaces an earlier one *)
Definition dict_by_id (l : list peer) : gmap Z peer :=
  foldl (λ m p, <[peer_id p := p]> m) ∅ l.

(** attribute reads on an answer; [None] is [AttributeError] *)
Definition get_body (d : difference) : option diff_body :=
  match d with
  | Difference b _ | DifferenceSlice b _ _ | ChannelDifference b _ => Some b
  | _ => None
  end.

Definition get_users_chats (d : difference) : option (list peer * list peer) :=
  match d with
  | Difference b _ | DifferenceSlice b _ _ | ChannelDifference b _ =>
      Some (diff_users b, diff_chats b)
  | ChannelDifferenceTooLong us cs => Some (us, cs)
  | _ => None
  end.

Section Client.
(** [utils.get_channel_id] and [str.lower] *)
Context (get_channel_id : Z → Z) (lower : string → string).

(** One iteration of the loop of [fetch_peers] for a peer that is not
    minimal: the rows appended, or [None] for [continue] *)
Definition parse_peer (p : peer) : option (peer_row * username_row) :=
  match p with
  | PUser u =>
      let usernames :=
        if truthy_str (user_username u)
        then [lower (default EmptyString (user_username u))]
        else lower <$> user_usernames u in
      Some ((user_id u, user_access_hash u,
             if user_bot u then TBot else TUser, user_phone u),
            (user_id u, usernames))
  | PChat i | PChatForbidden i =>
      Some ((- i, Some 0, TGroup, None), (- i, []))
  | PChannel c =>
      let usernames :=
        if truthy_str (channel_username c)
        then [lower (default EmptyString (channel_username c))]
        else lower <$> channel_usernames c in
      let pid := get_channel_id (channel_id c) in
      Some ((pid, channel_access_hash c,
             if channel_broadcast c then TChannel else TSupergroup, None),
            (pid, usernames))
  | PChannelForbidden i h b =>
      let pid := get_channel_id i in
      Some ((pid, h, if b then TChannel else TSupergroup, None), (pid, []))
  | POther _ _ => None
  end.

(** The [for peer in peers] loop with its three accumulators *)
Fixpoint fetch_peers_loop (peers : list peer) (is_min : bool)
    (parsed_peers : list peer_row) (parsed_usernames : list username_row)
    : bool * list peer_row * list username_row :=
  match peers with
  | [] => (is_min, parsed_peers, parsed_usernames)
  | p :: rest =>
      if peer_min p
      then fetch_peers_loop rest true parsed_peers parsed_usernames
      else match parse_peer p with
           | Some (row, urow) =>
               fetch_peers_loop rest is_min
                 (parsed_peers ++ [row]) (parsed_usernames ++ [urow])
           | None => fetch_peers_loop rest is_min parsed_peers parsed_usernames
           end
  end.

(** [Client.fetch_peers] *)
Definition fetch_peers (peers : list peer) : M bool :=
  let '(is_min, parsed_peers, parsed_usernames) :=
    fetch_peers_loop peers false [] [] in
  Co.tell (StorageUpdatePeers parsed_peers);;
  Co.tell (StorageUpdateUsernames parsed_usernames);;
  mret is_min.

(** The rows of the peers that are not minimal, in input order *)
Definition full_rows (peers : list peer) : list (peer_row * username_row) :=
  omap parse_peer (filter (λ p, peer_min p = false) peers).

(** The argument of [handle_updates] *)
Inductive updates :=
  | Updates (us : list Update) (users chats : list peer) (date seq : Z)
      (* [Updates] and [UpdatesCombined] *)
  | UpdateShortMessage (pts pts_count date : Z)
      (* [UpdateShortMessage] and [UpdateShortChatMessage] *)
  | UpdateShort (u : Update)
  | UpdatesTooLong
  | UpdatesOther.

(** [a or b] on optional integers *)
Definition py_or (a b : option Z) : option Z :=
  if truthy_int a then a else b.

(** The channel id probed by the nested [getattr]s *)
Definition update_channel_id (u : Update) : option Z :=
  py_or (upd_message u ≫= msg_peer_channel_id) (upd_channel_id u).

(** an attribute that must be present *)
Definition attr {A} (o : option A) : M A :=
  match o with
  | Some a => mret a
  | None => Co.raise AttributeError
  end.

(** an operand that must be an integer *)
Definition int_operand (o : option Z) : M Z :=
  match o with
  | Some a => mret a
  | None => Co.raise TypeError
  end.

Definition caught_min_diff (e : exn) : bool :=
  match e with
  | ChannelPrivate | PersistentTimestampOutdated | PersistentTimestampInvalid => true
  | _ => false
  end.

(** The scope id and the tuple stored for an update of a container:
    [(get_channel_id(channel_id) if channel_id else 0, pts, None, date, seq)] *)
Definition update_scope (u : Update) : Z :=
  if truthy_int (update_channel_id u)
  then get_channel_id (default 0 (update_channel_id u)) else 0.

Definition update_state_row (date seq : Z) (u : Update) : state_row :=
  (update_scope u, default 0 (upd_pts u), None, date, Some seq).

(** [if pts and not self.skip_updates: await self.storage.update_state(...)] *)
Definition flush_state (skip_updates : bool) (date seq : Z) (update : Update) : M unit :=
  if truthy_int (upd_pts update) && negb skip_updates
  then Co.tell (StorageUpdateState (update_state_row date seq update))
  else mret tt.

(** [if isinstance(update, UpdateNewChannelMessage) and is_min: ...]:
    the possibly extended [users] and [chats] tables *)
Definition refetch_min (is_min : bool) (update : Update)
    (users chats : gmap Z peer) : M (gmap Z peer * gmap Z peer) :=
  match upd_kind update with
  | UpdateNewChannelMessage =>
      if is_min then
        message ← attr (upd_message update);
        if msg_is_empty message then mret (users, chats)
        else
          diff ← Co.try_except
            (cid ← int_operand (update_channel_id update);
             p ← int_operand (upd_pts update);
             c ← int_operand (upd_pts_count update);
             Co.tell (Invoke (GetChannelDifference (get_channel_id cid)
                        (Some (msg_id message, msg_id message)) (p - c) p));;
             d ← Co.await; mret (Some d))
            caught_min_diff (λ _, mret None);
          match diff with
          | None => mret (users, chats)
          | Some ChannelDifferenceEmpty => mret (users, chats)
          | Some d =>
              '(us, cs) ← attr (get_users_chats d);
              mret (dict_by_id us ∪ users, dict_by_id cs ∪ chats)
          end
      else mret (users, chats)
  | _ => mret (users, chats)
  end.

(** The body of [for update in updates.updates]; returns the [users] and
    [chats] tables as the next iteration finds them *)
Definition handle_one (skip_updates is_min : bool) (date seq : Z)
    (update : Update) (users chats : gmap Z peer)
    : M (gmap Z peer * gmap Z peer) :=
  flush_state skip_updates date seq update;;
  (match upd_kind update with
   | UpdateChannelTooLong => Co.tell LogInfo
   | _ => mret tt
   end);;
  '(users, chats) ← refetch_min is_min update users chats;
  Co.tell (QueuePut (update, users, chats));;
  mret (users, chats).

Fixpoint handle_each (skip_updates is_min : bool) (date seq : Z)
    (us : list Update) (users chats : gmap Z peer) : M unit :=
  match us with
  | [] => mret tt
  | u :: rest =>
      '(users, chats) ← handle_one skip_updates is_min date seq u users chats;
      handle_each skip_updates is_min date seq rest users chats
  end.

(** [Client.handle_updates] (the assignment of [last_update_time], a
    wall-clock reading, is left out; [resolve_peer] and the [invoke] it
    feeds are answered together by the script) *)
Definition handle_updates (skip_updates : bool) (upd : updates) : M unit :=
  match upd with
  | Updates us users chats date seq =>
      m1 ← fetch_peers users;
      m2 ← fetch_peers chats;
      handle_each skip_updates (m1 || m2) date seq us
        (dict_by_id users) (dict_by_id chats)
  | UpdateShortMessage pts pts_count date =>
      (if negb skip_updates
       then Co.tell (StorageUpdateState (0, pts, None, date, None))
       else mret tt);;
      Co.tell (Invoke (GetDifference (pts - pts_count) date (-1)));;
      diff ← Co.await;
      b ← attr (get_body diff);
      match new_messages b with
      | m :: _ =>
          Co.tell (QueuePut
            ({| upd_kind := UpdateNewMessage; upd_message := Some m;
                upd_channel_id := None; upd_pts := Some pts;
                upd_pts_count := Some pts_count |},
             dict_by_id (diff_users b), dict_by_id (diff_chats b)))
      | [] =>
          match other_updates b with
          | u :: _ => Co.tell (QueuePut (u, ∅, ∅))
          | [] => mret tt
          end
      end
  | UpdateShort u => Co.tell (QueuePut (u, ∅, ∅))
  | UpdatesTooLong => Co.tell LogInfo
  | UpdatesOther => mret tt
  end.

Definition caught_recover (e : exn) : bool :=
  match e with
  | ChannelPrivate | ChannelInvalid
  | PersistentTimestampOutdated | PersistentTimestampInvalid => true
  | _ => false
  end.

(** The two re-injection loops over [diff.new_messages] and
    [diff.other_updates]; returns the advanced counters *)
Definition reinject (b : diff_body) (local_pts : Z) (counters : Z * Z) : M (Z * Z) :=
  let users := dict_by_id (diff_users b) in
  let chats := dict_by_id (diff_chats b) in
  mapM (λ m, Co.tell (QueuePut
          ({| upd_kind := UpdateNewMessage; upd_message := Some m;
              upd_channel_id := None; upd_pts := Some local_pts;
              upd_pts_count := Some (-1) |}, users, chats)))
       (new_messages b);;
  mapM (λ u, Co.tell (QueuePut (u, users, chats))) (other_updates b);;
  mret (counters.1 + Z.of_nat (length (new_messages b)),
        counters.2 + Z.of_nat (length (other_updates b))).

(** The [while True] loop of [recover_gaps] for one stored state; it runs
    at most [fuel] iterations and answers [None] when more are needed *)
Fixpoint recover_scope (fuel : nat) (id local_pts local_date prev_pts : Z)
    (counters : Z * Z) : M (option (Z * Z)) :=
  match fuel with
  | O => mret None
  | S fuel' =>
      diff ← Co.try_except
        (Co.tell (Invoke
           (if decide (id < 0)
            then GetChannelDifference id None local_pts 10000
            else GetDifference local_pts local_date 0));;
         d ← Co.await; mret (Some d))
        caught_recover (λ _, mret None);
      match diff with
      | None => mret (Some counters)
      | Some DifferenceEmpty | Some DifferenceTooLong
      | Some ChannelDifferenceEmpty | Some (ChannelDifferenceTooLong _ _) =>
          mret (Some counters)
      | Some (Difference b pts) | Some (ChannelDifference b pts) =>
          counters ← reinject b pts counters;
          mret (Some counters)
      | Some (DifferenceSlice b pts date) =>
          if decide (prev_pts = pts) then mret (Some counters)
          else
            counters ← reinject b pts counters;
            recover_scope fuel' id pts date pts counters
      end
  end.

(** [for state in states: ...; await self.storage.update_state(id)] *)
Fixpoint recover_each (fuel : nat) (states : list state_row)
    (counters : Z * Z) : M (option (Z * Z)) :=
  match states with
  | [] => mret (Some counters)
  | (id, local_pts, _, local_date, _) :: rest =>
      r ← recover_scope fuel id local_pts local_date 0 counters;
      match r with
      | None => mret None
      | Some counters =>
          Co.tell (StorageDeleteState id);;
          recover_each fuel rest counters
      end
  end.

(** [Client.recover_gaps], on the states read by [storage.update_state()] *)
Definition recover_gaps (fuel : nat) (states : list state_row)
    : M (option (Z * Z)) :=
  match states with
  | [] => Co.tell LogInfo;; mret (Some (0, 0))
  | _ =>
      r ← recover_each fuel states (0, 0);
      match r with
      | None => mret None
      | Some counters => Co.tell LogInfo;; mret (Some counters)
      end
  end.
End Client.

(** ** The storage contract for update states *)

(** Modelled from the spec: the storage module is outside the client; its
  contract keeps one state tuple per scope id, [update_state(tuple)]
  setting the tuple of its scope and [update_state(id)] removing it. *)
Definition storage_step (table : gmap Z state_row) (ev : event) : gmap Z state_row :=
match ev with
| StorageUpdateState row => <[row.1.1.1.1 := row]> table
| StorageDeleteState id => delete id table
| _ => table
end.

Definition storage_after (table : gmap Z state_row) (tr : list event) : gmap Z state_row :=
foldl storage_step table tr.

(** The locally recorded pts of a scope, if any *)
Definition local_pts (table : gmap Z state_row) (scope : Z) : option Z :=
(λ row : state_row, row.1.1.1.2) <$> table !! scope.

(** Whether the answers from index [m] on stop the fetch loop of
  [recover_gaps] at iteration [m] or [m + 1]: answer [m] is not a partial
  slice, or it is one and the next answer is a partial slice with the same
  intermediate pts (no progress) *)
Definition stops_at (script : nat → exn + difference) (m : nat) : bool :=
match script m with
| inr (DifferenceSlice _ p _) =>
    match script (S m) with
    | inr (DifferenceSlice _ p' _) => bool_decide (p' = p)
    | _ => false
    end
| _ => true
end.

(** A body with nothing to re-inject *)
Definition empty_body : diff_body :=
{| new_messages := []; other_updates := []; diff_users := []; diff_chats := [] |}.

(** A server that keeps answering partial slices whose intermediate pts
  alternates between 1 and 2 *)
Definition alternating_slices (n : nat) : exn + difference :=
inr (DifferenceSlice empty_body (if Nat.even n then 1 else 2) 0).

(** The packets put on the queue, oldest first, each with the contents its
  two tables had when it was put *)
Definition queued (tr : list event) : list packet :=
omap (λ ev, match ev with QueuePut p => Some p | _ => None end) tr.

(** The packets of one container do not hold tables of their own: they
  refer to the same two dict objects, and [users.update] and [chats.update]
  extend these in place right before a put, with no [await] in between.
  [shown tr] is what a consumer finds in the packets put by the events [tr]
  of one container once all of [tr] has happened: every packet with the
  contents of the latest put. *)
Definition shown (tr : list event) : list packet :=
match last (queued tr) with
| Some (_, users, chats) => (λ p : packet, (p.1.1, users, chats)) <$> queued tr
| None => []
end.

(** The state tuples flushed to storage, oldest first *)
Definition flushed (tr : list event) : list state_row :=
omap (λ ev, match ev with StorageUpdateState r => Some r | _ => None end) tr.

(** Events that neither touch the stored states nor the queue *)
Definition quiet (ev : event) : Prop :=
match ev with
| StorageUpdateState _ | StorageDeleteState _ | QueuePut _ => False
| _ => True
end.

(** Events that leave the stored states alone *)
Definition keeps_state (ev : event) : Prop :=
match ev with
| StorageUpdateState _ | StorageDeleteState _ => False
| _ => True
end.

(** The tuples [handle_updates] flushes for the updates of a container *)
Definition flush_rows (get_channel_id : Z → Z) (skip_updates : bool)
  (date seq : Z) (us : list Raw.Update) : list state_row :=
omap (λ u, if truthy_int (Raw.upd_pts u) && negb skip_updates
           then Some (update_state_row get_channel_id date seq u) else None) us.

(** The events of [flush_state] for one update *)
Definition flush_events (get_channel_id : Z → Z) (skip_updates : bool)
  (date seq : Z) (u : Raw.Update) : list event :=
if truthy_int (Raw.upd_pts u) && negb skip_updates
then [StorageUpdateState (update_state_row get_channel_id date seq u)] else [].

(** The shape of the events of the loop over the updates of a container:
  per update an optional flush, quiet events, and the enqueueing, which
  is missing only where an exception ended the loop *)
Inductive each_trace (get_channel_id : Z → Z) (skip_updates : bool) (date seq : Z)
  : list Raw.Update → bool → list event → Prop :=
| et_done : each_trace get_channel_id skip_updates date seq [] true []
| et_put u us ok mid users chats tr :
    Forall quiet mid →
    each_trace get_channel_id skip_updates date seq us ok tr →
    each_trace get_channel_id skip_updates date seq (u :: us) ok
      (flush_events get_channel_id skip_updates date seq u
         ++ mid ++ QueuePut (u, users, chats) :: tr)
| et_raise u us mid :
    Forall quiet mid →
    each_trace get_channel_id skip_updates date seq (u :: us) false
      (flush_events get_channel_id skip_updates date seq u ++ mid).
End Client.

(** A coroutine all of whose events satisfy [P], whatever the script *)
Definition emits_only {Resp Ev A} (P : Ev → Prop) (m : Co.M Resp Ev A) : Prop :=
  ∀ script w r w', m script w = (r, w') →
    ∃ tr, Forall P tr ∧ Co.trace w' = Co.trace w ++ tr.

(** ** [class Dispatcher] (dispatcher.py): the handler registry and the
    dispatch pass of [handler_worker] *)

Module Dispatcher.

(** The class of a registered handler, as the two [isinstance] tests of the
    pass see it: one of the typed handler classes, [RawUpdateHandler], or
    anything else *)
Inductive handler_class := Typed (ty : nat) | RawUpdate | OtherClass.

(** A registration. [h_check] and [h_callback] are what awaiting
    [handler.check] and [handler.callback] does in the pass at hand: a value
    or a raised exception *)
Record handler := {
  h_name : nat;
  h_class : handler_class;
  h_check : exn + bool;
  h_callback : exn + unit }.

Inductive event := Checked (h : nat) | Called (h : nat) | Logged (e : exn).

(** How a group is left: on to the next group, pass ended by
    [StopPropagation], or an exception no [except Exception] catches *)
Inductive flow := Next | Stop | Crash (e : exn).

(** [self.groups]: an [OrderedDict] from group number to handler list *)
Definition groups : Type := list (Z * list handler).

Definition key_le (a b : Z * list handler) : Prop := a.1 ≤ b.1.

Global Instance key_le_dec : RelDecision key_le := λ a b, decide (a.1 ≤ b.1).
Global Instance key_le_total : Total key_le.
Proof. intros a b. unfold key_le. lia. Qed.
Global Instance key_le_trans : Transitive key_le.
Proof. intros a b c. unfold key_le. lia. Qed.

(** [OrderedDict(sorted(self.groups.items()))]; the keys being distinct, the
    order of the items is the order of their keys *)
Definition sorted_items (gs : groups) : groups := merge_sort key_le gs.

(** The critical section of [add_handler] *)
Definition add_handler (gs : groups) (h : handler) (group : Z) : groups :=
  let gs1 := if PyDict.contains group gs then gs
             else sorted_items (PyDict.set group [] gs) in
  PyDict.set group (default [] (PyDict.get group gs1) ++ [h]) gs1.

(** [list.remove]: the first entry of that name goes; [None] is [ValueError] *)
Fixpoint list_remove (h : handler) (l : list handler) : option (list handler) :=
  match l with
  | [] => None
  | h' :: l' =>
      if decide (h_name h' = h_name h) then Some l'
      else l'' ← list_remove h l'; Some (h' :: l'')
  end.

(** The critical section of [remove_handler] *)
Definition remove_handler (gs : groups) (h : handler) (group : Z) : exn + groups :=
  match PyDict.get group gs with
  | None => inl ValueError
  | Some l =>
      match list_remove h l with
      | None => inl ValueError
      | Some l' => inr (PyDict.set group l' gs)
      end
  end.

(** The registry after a sequence of [add_handler] calls *)
Definition registered (regs : list (handler * Z)) : groups :=
  foldl (λ gs r, add_handler gs r.1 r.2) [] regs.

(** The handlers registered for one group, in registration order *)
Definition registered_in (group : Z) (regs : list (handler * Z)) : list handler :=
  (filter (λ r, r.2 = group) regs).*1.

(** [isinstance(handler, handler_type)] or, failing that,
    [isinstance(handler, RawUpdateHandler)]; [handler_type] is [None] for an
    update without parser *)
Definition eligible (handler_type : option nat) (h : handler) : bool :=
  match h_class h with
  | Typed ty => bool_decide (handler_type = Some ty)
  | RawUpdate => true
  | OtherClass => false
  end.

Definition prepend (evs : list event) (r : list event * flow) : list event * flow :=
  (evs ++ r.1, r.2).

(** [for handler in group: ...] *)
Fixpoint run_group (handler_type : option nat) (g : list handler) : list event * flow :=
  match g with
  | [] => ([], Next)
  | h :: rest =>
      if eligible handler_type h then
        match h_check h with
        | inl e =>
            if is_Exception e
            then prepend [Checked (h_name h); Logged e] (run_group handler_type rest)
            else ([Checked (h_name h)], Crash e)
        | inr false => prepend [Checked (h_name h)] (run_group handler_type rest)
        | inr true =>
            match h_callback h with
            | inr _ => ([Checked (h_name h); Called (h_name h)], Next)
            | inl StopPropagation => ([Checked (h_name h); Called (h_name h)], Stop)
            | inl ContinuePropagation =>
                prepend [Checked (h_name h); Called (h_name h)]
                  (run_group handler_type rest)
            | inl e =>
                if is_Exception e
                then ([Checked (h_name h); Called (h_name h); Logged e], Next)
                else ([Checked (h_name h); Called (h_name h)], Crash e)
            end
        end
      else run_group handler_type rest
  end.

(** [for group in self.groups.values(): ...] *)
Fixpoint run_groups (handler_type : option nat) (gs : groups) : list event * flow :=
  match gs with
  | [] => ([], Next)
  | (_, g) :: gs' =>
      match run_group handler_type g with
      | (evs, Next) => prepend evs (run_groups handler_type gs')
      | r => r
      end
  end.

(** One iteration of [handler_worker] on a packet: [parse] is what the
    parser of the update does (the handler type, or an exception). The
    result is the events and the exception that ends the worker, if any *)
Definition dispatch (parse : exn + option nat) (gs : groups) : list event * option exn :=
  match parse with
  | inl StopPropagation => ([], None)
  | inl e => if is_Exception e then ([Logged e], None) else ([], Some e)
  | inr handler_type =>
      match run_groups handler_type gs with
      | (evs, Crash e) => (evs, Some e)
      | (evs, _) => (evs, None)
      end
  end.

(** A handler the loop over its group walks past *)
Definition passes_through (handler_type : option nat) (h : handler) : bool :=
  negb (eligible handler_type h) ||
  match h_check h with
  | inl e => is_Exception e
  | inr false => true
  | inr true =>
      match h_callback h with inl ContinuePropagation => true | _ => false end
  end.

(** A handler whose check passes and whose callback does not ask to continue *)
Definition decisive (handler_type : option nat) (h : handler) : bool :=
  eligible handler_type h &&
  match h_check h with
  | inr true =>
      match h_callback h with inl ContinuePropagation => false | _ => true end
  | _ => false
  end.

(** The events of a handler that is walked past or decisive *)
Definition own_events (handler_type : option nat) (h : handler) : list event :=
  if eligible handler_type h then
    match h_check h with
    | inl e => [Checked (h_name h); Logged e]
    | inr false => [Checked (h_name h)]
    | inr true =>
        match h_callback h with
        | inr _ | inl StopPropagation | inl ContinuePropagation =>
            [Checked (h_name h); Called (h_name h)]
        | inl e =>
            if is_Exception e
            then [Checked (h_name h); Called (h_name h); Logged e]
            else [Checked (h_name h); Called (h_name h)]
        end
    end
  else [].

(** How the pass goes on after the callback of a decisive handler *)
Definition verdict (h : handler) : flow :=
  match h_callback h with
  | inr _ => Next
  | inl StopPropagation => Stop
  | inl e => if is_Exception e then Next else Crash e
  end.
End Dispatcher.

(** ** [Client.get_file] and [Client.handle_download] (client.py) *)

Global Instance byte_eq_dec : EqDecision Byte.byte := Byte.byte_eq_dec.

Module Download.

Abbreviation bytes := (list Byte.byte).

(** [raw.types.FileHash] *)
Record FileHash := { fh_offset : Z; fh_limit : Z; fh_hash : bytes }.

(** What the awaited calls of [get_file] answer *)
Inductive response :=
  | File (data : bytes)                      (* [upload.File] *)
  | FileCdnRedirect (dc_id : Z) (file_token encryption_key encryption_iv : bytes)
  | CdnFile (data : bytes)                   (* [upload.CdnFile] *)
  | CdnFileReuploadNeeded (request_token : bytes)
  | FileHashes (hashes : list FileHash)      (* [Vector<FileHash>] *)
  | Done.                                    (* a value [get_file] does not read *)

(** The awaited calls *)
Inductive request :=
  | CreateAuthKey                            (* [Auth(...).create()] *)
  | StartSession                             (* [session.start()] *)
  | ExportAuthorization
  | ImportAuthorization
  | GetFile (offset limit : Z)
  | GetCdnFile (file_token : bytes) (offset limit : Z)
  | ReuploadCdnFile (file_token request_token : bytes)
  | GetCdnFileHashes (file_token : bytes) (offset : Z)
  | StartCdnSession                          (* [cdn_session.start()] *)
  | StopCdnSession                           (* [cdn_session.stop()] *)
  | ProgressCall (current total : Z).        (* the [progress] callback *)

Inductive event :=
  | Invoke (r : request)
  | Yield (chunk : bytes)
  | LogException (e : exn).

Abbreviation M := (Co.M response event).

(** an awaited call, recorded *)
Definition call (r : request) : M response := Co.tell (Invoke r);; Co.await.

Definition chunk_size : Z := 1024 * 1024.

(** [x.to_bytes(1, "big")] of the low byte *)
Definition byte_of_Z (z : Z) : Byte.byte :=
  default Byte.x00 (Byte.of_N (Z.to_N (z mod 256))).

(** [v.to_bytes(4, "big")], for [0 <= v < 2**32] *)
Definition be32 (v : Z) : bytes := (λ k, byte_of_Z (v / 256 ^ k)) <$> [3; 2; 1; 0].

(** Python's [l[a:b]] *)
Definition py_slice {A} (l : list A) (a b : Z) : list A :=
  let n := Z.of_nat (length l) in
  let norm x := if decide (x < 0) then Z.max (x + n) 0 else Z.min x n in
  drop (Z.to_nat (norm a)) (take (Z.to_nat (norm b)) l).

(** [r.bytes] *)
Definition get_bytes (r : response) : M bytes :=
  match r with
  | File d | CdnFile d => mret d
  | _ => Co.raise AttributeError
  end.

(** iterating the answer of [GetCdnFileHashes] *)
Definition get_hashes (r : response) : M (list FileHash) :=
  match r with
  | FileHashes hs => mret hs
  | _ => Co.raise TypeError
  end.

(** [r.encryption_iv[:-4] + (offset_bytes // 16).to_bytes(4, "big")] *)
Definition cdn_iv (encryption_iv : bytes) (offset_bytes : Z) : M bytes :=
  let v := offset_bytes / 16 in
  if decide (0 ≤ v < 2 ^ 32)
  then mret (take (length encryption_iv - 4) encryption_iv ++ be32 v)
  else Co.raise OverflowError.

(** The chunks a generator yielded, oldest first *)
Definition yielded (tr : list event) : list bytes :=
  omap (λ ev, match ev with Yield c => Some c | _ => None end) tr.

Section Download.
(** [aes.ctr256_decrypt(data, key, iv)] and [sha256(data).digest()] *)
Context (ctr256_decrypt : bytes → bytes → bytes → bytes) (sha256 : bytes → bytes).

(** [file_size], [progress] (whether a callback was given), and
    [total = abs(limit) or (1 << 31) - 1] *)
Context (file_size : Z) (progress : bool) (total : Z).

(** What the consumer of the generator does with the chunk of index [n]
    (counted over the chunks yielded so far): [None] when it asks for the
    next chunk, which resumes the generator, or the exception raised at the
    [yield]: [GeneratorExit] when the generator is closed there, by the
    consumer or, once the consumer has dropped it, by the event loop that
    finalizes it; what the consumer throws into it otherwise. A generator
    that is kept suspended for ever has run the part of the trace up to that
    [Yield] *)
Context (consumer : nat → option exn).

(** [yield chunk] *)
Definition yield_ (chunk : bytes) : M unit := λ _ w,
  (match consumer (length (yielded (Co.trace w))) with
   | None => inr tt
   | Some e => inl e
   end,
   {| Co.calls := Co.calls w; Co.trace := Co.trace w ++ [Yield chunk] |}).

(** [if progress: ... await func()] *)
Definition report (offset_bytes : Z) : M unit :=
  if progress
  then call (ProgressCall
         (if decide (file_size ≠ 0) then Z.min offset_bytes file_size else offset_bytes)
         file_size);; mret tt
  else mret tt.

(** The [while True] loop of the plain download; [None] when [fuel]
    iterations were not enough *)
Fixpoint file_loop (fuel : nat) (r : response) (current offset_bytes : Z)
    : M (option unit) :=
  match fuel with
  | O => mret None
  | S fuel' =>
      chunk ← get_bytes r;
      yield_ chunk;;
      let current := current + 1 in
      let offset_bytes := offset_bytes + chunk_size in
      report offset_bytes;;
      if decide (Z.of_nat (length chunk) < chunk_size ∨ total ≤ current)
      then mret (Some tt)
      else
        r ← call (GetFile offset_bytes chunk_size);
        file_loop fuel' r current offset_bytes
  end.

(** [for i, h in enumerate(hashes): ... CDNFileHashMismatch.check(...)],
    from index [i] on *)
Fixpoint check_hashes (decrypted_chunk : bytes) (i : Z) (hashes : list FileHash)
    : M unit :=
  match hashes with
  | [] => mret tt
  | h :: rest =>
      let cdn_chunk := py_slice decrypted_chunk (fh_limit h * i) (fh_limit h * (i + 1)) in
      if decide (fh_hash h = sha256 cdn_chunk)
      then check_hashes decrypted_chunk (i + 1) rest
      else Co.raise CDNFileHashMismatch
  end.

(** The [while True] loop of the CDN download *)
Fixpoint cdn_loop (fuel : nat) (file_token encryption_key encryption_iv : bytes)
    (current offset_bytes : Z) : M (option unit) :=
  match fuel with
  | O => mret None
  | S fuel' =>
      r2 ← call (GetCdnFile file_token offset_bytes chunk_size);
      match r2 with
      | CdnFileReuploadNeeded request_token =>
          reuploaded ← Co.try_except
            (call (ReuploadCdnFile file_token request_token);; mret true)
            (λ e, bool_decide (e = VolumeLocNotFound)) (λ _, mret false);
          if reuploaded : bool
          then cdn_loop fuel' file_token encryption_key encryption_iv current offset_bytes
          else mret (Some tt)
      | _ =>
          chunk ← get_bytes r2;
          iv ← cdn_iv encryption_iv offset_bytes;
          let decrypted_chunk := ctr256_decrypt chunk encryption_key iv in
          answer ← call (GetCdnFileHashes file_token offset_bytes);
          hashes ← get_hashes answer;
          check_hashes decrypted_chunk 0 hashes;;
          yield_ decrypted_chunk;;
          let current := current + 1 in
          let offset_bytes := offset_bytes + chunk_size in
          report offset_bytes;;
          if decide (Z.of_nat (length chunk) < chunk_size ∨ total ≤ current)
          then mret (Some tt)
          else cdn_loop fuel' file_token encryption_key encryption_iv current offset_bytes
      end
  end.

(** [for _ in range(n): export, import; except AuthBytesInvalid: continue;
    else: break] with its [else: raise AuthBytesInvalid] *)
Fixpoint import_authorization (n : nat) : M unit :=
  match n with
  | O => Co.raise AuthBytesInvalid
  | S n' =>
      call ExportAuthorization;;
      imported ← Co.try_except (call ImportAuthorization;; mret true)
                   (λ e, bool_decide (e = AuthBytesInvalid)) (λ _, mret false);
      if imported : bool then mret tt else import_authorization n'
  end.

(** The body of the outer [try] of [get_file]. [has_session]: the media
    session of the data center exists; [same_dc]: the file lives on the
    client's own data center *)
Definition get_file_body (fuel : nat) (has_session same_dc : bool)
    (offset_bytes : Z) : M (option unit) :=
  (if has_session then mret tt
   else
     (if same_dc then mret tt else call CreateAuthKey;; mret tt);;
     call StartSession;;
     if same_dc then mret tt else import_authorization 3);;
  r ← call (GetFile offset_bytes chunk_size);
  match r with
  | File _ => file_loop fuel r 0 offset_bytes
  | FileCdnRedirect _ file_token encryption_key encryption_iv =>
      call CreateAuthKey;;
      Co.try_finally
        (Co.try_except
           (call StartCdnSession;;
            cdn_loop fuel file_token encryption_key encryption_iv 0 offset_bytes)
           is_Exception (λ e, Co.raise e))
        (call StopCdnSession;; mret tt)
  | _ => mret (Some tt)
  end.

(** [Client.get_file], from the first statement of its [try] on; the
    generator's [yield]s are the [Yield] events *)
Definition get_file (fuel : nat) (has_session same_dc : bool)
    (offset : Z) : M (option unit) :=
  Co.try_except (get_file_body fuel has_session same_dc (Z.abs offset * chunk_size))
    is_Exception
    (λ e, match e with
          | StopTransmission | FloodWait | FloodPremiumWait => Co.raise e
          | _ => Co.tell (LogException e);; mret (Some tt)
          end).
End Download.

(** [total = abs(limit) or (1 << 31) - 1] *)
Definition total_of (limit : Z) : Z :=
  if decide (Z.abs limit = 0) then 2 ^ 31 - 1 else Z.abs limit.

(** What [handle_download] ends with *)
Inductive download_result :=
  | Finalized (content : bytes)    (* the file is returned, with what was written *)
  | Discarded                      (* the temporary file is removed, [None] returned *)
  | Reraised (e : exn)
  | Unfinished.                    (* the generator needs more fuel *)

(** The consumer that [handle_download] is. [write n] is what
    [file.write(chunk)] does with the chunk of index [n]: [None], or the
    exception it raises. After a failed write the [async for] is left and
    the generator, never resumed, is closed at that chunk *)
Definition closing (write : nat → option exn) : nat → option exn :=
  λ n, match write n with
       | Some _ => Some GeneratorExit
       | None => None
       end.

(** The exception of the first of the first [n] writes that fails *)
Definition failed_write (write : nat → option exn) (n : nat) : option exn :=
  head (omap write (seq 0 n)).

(** The [except BaseException as e] clause: the temporary file is removed;
    a cancellation and the flood waits are raised again, [None] is returned
    for everything else *)
Definition settle (e : exn) : download_result :=
  match e with
  | CancelledError | FloodWait | FloodPremiumWait => Reraised e
  | _ => Discarded
  end.

(** The [try] of [handle_download] on the run of the generator it drains:
    an exception of [file.write] or of the generator reaches the [except]
    clause, a generator that ends reaches the [else] clause *)
Definition finish (write : nat → option exn)
    (run : (exn + option unit) * Co.world event) : download_result :=
  match failed_write write (length (yielded (Co.trace run.2))) with
  | Some e => settle e
  | None =>
      match run.1 with
      | inl e => settle e
      | inr None => Unfinished
      | inr (Some _) => Finalized (concat (yielded (Co.trace run.2)))
      end
  end.

(** [Client.handle_download]: it drains [get_file(file_id, file_size, 0, 0,
    progress, progress_args)], writing every chunk *)
Definition handle_download (ctr256_decrypt : bytes → bytes → bytes → bytes)
    (sha256 : bytes → bytes) (file_size : Z) (progress : bool)
    (write : nat → option exn) (fuel : nat) (has_session same_dc : bool)
    (script : nat → exn + response) : download_result :=
  finish write
    (get_file ctr256_decrypt sha256 file_size progress (total_of 0) (closing write)
       fuel has_session same_dc 0 script Co.start).

(** Events other than [Yield] *)
Definition silent (ev : event) : Prop :=
  match ev with Yield _ => False | _ => True end.

(** A chunk of a CDN download as [get_file] may deliver it: the [n]-th
    answer of the script is the encrypted chunk, the next one the list of
    hashes, the chunk is the CTR decryption of the former under the key and
    the IV of the redirect (its last four bytes replaced by the block
    counter of the offset), and the piece that each hash of the list
    delimits has that hash *)
Definition cdn_verified (ctr256_decrypt : bytes → bytes → bytes → bytes)
    (sha256 : bytes → bytes) (script : nat → exn + response)
    (encryption_key encryption_iv : bytes) (offset_bytes : Z) (chunk : bytes) : Prop :=
  ∃ n encrypted hashes,
    (script n = inr (CdnFile encrypted) ∨ script n = inr (File encrypted)) ∧
    script (S n) = inr (FileHashes hashes) ∧
    chunk = ctr256_decrypt encrypted encryption_key
              (take (length encryption_iv - 4) encryption_iv ++ be32 (offset_bytes / 16)) ∧
    ∀ (i : nat) h, hashes !! i = Some h →
      fh_hash h = sha256 (py_slice chunk (fh_limit h * Z.of_nat i)
                                          (fh_limit h * (Z.of_nat i + 1))).

(** Every chunk a trace yields satisfies [P] at its offset, the first one
    at [offset_bytes] and each further one [chunk_size] later *)
Fixpoint all_yields (P : Z → bytes → Prop) (offset_bytes : Z) (tr : list event) : Prop :=
  match tr with
  | [] => True
  | Yield c :: tr' => P offset_bytes c ∧ all_yields P (offset_bytes + chunk_size) tr'
  | _ :: tr' => all_yields P offset_bytes tr'
  end.

(** The awaited calls that set the media session up *)
Definition is_setup (ev : event) : Prop :=
  match ev with
  | Invoke CreateAuthKey | Invoke StartSession
  | Invoke ExportAuthorization | Invoke ImportAuthorization => True
  | _ => False
  end.
End Download.

(** A coroutine that only makes recorded calls satisfying [P]: one event per
    awaited answer *)
Definition calls_only {Resp Ev A} (P : Ev → Prop) (m : Co.M Resp Ev A) : Prop :=
  ∀ script w r w', m script w = (r, w') →
    ∃ tr, Forall P tr ∧ Co.trace w' = Co.trace w ++ tr ∧
          Co.calls w' = (Co.calls w + length tr)%nat.

(** ** The worker and registry tasks of the dispatcher and their locks

    [Dispatcher.start] creates one [asyncio.Lock] per [handler_worker] task
    and appends it to [locks_list]; [add_handler] and [remove_handler] each
    create a task that acquires every lock of [locks_list] in order, edits
    [self.groups] and releases them all. The tasks take turns at their
    [await]s; here every turn is an action, and an action is enabled
    whenever the awaited lock is free, which covers every order in which the
    event loop may run the tasks. *)

Module Tasks.
Import Dispatcher.

Inductive mutation :=
  | Add (h : handler) (group : Z)        (* [add_handler(handler, group)] *)
  | Remove (h : handler) (group : Z).    (* [remove_handler(handler, group)] *)

Inductive owner := ByWorker (i : nat) | ByMutator (j : nat).

(** A [handler_worker] task: outside [async with lock] (awaiting the queue
    or the parser), or inside it, iterating over the table it found there,
    [visited] handlers awaited so far *)
Inductive worker :=
  | Idle
  | InPass (seen : groups) (visited : nat).

(** A task of [add_handler] or [remove_handler]: it holds the first [held]
    locks of [locks_list], or it is over *)
Inductive mutator :=
  | Acquiring (held : nat) (m : mutation)
  | Finished.

Record state := {
  table : groups;                  (* [self.groups] *)
  locks : list (option owner);     (* [self.locks_list], lock [i] being worker [i]'s *)
  workers : list worker;
  mutators : list mutator }.

Inductive action :=
  | WEnter (i : nat)     (* worker [i] enters [async with lock] *)
  | WStep (i : nat)      (* worker [i] awaits a check or a callback *)
  | WLeave (i : nat)     (* worker [i] leaves [async with lock] *)
  | Spawn (m : mutation) (* [add_handler] or [remove_handler] is called *)
  | MAcquire (j : nat)   (* task [j] gets the next lock of [locks_list] *)
  | MCommit (j : nat).   (* task [j], all locks held: edit, release all *)

(** The edit of the critical section; a [ValueError] of [remove_handler]
    leaves the table as it is *)
Definition apply_mutation (m : mutation) (gs : groups) : groups :=
  match m with
  | Add h g => add_handler gs h g
  | Remove h g =>
      match remove_handler gs h g with
      | inr gs' => gs'
      | inl _ => gs
      end
  end.

(** One step of one task. A free lock may go to any task that asks for it,
    whereas [asyncio.Lock] wakes its waiters in the order they came: every
    schedule of the event loop is a run of [step], not the converse. What
    holds of all runs (who holds which lock when the table changes, which
    table a pass iterates over) therefore holds of the program, whereas a
    run of [step] need not be a schedule of the event loop. *)
Definition step (s : state) (a : action) : option state :=
  match a with
  | WEnter i =>
      match workers s !! i, locks s !! i with
      | Some Idle, Some None =>
          Some {| table := table s;
                  locks := <[i := Some (ByWorker i)]> (locks s);
                  workers := <[i := InPass (table s) 0]> (workers s);
                  mutators := mutators s |}
      | _, _ => None
      end
  | WStep i =>
      match workers s !! i with
      | Some (InPass seen visited) =>
          Some {| table := table s; locks := locks s;
                  workers := <[i := InPass seen (S visited)]> (workers s);
                  mutators := mutators s |}
      | _ => None
      end
  | WLeave i =>
      match workers s !! i with
      | Some (InPass _ _) =>
          Some {| table := table s;
                  locks := <[i := None]> (locks s);
                  workers := <[i := Idle]> (workers s);
                  mutators := mutators s |}
      | _ => None
      end
  | Spawn m =>
      Some {| table := table s; locks := locks s; workers := workers s;
              mutators := mutators s ++ [Acquiring 0 m] |}
  | MAcquire j =>
      match mutators s !! j with
      | Some (Acquiring held m) =>
          match locks s !! held with
          | Some None =>
              Some {| table := table s;
                      locks := <[held := Some (ByMutator j)]> (locks s);
                      workers := workers s;
                      mutators := <[j := Acquiring (S held) m]> (mutators s) |}
          | _ => None
          end
      | _ => None
      end
  | MCommit j =>
      match mutators s !! j with
      | Some (Acquiring held m) =>
          if decide (held = length (locks s))
          then Some {| table := apply_mutation m (table s);
                       locks := (λ _, None) <$> locks s;
                       workers := workers s;
                       mutators := <[j := Finished]> (mutators s) |}
          else None
      | _ => None
      end
  end.

(** The dispatcher once started with [n] workers, on the registry [gs] *)
Definition init (n : nat) (gs : groups) : state :=
  {| table := gs; locks := replicate n None; workers := replicate n Idle;
     mutators := [] |}.

Fixpoint run (s : state) (acts : list action) : option state :=
  match acts with
  | [] => Some s
  | a :: acts' => s' ← step s a; run s' acts'
  end.

End Tasks.

(** ** Further observations on the modelled code *)

(** The handlers whose check was awaited in a pass, and those whose
    callback was invoked, in the order of the events *)
Definition checked_handlers (evs : list Dispatcher.event) : list nat :=
  omap (λ ev, match ev with Dispatcher.Checked n => Some n | _ => None end) evs.

Definition called_handlers (evs : list Dispatcher.event) : list nat :=
  omap (λ ev, match ev with Dispatcher.Called n => Some n | _ => None end) evs.

(** The handlers of a registry, group after group *)
Definition registry_handlers (gs : Dispatcher.groups) : list Dispatcher.handler :=
  concat gs.*2.

(** The scope ids whose stored state a trace deletes, oldest first *)
Definition deleted_states (tr : list Client.event) : list Z :=
  omap (λ ev, match ev with Client.StorageDeleteState id => Some id | _ => None end) tr.

(** The packet [handle_updates] enqueues for an update of a container when
    the tables are not extended *)
Definition plain_packet (users chats : list Raw.peer) (u : Raw.Update) : Client.packet :=
  (u, Client.dict_by_id users, Client.dict_by_id chats).

(** ** Shapes of the traces of a download *)

(** The event of the progress report that follows a chunk, the offset
    already advanced past it; none without a callback *)
Definition report_events (file_size : Z) (progress : bool) (offset_bytes : Z)
    : list Download.event :=
  if progress
  then [Download.Invoke (Download.ProgressCall
          (if decide (file_size ≠ 0) then Z.min offset_bytes file_size else offset_bytes)
          file_size)]
  else [].

(** A request the download loops make for the chunk at [offset_bytes] *)
Definition at_offset (offset_bytes : Z) (r : Download.request) : Prop :=
  match r with
  | Download.GetFile o l | Download.GetCdnFile _ o l =>
      o = offset_bytes ∧ l = Download.chunk_size
  | Download.GetCdnFileHashes _ o => o = offset_bytes
  | Download.ReuploadCdnFile _ _ => True
  | _ => False
  end.

(** The traces of the two download loops entered at [offset_bytes] with
    [current] chunks delivered, the next chunk being the one of index [n]:
    requests for the chunk, then the chunk; if the consumer resumes the
    generator, the progress report and, only while [current + 1 < total],
    the same for the next chunk *)
Inductive chunk_trace (file_size : Z) (progress : bool) (total : Z)
    (consumer : nat → option exn) : nat → Z → Z → list Download.event → Prop :=
  | ct_end n off cur : chunk_trace file_size progress total consumer n off cur []
  | ct_request n off cur req tr :
      at_offset off req →
      chunk_trace file_size progress total consumer n off cur tr →
      chunk_trace file_size progress total consumer n off cur (Download.Invoke req :: tr)
  | ct_closed n off cur c :
      consumer n ≠ None →
      chunk_trace file_size progress total consumer n off cur [Download.Yield c]
  | ct_last n off cur c :
      consumer n = None →
      chunk_trace file_size progress total consumer n off cur
        (Download.Yield c :: report_events file_size progress (off + Download.chunk_size))
  | ct_more n off cur c tr :
      consumer n = None →
      cur + 1 < total →
      chunk_trace file_size progress total consumer (S n)
        (off + Download.chunk_size) (cur + 1) tr →
      chunk_trace file_size progress total consumer n off cur
        (Download.Yield c ::
           report_events file_size progress (off + Download.chunk_size) ++ tr).

(** The traces of the body of [get_file]: the set-up of the media session,
    the first [GetFile], and either the plain loop or the CDN loop between
    the start and the stop of the CDN session *)
Inductive body_trace (file_size : Z) (progress : bool) (total : Z)
    (consumer : nat → option exn) (n : nat) (off : Z)
    : list Download.event → Prop :=
  | bt_setup setup :
      Forall Download.is_setup setup →
      body_trace file_size progress total consumer n off setup
  | bt_plain setup loop :
      Forall Download.is_setup setup →
      chunk_trace file_size progress total consumer n off 0 loop →
      body_trace file_size progress total consumer n off
        (setup ++ Download.Invoke (Download.GetFile off Download.chunk_size) :: loop)
  | bt_cdn_key setup :
      Forall Download.is_setup setup →
      body_trace file_size progress total consumer n off
        (setup ++ [Download.Invoke (Download.GetFile off Download.chunk_size);
                   Download.Invoke Download.CreateAuthKey])
  | bt_cdn setup loop :
      Forall Download.is_setup setup →
      chunk_trace file_size progress total consumer n off 0 loop →
      body_trace file_size progress total consumer n off
        (setup ++ Download.Invoke (Download.GetFile off Download.chunk_size) ::
           Download.Invoke Download.CreateAuthKey ::
           Download.Invoke Download.StartCdnSession ::
           loop ++ [Download.Invoke Download.StopCdnSession]).

(** Of the [m] chunks from index [n] on, those after which the consumer
    resumes the generator *)
Definition resumed (consumer : nat → option exn) (n m : nat) : nat :=
  length (filter (λ k, consumer k = None) (seq n m)).

(** [P] holds of every request of a trace at the offset the download has
    reached by then: [offset_bytes] at first, [chunk_size] more after each
    chunk yielded *)
Fixpoint all_requests (P : Z → Download.request → Prop) (offset_bytes : Z)
    (tr : list Download.event) : Prop :=
  match tr with
  | [] => True
  | Download.Yield _ :: tr' => all_requests P (offset_bytes + Download.chunk_size) tr'
  | Download.Invoke r :: tr' => P offset_bytes r ∧ all_requests P offset_bytes tr'
  | _ :: tr' => all_requests P offset_bytes tr'
  end.

(** What a data request and a progress report carry when the download has
    reached [offset_bytes] *)
Definition request_at (file_size : Z) (offset_bytes : Z) (r : Download.request) : Prop :=
  match r with
  | Download.GetFile o l | Download.GetCdnFile _ o l =>
      o = offset_bytes ∧ l = Download.chunk_size
  | Download.GetCdnFileHashes _ o => o = offset_bytes
  | Download.ProgressCall current total =>
      total = file_size ∧
      current = if decide (file_size ≠ 0) then Z.min offset_bytes file_size
                else offset_bytes
  | _ => True
  end.

(** The progress reports a trace records, as [(current, total)] *)
Definition progress_calls (tr : list Download.event) : list (Z * Z) :=
  omap (λ ev, match ev with
              | Download.Invoke (Download.ProgressCall c t) => Some (c, t)
              | _ => None
              end) tr.

(** A server that never asks for a re-upload to the CDN *)
Definition no_reupload (script : nat → exn + Download.response) : Prop :=
  ∀ n request_token, script n ≠ inr (Download.CdnFileReuploadNeeded request_token).

(** The events [get_file] adds after its body: the logged exception, if any *)
Definition log_tail (tail : list Download.event) : Prop :=
  tail = [] ∨ ∃ e, tail = [Download.LogException e].

Global Instance request_eq_dec : EqDecision Download.request.
Proof. solve_decision. Defined.

Global Instance event_eq_dec : EqDecision Download.event.
Proof. solve_decision. Defined.

(** ** [get_archived_stories] (methods/stories/get_archived_stories.py) *)

Module Stories.

(** A raw story of a page: its [id] and what else it holds *)
Record raw_story := { story_id : Z; story_payload : nat }.

(** What the awaited calls answer *)
Inductive response :=
  | InputPeer (p : Z)                                  (* from [resolve_peer] *)
  | StoriesPage (stories : list raw_story) (users chats : list Raw.peer)
                                                       (* [stories.Stories] *)
  | Parsed (story : nat).                              (* from [Story._parse] *)

Inductive request :=
  | ResolvePeer
  | GetStoriesArchive (peer : response) (offset_id limit : Z)
  | ParseStory (story : raw_story) (peer : response) (users chats : gmap Z Raw.peer).

Inductive event :=
  | Invoke (r : request)
  | Yield (v : response).

Abbreviation M := (Co.M response event).

Definition call (r : request) : M response := Co.tell (Invoke r);; Co.await.

(** [total = abs(limit) or (1 << 31)] *)
Definition total_of (limit : Z) : Z :=
  if decide (Z.abs limit = 0) then 2 ^ 31 else Z.abs limit.

(** [r.stories], [r.users], [r.chats] *)
Definition get_page (r : response)
    : M (list raw_story * list Raw.peer * list Raw.peer) :=
  match r with
  | StoriesPage stories users chats => mret (stories, users, chats)
  | _ => Co.raise AttributeError
  end.

(** [for story in r.stories: yield await Story._parse(...); current += 1;
    if current >= total: return]; [None] is the [return] *)
Fixpoint each_story (stories : list raw_story) (peer : response)
    (users chats : gmap Z Raw.peer) (current total : Z) : M (option Z) :=
  match stories with
  | [] => mret (Some current)
  | story :: rest =>
      parsed ← call (ParseStory story peer users chats);
      Co.tell (Yield parsed);;
      let current := current + 1 in
      if decide (total ≤ current) then mret None
      else each_story rest peer users chats current total
  end.

(** The [while True] loop; [None] when [fuel] iterations were not enough *)
Fixpoint pages (fuel : nat) (limit total offset_id current : Z) : M (option unit) :=
  match fuel with
  | O => mret None
  | S fuel' =>
      peer ← call ResolvePeer;
      r ← call (GetStoriesArchive peer offset_id limit);
      '(stories, users, chats) ← get_page r;
      match last stories with
      | None => mret (Some tt)
      | Some l =>
          let offset_id := story_id l in
          c ← each_story stories peer (Client.dict_by_id users)
                 (Client.dict_by_id chats) current total;
          match c with
          | None => mret (Some tt)
          | Some current => pages fuel' limit total offset_id current
          end
      end
  end.

(** [get_archived_stories(chat_id, limit, offset_id)] *)
Definition get_archived_stories (fuel : nat) (limit offset_id : Z) : M (option unit) :=
  let total := total_of limit in
  pages fuel (Z.min 100 total) total offset_id 0.

(** The stories a generator yielded, oldest first *)
Definition yielded (tr : list event) : list response :=
  omap (λ ev, match ev with Yield v => Some v | _ => None end) tr.

(** An offset the loop may ask with: the one it was given, or the id of the
    last story of a page the server answered *)
Definition chained (script : nat → exn + response) (offset_id o : Z) : Prop :=
  o = offset_id ∨
  ∃ n stories users chats l,
    script n = inr (StoriesPage stories users chats) ∧
    last stories = Some l ∧ o = story_id l.

(** The shape of the page requests of a run *)
Definition page_request (script : nat → exn + response) (limit offset_id : Z)
    (ev : event) : Prop :=
  match ev with
  | Invoke (GetStoriesArchive _ o l) => l = limit ∧ chained script offset_id o
  | _ => True
  end.
End Stories.

(** ⌈C/2⌉ on Python integers *)
Definition ceil_half (c : Z) : Z := (c + 1) / 2.

(** Closed decidable side conditions are settled by evaluation. *)
Ltac by_decide :=
  match goal with |- ?P => apply (bool_decide_unpack P); vm_compute; exact I end.

(** ** Bounded cache: proofs *)

Section CacheFacts.
Context {K V : Type} `{EqDecision K}.
Implicit Types (d : list (K * V)) (c : Cache.t K V).

Lemma del_absent k d : k ∉ d.*1 → PyDict.del k d = d.
Proof.
  unfold PyDict.del. induction d as [|[k' v'] d IH]; [done|].
  rewrite fmap_cons, not_elem_of_cons. intros [Hne Hd].
  rewrite filter_cons_True by (simpl; intros ->; done). by rewrite IH.
Qed.

Lemma del_keys k d : (PyDict.del k d).*1 = filter (λ k', k' ≠ k) d.*1.
Proof.
  unfold PyDict.del. induction d as [|[k' v'] d IH]; [done|].
  rewrite fmap_cons. simpl.
  destruct (decide (k' = k)) as [->|Hne].
  - rewrite !filter_cons_False by (simpl; tauto). done.
  - rewrite !filter_cons_True by done. by rewrite fmap_cons, IH.
Qed.

Lemma del_not_in k d : k ∉ (PyDict.del k d).*1.
Proof. rewrite del_keys, list_elem_of_filter. tauto. Qed.

Lemma del_NoDup k d : NoDup d.*1 → NoDup (PyDict.del k d).*1.
Proof. rewrite del_keys. apply NoDup_filter. Qed.

Lemma del_present_length k d :
  k ∈ d.*1 → (length (PyDict.del k d) < length d)%nat.
Proof.
  unfold PyDict.del. induction d as [|[k' v'] d IH]; [by intros ?%elem_of_nil|].
  rewrite fmap_cons, elem_of_cons. simpl. intros Hin.
  destruct (decide (k' = k)) as [->|Hne].
  - rewrite filter_cons_False by (simpl; tauto).
    pose proof (length_filter (λ kv : K * V, kv.1 ≠ k) d). simpl. lia.
  - rewrite filter_cons_True by done. simpl.
    destruct Hin as [->|Hin]; [done|]. specialize (IH Hin). lia.
Qed.

Lemma set_absent k v d : k ∉ d.*1 → PyDict.set k v d = d ++ [(k, v)].
Proof. intros Hk. unfold PyDict.set, PyDict.contains. by rewrite bool_decide_eq_false_2. Qed.

Lemma del_oldest_cons k v d :
  k ∉ d.*1 → Cache.del_oldest ((k, v) :: d) = Some d.
Proof.
  intros Hk. unfold Cache.del_oldest. simpl. f_equal.
  unfold PyDict.del. rewrite filter_cons_False by (simpl; tauto).
  by apply del_absent.
Qed.

(** On a dictionary (no key twice) the eviction loop removes a prefix. *)
Lemma evict_drop n d :
  NoDup d.*1 → (n ≤ length d)%nat → Cache.evict n d = Some (drop n d).
Proof.
  revert d. induction n as [|n IH]; intros d Hnd Hlen; [done|].
  destruct d as [|[k v] d]; [simpl in Hlen; lia|].
  rewrite fmap_cons in Hnd. apply NoDup_cons in Hnd as [Hk Hnd].
  cbn [Cache.evict]. rewrite del_oldest_cons by done. simpl.
  apply IH; [done|]. simpl in Hlen. lia.
Qed.

(** The state reached just before the capacity test of [__setitem__]. *)
Lemma setitem_inserted c k v :
  NoDup (Cache.store c).*1 →
  let s1 := if PyDict.contains k (Cache.store c)
            then PyDict.del k (Cache.store c) else Cache.store c in
  PyDict.set k v s1 = s1 ++ [(k, v)] ∧ NoDup (s1 ++ [(k, v)]).*1 ∧
  (length (s1 ++ [(k, v)]) ≤ S (length (Cache.store c)))%nat ∧
  (k ∈ (Cache.store c).*1 → (length (s1 ++ [(k, v)]) ≤ length (Cache.store c))%nat).
Proof.
  intros Hnd s1. subst s1. unfold PyDict.contains.
  destruct (bool_decide_reflect (k ∈ (Cache.store c).*1)) as [Hin|Hnin].
  - pose proof (del_not_in k (Cache.store c)) as Hk.
    pose proof (del_present_length k (Cache.store c) Hin) as Hl.
    split; [by apply set_absent|]. rewrite length_app. simpl.
    split; [|lia].
    rewrite fmap_app. apply NoDup_app. split; [by apply del_NoDup|].
    split; [|apply NoDup_singleton].
    intros x Hx ->%list_elem_of_singleton. done.
  - split; [by apply set_absent|]. rewrite length_app. simpl.
    split; [|split; [lia|done]].
    rewrite fmap_app. apply NoDup_app. split; [done|].
    split; [|apply NoDup_singleton].
    intros x Hx ->%list_elem_of_singleton. done.
Qed.

Lemma half_bounds C : 0 ≤ C → 1 ≤ C / 2 + 1 ≤ C + 1.
Proof.
  intros HC. pose proof (Z.div_pos C 2 HC ltac:(lia)).
  pose proof (Z.div_le_upper_bound C 2 C ltac:(lia) ltac:(lia)). lia.
Qed.

Lemma setitem_inv c k v :
  0 ≤ Cache.capacity c → cache_inv c →
  ∃ c', Cache.setitem c k v = Some c' ∧
        Cache.capacity c' = Cache.capacity c ∧ cache_inv c'.
Proof.
  intros HC [Hnd Hsz]. unfold Cache.size in Hsz.
  destruct (setitem_inserted c k v Hnd) as (Hset & Hnd2 & Hlen & _).
  unfold Cache.setitem. rewrite Hset. clear Hset.
  set (s2 := _ ++ [(k, v)]) in *.
  pose proof (half_bounds _ HC) as Hh.
  case_decide as Hover.
  - rewrite evict_drop by (done || lia). simpl. eexists. split; [done|].
    split; [done|]. split; simpl.
    + rewrite fmap_drop. eapply sublist_NoDup; [done|apply sublist_drop].
    + unfold Cache.size. simpl. rewrite length_drop. lia.
  - eexists. split; [done|]. split; [done|]. split; [done|].
    unfold Cache.size. simpl. lia.
Qed.

Lemma run_inv c ops :
  0 ≤ Cache.capacity c → cache_inv c →
  ∃ l, Cache.run c ops = Some l ∧
       Forall (λ c', Cache.size c' ≤ Cache.capacity c) l.
Proof.
  revert c. induction ops as [|o ops IH]; intros c HC Hinv.
  - exists []. by split.
  - destruct o as [k v|k]; cbn [Cache.run Cache.run_op].
    + destruct (setitem_inv c k v HC Hinv) as (c' & -> & Hcap & Hinv').
      cbn [mbind option_bind].
      destruct (IH c') as (l & -> & Hl); [lia|done|]. cbn [mbind option_bind].
      eexists. split; [done|]. constructor.
      * destruct Hinv' as [_ ?]. lia.
      * by rewrite <- Hcap.
    + cbn [mbind option_bind].
      destruct (IH c HC Hinv) as (l & -> & Hl). cbn [mbind option_bind].
      eexists. split; [done|]. constructor; [by destruct Hinv|done].
Qed.

(** C8: for every capacity [C ≥ 0] and every sequence of [__setitem__] and
    [__getitem__] calls on a cache created with capacity [C], every call
    completes and the number of stored entries after each call is at most
    [C]. *)
Theorem cache_never_exceeds_capacity (C : Z) (ops : list (Cache.op K V)) :
  0 ≤ C →
  ∃ l, Cache.run (Cache.init C) ops = Some l ∧
       Forall (λ c, Cache.size c ≤ C) l.
Proof.
  intros HC. apply (run_inv (Cache.init C) ops HC).
  split; [apply NoDup_nil_2|]. unfold Cache.size. simpl. lia.
Qed.

(** C2 (amended): inserting a new key into a cache of capacity [C ≥ 0] that
    holds [C] entries completes and evicts, during that insertion, exactly
    [C // 2 + 1] entries (⌊C/2⌋+1), namely the oldest-inserted ones: the
    result is the insertion-ordered store followed by the new entry, minus
    its first [C // 2 + 1] entries. *)
Theorem cache_insert_at_capacity_evicts_floor_half c k v :
  0 ≤ Cache.capacity c →
  NoDup (Cache.store c).*1 →
  Cache.size c = Cache.capacity c →
  k ∉ (Cache.store c).*1 →
  ∃ c' ev, Cache.setitem c k v = Some c' ∧
           Cache.evicted c k v c' ev ∧
           Z.of_nat (length ev) = Cache.capacity c / 2 + 1 ∧
           ev = take (length ev) (Cache.store c ++ [(k, v)]).
Proof.
  intros HC Hnd Hsz Hk. unfold Cache.size in Hsz.
  pose proof (half_bounds _ HC) as Hh.
  destruct (setitem_inserted c k v Hnd) as (Hset & Hnd2 & _).
  unfold Cache.setitem. rewrite Hset. clear Hset. revert Hnd2.
  unfold PyDict.contains. rewrite bool_decide_eq_false_2 by done. intros Hnd2.
  set (s2 := Cache.store c ++ [(k, v)]) in *.
  assert (Hlen : Z.of_nat (length s2) = Cache.capacity c + 1).
  { subst s2. rewrite length_app. simpl. lia. }
  rewrite decide_True by lia.
  rewrite evict_drop by (done || lia). simpl.
  set (n := Z.to_nat (Cache.capacity c / 2 + 1)).
  assert (Hn : length (take n s2) = n) by (rewrite length_take; lia).
  exists {| Cache.capacity := Cache.capacity c; Cache.store := drop n s2 |}, (take n s2).
  split; [done|]. split; [|split].
  - unfold Cache.evicted. simpl. by rewrite take_drop.
  - rewrite Hn. lia.
  - by rewrite Hn.
Qed.
End CacheFacts.

(** C8 at capacity 2 with three insertions and a lookup. *)
Lemma cache_never_exceeds_capacity_witness :
  ∃ l, Cache.run (Cache.init 2)
         [Cache.SetItem 1 10; Cache.SetItem 2 20; Cache.GetItem 1; Cache.SetItem 3 30]
       = Some l ∧ Forall (λ c : Cache.t Z Z, Cache.size c ≤ 2) l.
Proof. apply (cache_never_exceeds_capacity 2); lia. Defined.

(** C2 (amended) at capacity 3: two entries are evicted. *)
Lemma cache_insert_at_capacity_evicts_floor_half_witness :
  ∃ c' ev,
    Cache.setitem (Cache.Build 3 [(1, 10); (2, 20); (3, 30)]) 4 40 = Some c' ∧
    Cache.evicted (Cache.Build 3 [(1, 10); (2, 20); (3, 30)]) 4 40 c' ev ∧
    Z.of_nat (length ev) = 3 / 2 + 1 ∧
    ev = take (length ev) ([(1, 10); (2, 20); (3, 30)] ++ [(4, 40)]).
Proof.
  apply (cache_insert_at_capacity_evicts_floor_half
           (Cache.Build 3 [(1, 10); (2, 20); (3, 30)]) 4 40).
  - simpl; lia.
  - by_decide.
  - reflexivity.
  - by_decide.
Defined.

(** C2 as stated fails: at capacity 1 one entry is evicted, not ⌈1/2⌉+1 = 2. *)
Lemma cache_ceil_half_eviction_fails :
  ¬ (∀ (c : Cache.t Z Z) (k v : Z),
       0 ≤ Cache.capacity c →
       NoDup (Cache.store c).*1 →
       Cache.size c = Cache.capacity c →
       k ∉ (Cache.store c).*1 →
       ∃ c' ev, Cache.setitem c k v = Some c' ∧
                Cache.evicted c k v c' ev ∧
                Z.of_nat (length ev) = ceil_half (Cache.capacity c) + 1).
Proof.
  intros Hclaim.
  destruct (Hclaim (Cache.Build 1 [(1, 10)]) 2 20) as (c' & ev & Hset & Hev & Hlen).
  - simpl; lia.
  - by_decide.
  - reflexivity.
  - by_decide.
  - vm_compute in Hset. injection Hset as <-.
    unfold Cache.evicted in Hev. cbn in Hev.
    apply (f_equal length) in Hev. rewrite length_app in Hev. cbn in Hev.
    cbn [Cache.capacity] in Hlen. change (ceil_half 1 + 1) with 2 in Hlen. lia.
Qed.

(** ** Running coroutines: equations of the combinators *)

Section CoFacts.
Context {Resp Ev : Type}.
Implicit Types (script : nat → exn + Resp) (w : Co.world Ev).

Lemma run_bind {A B} (m : Co.M Resp Ev A) (k : A → Co.M Resp Ev B) script w :
  (m ≫= k) script w =
  match m script w with
  | (inl e, w') => (inl e, w')
  | (inr a, w') => k a script w'
  end.
Proof. reflexivity. Qed.

Lemma run_ret {A} (a : A) script w :
  (mret a : Co.M Resp Ev A) script w = (inr a, w).
Proof. reflexivity. Qed.

Lemma run_tell (ev : Ev) script w :
  Co.tell (Resp := Resp) ev script w =
  (inr tt, {| Co.calls := Co.calls w; Co.trace := Co.trace w ++ [ev] |}).
Proof. reflexivity. Qed.

Lemma run_await script w :
  Co.await script w =
  (script (Co.calls w), {| Co.calls := S (Co.calls w); Co.trace := Co.trace w |}).
Proof. reflexivity. Qed.
End CoFacts.

(** ** Peer cache: proofs *)

Section PeerFacts.
Import Raw Client.
Context (get_channel_id : Z → Z) (lower : string → string).

Abbreviation parse := (parse_peer get_channel_id lower).
Abbreviation full_rows := (full_rows get_channel_id lower).

Lemma fetch_peers_loop_spec peers is_min rows urows :
  fetch_peers_loop get_channel_id lower peers is_min rows urows =
  (is_min || existsb peer_min peers,
   rows ++ (full_rows peers).*1, urows ++ (full_rows peers).*2).
Proof.
  unfold full_rows.
  revert is_min rows urows. induction peers as [|p peers IH]; intros is_min rows urows.
  - simpl. by rewrite orb_false_r, !app_nil_r.
  - cbn [fetch_peers_loop existsb]. destruct (peer_min p) eqn:Hmin.
    + rewrite IH, filter_cons_False by (rewrite Hmin; done).
      by rewrite orb_true_r.
    + rewrite filter_cons_True by done. cbn [omap list_omap].
      change (list_omap ?f ?l) with (omap f l).
      destruct (parse p) as [[row urow]|]; rewrite IH; simpl.
      * by rewrite <- !app_assoc.
      * done.
Qed.

Lemma fetch_peers_run (peers : list peer)
    (script : nat → exn + difference) (w : Co.world event) :
  fetch_peers get_channel_id lower peers script w =
    (inr (existsb peer_min peers),
     {| Co.calls := Co.calls w;
        Co.trace := Co.trace w ++
          [StorageUpdatePeers (full_rows peers).*1;
           StorageUpdateUsernames (full_rows peers).*2] |}).
Proof.
  unfold fetch_peers. rewrite fetch_peers_loop_spec. simpl.
  rewrite !run_bind, !run_tell, run_bind, run_tell, run_ret. simpl.
  by rewrite <- app_assoc.
Qed.

(** C5: [fetch_peers] hands to [storage.update_peers] and
    [storage.update_usernames] exactly the rows of the peers whose [min]
    flag is not set (a minimal peer contributes no row to either table),
    and it returns [True] exactly when some input peer is minimal. *)
Theorem fetch_peers_skips_minimal (peers : list peer)
    (script : nat → exn + difference) (w : Co.world event) :
  ∃ b : bool,
    fetch_peers get_channel_id lower peers script w =
      (inr b,
       {| Co.calls := Co.calls w;
          Co.trace := Co.trace w ++
            [StorageUpdatePeers (full_rows peers).*1;
             StorageUpdateUsernames (full_rows peers).*2] |}) ∧
    (b = true ↔ ∃ p, p ∈ peers ∧ peer_min p = true) ∧
    (∀ row, row ∈ full_rows peers →
       ∃ p, p ∈ peers ∧ peer_min p = false ∧ parse p = Some row).
Proof.
  exists (existsb peer_min peers). split; [|split].
  - apply fetch_peers_run.
  - rewrite existsb_exists. split; intros (p & Hp & Hm); exists p;
      (split; [by apply list_elem_of_In|done]).
  - intros row (p & Hp & Hrow)%list_elem_of_omap.
    apply list_elem_of_filter in Hp as [Hm Hp]. by exists p.
Qed.
End PeerFacts.

(** ** Events of composed coroutines *)

Section EmitFacts.
Context {Resp Ev : Type} (P : Ev → Prop).
Implicit Types (script : nat → exn + Resp) (w : Co.world Ev).

Lemma emits_ret {A} (a : A) : emits_only P (mret a : Co.M Resp Ev A).
Proof. intros script w r w' [= <- <-]. exists []. by rewrite app_nil_r. Qed.

Lemma emits_raise {A} e : emits_only P (Co.raise e : Co.M Resp Ev A).
Proof. intros script w r w' [= <- <-]. exists []. by rewrite app_nil_r. Qed.

Lemma emits_tell ev : P ev → emits_only P (Co.tell ev : Co.M Resp Ev unit).
Proof. intros Hev script w r w' [= <- <-]. exists [ev]. split; [by constructor|done]. Qed.

Lemma emits_await : emits_only P (Co.await : Co.M Resp Ev Resp).
Proof. intros script w r w' [= <- <-]. exists []. by rewrite app_nil_r. Qed.

Lemma emits_bind {A B} (m : Co.M Resp Ev A) (k : A → Co.M Resp Ev B) :
  emits_only P m → (∀ a, emits_only P (k a)) → emits_only P (m ≫= k).
Proof.
  intros Hm Hk script w r w'. rewrite run_bind.
  destruct (m script w) as [[e|a] w1] eqn:Hrun;
    destruct (Hm _ _ _ _ Hrun) as (tr1 & Htr1 & Hw1).
  - intros [= <- <-]. by exists tr1.
  - intros Hrun2. destruct (Hk a _ _ _ _ Hrun2) as (tr2 & Htr2 & Hw2).
    exists (tr1 ++ tr2). split; [by apply Forall_app|].
    by rewrite Hw2, Hw1, app_assoc.
Qed.

Lemma emits_try_except {A} (m : Co.M Resp Ev A) handles h :
  emits_only P m → (∀ e, emits_only P (h e)) →
  emits_only P (Co.try_except m handles h).
Proof.
  intros Hm Hh script w r w'. unfold Co.try_except.
  destruct (m script w) as [[e|a] w1] eqn:Hrun;
    destruct (Hm _ _ _ _ Hrun) as (tr1 & Htr1 & Hw1).
  - destruct (handles e).
    + intros Hrun2. destruct (Hh e _ _ _ _ Hrun2) as (tr2 & Htr2 & Hw2).
      exists (tr1 ++ tr2). split; [by apply Forall_app|].
      by rewrite Hw2, Hw1, app_assoc.
    + intros [= <- <-]. by exists tr1.
  - intros [= <- <-]. by exists tr1.
Qed.

Lemma emits_mapM {A B} (f : A → Co.M Resp Ev B) (l : list A) :
  (∀ a, emits_only P (f a)) → emits_only P (mapM f l).
Proof.
  intros Hf. induction l as [|a l IH]; [apply emits_ret|].
  apply emits_bind; [done|]. intros b.
  apply emits_bind; [done|]. intros bs. apply emits_ret.
Qed.
End EmitFacts.

Lemma emits_weaken {Resp Ev A} (P Q : Ev → Prop) (m : Co.M Resp Ev A) :
  (∀ ev, P ev → Q ev) → emits_only P m → emits_only Q m.
Proof.
  intros HPQ Hm script w r w' Hrun.
  destruct (Hm _ _ _ _ Hrun) as (tr & Htr & Hw). exists tr. split; [|done].
  eapply Forall_impl; eauto.
Qed.

Ltac emits_step :=
  first
    [ apply emits_ret | apply emits_raise | apply emits_await
    | apply emits_tell; exact I
    | apply emits_bind; [|intros ?]
    | apply emits_try_except; [|intros ?]
    | apply emits_mapM; intros ? ].

(** ** Update handling: proofs *)

Section UpdateFacts.
Import Raw Client.
Context (get_channel_id : Z → Z) (lower : string → string).

Abbreviation fetch_peers := (fetch_peers get_channel_id lower).
Abbreviation handle_one := (handle_one get_channel_id).
Abbreviation handle_each := (handle_each get_channel_id).
Abbreviation handle_updates := (handle_updates get_channel_id lower).
Abbreviation flush_events := (flush_events get_channel_id).
Abbreviation flush_rows := (flush_rows get_channel_id).
Abbreviation each_trace := (each_trace get_channel_id).

Lemma attr_quiet {A} P (o : option A) : emits_only P (attr o).
Proof. destruct o; emits_step. Qed.

Lemma int_operand_quiet P o : emits_only P (int_operand o).
Proof. destruct o; emits_step. Qed.

Lemma fetch_peers_quiet peers : emits_only quiet (fetch_peers peers).
Proof.
  unfold Client.fetch_peers.
  destruct (fetch_peers_loop _ _ _ _ _ _) as [[b rows] urows].
  repeat emits_step.
Qed.

Lemma refetch_min_quiet is_min u users chats :
  emits_only quiet (refetch_min get_channel_id is_min u users chats).
Proof.
  unfold refetch_min.
  destruct (upd_kind u); try emits_step.
  destruct is_min; [|emits_step].
  emits_step; [apply attr_quiet|].
  destruct (msg_is_empty _); [emits_step|].
  emits_step.
  - emits_step.
    + emits_step; [apply int_operand_quiet|].
      emits_step; [apply int_operand_quiet|].
      emits_step; [apply int_operand_quiet|].
      repeat emits_step.
    + emits_step.
  - destruct a0 as [d|]; [|emits_step].
    destruct d; try emits_step;
      (emits_step; [apply attr_quiet|]); destruct a0; emits_step.
Qed.

(** The events of one iteration of the loop over a container. *)
Lemma handle_one_trace skip is_min date seq u users chats script w r w' :
  handle_one skip is_min date seq u users chats script w = (r, w') →
  ∃ mid, Forall quiet mid ∧
    Co.trace w' = Co.trace w ++ flush_events skip date seq u ++ mid ++
      match r with
      | inr (users', chats') => [QueuePut (u, users', chats')]
      | inl _ => []
      end.
Proof.
  unfold Client.handle_one. rewrite run_bind.
  destruct (flush_state _ _ _ _ _ script w) as [r0 w0] eqn:Hflush.
  assert (r0 = inr tt ∧ Co.calls w0 = Co.calls w ∧
          Co.trace w0 = Co.trace w ++ flush_events skip date seq u) as (-> & Hc0 & Hw0).
  { revert Hflush. unfold flush_state, Client.flush_events.
    destruct (truthy_int _ && negb _); intros [= <- <-]; simpl; [done|].
    by rewrite app_nil_r. }
  rewrite run_bind.
  destruct ((match upd_kind u with
             | UpdateChannelTooLong => Co.tell LogInfo
             | _ => mret tt end) script w0) as [r1 w1] eqn:Hlog.
  assert (∃ tr1, Forall quiet tr1 ∧ r1 = inr tt ∧
                 Co.trace w1 = Co.trace w0 ++ tr1) as (tr1 & Hq1 & -> & Hw1).
  { revert Hlog. destruct (upd_kind u); intros [= <- <-]; simpl;
      first [ by exists []; rewrite app_nil_r
            | exists [LogInfo]; repeat split; by repeat constructor ]. }
  rewrite run_bind.
  destruct (refetch_min _ _ _ _ _ script w1) as [r2 w2] eqn:Hmin.
  destruct (refetch_min_quiet _ _ _ _ _ _ _ _ Hmin) as (tr2 & Hq2 & Hw2).
  destruct r2 as [e|[users' chats']].
  - intros [= <- <-]. exists (tr1 ++ tr2). split; [by apply Forall_app|].
    rewrite Hw2, Hw1, Hw0, app_nil_r. by rewrite <- !app_assoc.
  - rewrite run_bind, run_tell, run_ret. intros [= <- <-].
    exists (tr1 ++ tr2). split; [by apply Forall_app|].
    simpl. rewrite Hw2, Hw1, Hw0. by rewrite <- !app_assoc.
Qed.

(** The events of the whole loop over a container. *)
Lemma handle_each_trace skip is_min date seq us users chats script w r w' :
  handle_each skip is_min date seq us users chats script w = (r, w') →
  ∃ tr, Co.trace w' = Co.trace w ++ tr ∧
        each_trace skip date seq us (bool_decide (r = inr tt)) tr.
Proof.
  revert users chats w. induction us as [|u us IH]; intros users chats w.
  - intros [= <- <-]. exists []. rewrite app_nil_r. split; [done|].
    rewrite bool_decide_eq_true_2 by done. constructor.
  - cbn [Client.handle_each]. rewrite run_bind.
    destruct (handle_one _ _ _ _ _ _ _ script w) as [r1 w1] eqn:Hone.
    destruct (handle_one_trace _ _ _ _ _ _ _ _ _ _ _ Hone) as (mid & Hq & Hw1).
    destruct r1 as [e|[users' chats']].
    + intros [= <- <-]. eexists. split; [by rewrite Hw1, app_nil_r|].
      rewrite bool_decide_eq_false_2 by done. by constructor.
    + intros Hrest. destruct (IH _ _ _ Hrest) as (tr & Hw' & Htr).
      eexists. split; [|by apply et_put with (mid := mid)].
      rewrite Hw', Hw1. by rewrite <- !app_assoc.
Qed.

Lemma queued_app tr1 tr2 : queued (tr1 ++ tr2) = queued tr1 ++ queued tr2.
Proof. apply omap_app. Qed.

Lemma flushed_app tr1 tr2 : flushed (tr1 ++ tr2) = flushed tr1 ++ flushed tr2.
Proof. apply omap_app. Qed.

Lemma quiet_queued tr : Forall quiet tr → queued tr = [].
Proof.
  induction 1 as [|ev tr Hev _ IH]; [done|].
  destruct ev; try done; by destruct Hev.
Qed.

Lemma quiet_flushed tr : Forall quiet tr → flushed tr = [].
Proof.
  induction 1 as [|ev tr Hev _ IH]; [done|].
  destruct ev; try done; by destruct Hev.
Qed.

Lemma quiet_keeps_state tr : Forall quiet tr → Forall keeps_state tr.
Proof. intros Hq. eapply Forall_impl; [done|]. by intros []. Qed.

Lemma flush_events_queued skip date seq u :
  queued (flush_events skip date seq u) = [].
Proof. unfold Client.flush_events. by destruct (_ && _). Qed.

Lemma flush_events_flushed skip date seq u :
  flushed (flush_events skip date seq u) = flush_rows skip date seq [u].
Proof. unfold Client.flush_events, Client.flush_rows. simpl. by destruct (_ && _). Qed.

Lemma flush_rows_cons skip date seq u us :
  flush_rows skip date seq (u :: us) =
  flush_rows skip date seq [u] ++ flush_rows skip date seq us.
Proof. unfold Client.flush_rows. simpl. by destruct (_ && _). Qed.

(** A loop that ran to its end enqueued every update and flushed the
    tuple of each one that carries a truthy pts. *)
Lemma each_trace_complete skip date seq us tr :
  each_trace skip date seq us true tr →
  (queued tr).*1.*1 = us ∧ flushed tr = flush_rows skip date seq us ∧
  Forall (λ ev, ∀ id, ev ≠ StorageDeleteState id) tr.
Proof.
  remember true as ok eqn:Hok. induction 1 as [|u us ok mid users chats tr Hq _ IH|];
    [done| |done].
  destruct (IH Hok) as (IHq & IHf & IHd). split; [|split].
  - rewrite !queued_app, flush_events_queued, (quiet_queued mid) by done.
    change (queued (QueuePut (u, users, chats) :: tr))
      with ((u, users, chats) :: queued tr).
    cbn [app]. rewrite !fmap_cons. f_equal. exact IHq.
  - rewrite !flushed_app, flush_events_flushed, (quiet_flushed mid) by done.
    change (flushed (QueuePut (u, users, chats) :: tr)) with (flushed tr).
    cbn [app]. by rewrite IHf, <- flush_rows_cons.
  - apply Forall_app. split.
    { unfold Client.flush_events. destruct (_ && _); by repeat constructor. }
    apply Forall_app. split.
    { eapply Forall_impl; [done|]. by intros [] ?. }
    by constructor.
Qed.

(** In a trace that starts with quiet events, the first enqueueing is
    found behind them. *)
Lemma split_at_put mid p tr pre q post :
  Forall quiet mid →
  mid ++ QueuePut p :: tr = pre ++ QueuePut q :: post →
  (pre = mid ∧ q = p ∧ post = tr) ∨
  (∃ pre', pre = mid ++ QueuePut p :: pre' ∧ tr = pre' ++ QueuePut q :: post).
Proof.
  intros Hq. revert pre. induction Hq as [|ev mid Hev _ IH]; intros pre Heq.
  - destruct pre as [|ev' pre]; simpl in Heq.
    + injection Heq as -> ->. by left.
    + injection Heq as <- ->. right. by exists pre.
  - destruct pre as [|ev' pre]; simpl in Heq.
    + injection Heq as -> _. destruct Hev.
    + injection Heq as <- Hrest.
      destruct (IH _ Hrest) as [(-> & -> & ->)|(pre' & -> & ->)];
        [by left|right; by exists pre'].
Qed.

Lemma quiet_no_put mid pre q post :
  Forall quiet mid → mid ≠ pre ++ QueuePut q :: post.
Proof.
  intros Hq ->. apply Forall_app in Hq as [_ Hq]. by inversion Hq.
Qed.

(** Every enqueueing of an update with a truthy pts comes right after the
    flush of that update's tuple, only quiet events in between. *)
Lemma each_trace_flush_first date seq us ok tr :
  each_trace false date seq us ok tr →
  ∀ pre post u users chats,
    tr = pre ++ QueuePut (u, users, chats) :: post →
    truthy_int (upd_pts u) = true →
    ∃ pre0 mid,
      pre = pre0 ++ StorageUpdateState (update_state_row get_channel_id date seq u) :: mid ∧
      Forall quiet mid.
Proof.
  induction 1 as [|u0 us ok mid users0 chats0 tr Hq _ IH|u0 us mid Hq];
    intros pre post u users chats Heq Hpts.
  - by destruct pre.
  - unfold Client.flush_events in Heq.
    destruct (truthy_int (upd_pts u0)) eqn:Hp0; simpl in Heq.
    + destruct pre as [|ev pre]; [done|]. simpl in Heq.
      injection Heq as <- Hrest.
      destruct (split_at_put _ _ _ _ _ _ Hq Hrest)
        as [(-> & [= -> -> ->] & ->)|(pre' & -> & ->)].
      * exists [], mid. by split.
      * destruct (IH _ _ _ _ _ eq_refl Hpts) as (pre0 & mid' & -> & Hq').
        eexists (_ :: mid ++ _ :: pre0), mid'. split; [|done].
        simpl. by rewrite <- app_assoc.
    + destruct (split_at_put _ _ _ _ _ _ Hq Heq)
        as [(-> & [= -> -> ->] & ->)|(pre' & -> & ->)].
      * congruence.
      * destruct (IH _ _ _ _ _ eq_refl Hpts) as (pre0 & mid' & -> & Hq').
        eexists (mid ++ _ :: pre0), mid'. split; [|done].
        by rewrite <- app_assoc.
  - unfold Client.flush_events in Heq.
    destruct (truthy_int (upd_pts u0)); simpl in Heq.
    + destruct pre as [|ev pre]; [done|]. simpl in Heq.
      injection Heq as <- Hrest. by apply quiet_no_put in Hrest.
    + by apply quiet_no_put in Heq.
Qed.

(** With no deletion in a trace, the stored states are the old ones
    overwritten by the flushed tuples, in order. *)
Lemma storage_after_flushed table tr :
  Forall (λ ev, ∀ id, ev ≠ StorageDeleteState id) tr →
  storage_after table tr =
  foldl (λ t (row : state_row), <[row.1.1.1.1 := row]> t) table (flushed tr).
Proof.
  intros Hd. revert table. induction Hd as [|ev tr Hev _ IH]; intros table; [done|].
  unfold storage_after in *. simpl. rewrite IH.
  destruct ev; try done. by destruct (Hev id).
Qed.

Lemma storage_after_keeps table tr :
  Forall keeps_state tr → storage_after table tr = table.
Proof.
  intros Hk. revert table. induction Hk as [|ev tr Hev _ IH]; intros table; [done|].
  unfold storage_after in *. simpl. rewrite IH. by destruct ev.
Qed.

(** The events of [handle_updates] on a container. *)
Lemma handle_updates_container_trace skip us users chats date seq script w r w' :
  handle_updates skip (Updates us users chats date seq) script w = (r, w') →
  ∃ head tr, Forall quiet head ∧ Co.trace w' = Co.trace w ++ head ++ tr ∧
             each_trace skip date seq us (bool_decide (r = inr tt)) tr.
Proof.
  cbn [Client.handle_updates].
  rewrite run_bind, fetch_peers_run, run_bind, fetch_peers_run.
  intros Hrun. destruct (handle_each_trace _ _ _ _ _ _ _ _ _ _ _ Hrun) as (tr & Hw' & Htr).
  exists [StorageUpdatePeers (full_rows get_channel_id lower users).*1;
          StorageUpdateUsernames (full_rows get_channel_id lower users).*2;
          StorageUpdatePeers (full_rows get_channel_id lower chats).*1;
          StorageUpdateUsernames (full_rows get_channel_id lower chats).*2], tr.
  split; [by repeat constructor|]. split; [|done].
  rewrite Hw'. simpl. by rewrite <- !app_assoc.
Qed.

(** A container handled to its end: what was enqueued and stored. *)
Lemma handle_updates_container_complete skip us users chats date seq script w w' :
  handle_updates skip (Updates us users chats date seq) script w = (inr tt, w') →
  ∃ tr, Co.trace w' = Co.trace w ++ tr ∧
        (queued tr).*1.*1 = us ∧
        flushed tr = flush_rows skip date seq us ∧
        ∀ table, storage_after table tr =
                 foldl (λ t (row : state_row), <[row.1.1.1.1 := row]> t) table
                   (flush_rows skip date seq us).
Proof.
  intros Hrun.
  destruct (handle_updates_container_trace _ _ _ _ _ _ _ _ _ _ Hrun)
    as (head & tr & Hhead & Hw' & Htr).
  rewrite bool_decide_eq_true_2 in Htr by done.
  destruct (each_trace_complete _ _ _ _ _ Htr) as (Hq & Hf & Hd).
  exists (head ++ tr). split; [done|].
  assert (flushed (head ++ tr) = flush_rows skip date seq us) as Hfl.
  { by rewrite flushed_app, quiet_flushed. }
  split; [by rewrite queued_app, quiet_queued|]. split; [done|].
  intros table. rewrite storage_after_flushed, Hfl; [done|].
  apply Forall_app. split; [|done].
  eapply Forall_impl; [done|]. by intros [] ?.
Qed.

(** C1 (amended): [handle_updates] compares nothing with the locally
    recorded pts. Whenever it handles an [Updates] container to its end,
    every update of the container has been put on the dispatch queue, in
    order, and the state tuple of every update with a non-zero pts has been
    stored (unless [skip_updates]), overwriting whatever was recorded for
    its scope; handling the same container a second time enqueues its
    updates and stores their tuples a second time. *)
Theorem handle_updates_applies_whatever_local_pts
    skip us users chats date seq script w w1 w2 :
  handle_updates skip (Updates us users chats date seq) script w = (inr tt, w1) →
  handle_updates skip (Updates us users chats date seq) script w1 = (inr tt, w2) →
  ∃ tr1 tr2,
    Co.trace w1 = Co.trace w ++ tr1 ∧ Co.trace w2 = Co.trace w1 ++ tr2 ∧
    (queued tr1).*1.*1 = us ∧ (queued tr2).*1.*1 = us ∧
    flushed tr1 = flush_rows skip date seq us ∧
    flushed tr2 = flush_rows skip date seq us ∧
    ∀ table,
      storage_after table tr1 =
        foldl (λ t (row : state_row), <[row.1.1.1.1 := row]> t) table
          (flush_rows skip date seq us) ∧
      (queued (tr1 ++ tr2)).*1.*1 = us ++ us.
Proof.
  intros Hrun1 Hrun2.
  destruct (handle_updates_container_complete _ _ _ _ _ _ _ _ _ Hrun1)
    as (tr1 & Hw1 & Hq1 & Hf1 & Hs1).
  destruct (handle_updates_container_complete _ _ _ _ _ _ _ _ _ Hrun2)
    as (tr2 & Hw2 & Hq2 & Hf2 & Hs2).
  exists tr1, tr2. do 6 (split; [done|]).
  intros table. split; [apply Hs1|].
  by rewrite queued_app, !fmap_app, Hq1, Hq2.
Qed.

Lemma handle_each_keeps_state is_min date seq us users chats :
  emits_only keeps_state (handle_each true is_min date seq us users chats).
Proof.
  revert users chats. induction us as [|u us IH]; intros users chats;
    cbn [Client.handle_each]; [emits_step|].
  emits_step.
  - unfold Client.handle_one, flush_state. rewrite andb_false_r.
    emits_step; [emits_step|].
    emits_step; [destruct (upd_kind u); emits_step|].
    emits_step.
    { eapply emits_weaken; [|apply refetch_min_quiet]. by intros []. }
    destruct a1. repeat emits_step.
  - destruct a. apply IH.
Qed.

(** What follows the flush in the branch of the short messages. *)
Lemma short_message_rest_keeps_state pts pts_count date :
  emits_only keeps_state
    (Co.tell (Invoke (GetDifference (pts - pts_count) date (-1)));;
     diff ← Co.await;
     b ← attr (get_body diff);
     match new_messages b with
     | m :: _ =>
         Co.tell (QueuePut
           ({| upd_kind := UpdateNewMessage; upd_message := Some m;
               upd_channel_id := None; upd_pts := Some pts;
               upd_pts_count := Some pts_count |},
            dict_by_id (diff_users b), dict_by_id (diff_chats b)))
     | [] =>
         match other_updates b with
         | u :: _ => Co.tell (QueuePut (u, ∅, ∅))
         | [] => mret tt
         end
     end : Co.M difference event unit).
Proof.
  emits_step; [emits_step|]. emits_step; [emits_step|].
  emits_step; [apply attr_quiet|].
  destruct (new_messages _); [destruct (other_updates _)|]; emits_step.
Qed.

Lemma handle_updates_keeps_state upd :
  emits_only keeps_state (handle_updates true upd).
Proof.
  destruct upd as [us users chats date seq|pts pts_count date|u| |];
    cbn [Client.handle_updates negb]; try emits_step.
  - eapply emits_weaken; [|apply fetch_peers_quiet]. by intros [].
  - emits_step.
    + eapply emits_weaken; [|apply fetch_peers_quiet]. by intros [].
    + apply handle_each_keeps_state.
  - emits_step.
  - apply short_message_rest_keeps_state.
Qed.

(** C6 (amended): in an [Updates] container handled without
    [skip_updates], every enqueueing of an update whose pts is present and
    non-zero comes right after the flush to storage of the tuple
    [(canonical channel id or 0, pts, None, date, seq)] of that update,
    with no other flush or enqueueing in between; for a short message the
    tuple [(0, pts, None, date, None)] is flushed first, before anything is
    enqueued; and with [skip_updates] no event of [handle_updates] touches
    the stored states. *)
Theorem handle_updates_flushes_before_enqueue skip upd script w r w' :
  handle_updates skip upd script w = (r, w') →
  ∃ tr, Co.trace w' = Co.trace w ++ tr ∧
    (skip = true → Forall keeps_state tr ∧ ∀ table, storage_after table tr = table) ∧
    (skip = false →
       match upd with
       | Updates us _ _ date seq =>
           ∀ pre post u users chats,
             tr = pre ++ QueuePut (u, users, chats) :: post →
             truthy_int (upd_pts u) = true →
             ∃ pre0 mid,
               pre = pre0 ++
                 StorageUpdateState (update_state_row get_channel_id date seq u) :: mid ∧
               Forall quiet mid
       | UpdateShortMessage pts _ date =>
           ∃ rest, tr = StorageUpdateState (0, pts, None, date, None) :: rest ∧
                   Forall keeps_state rest
       | _ => True
       end).
Proof.
  intros Hrun. destruct skip.
  - destruct (handle_updates_keeps_state _ _ _ _ _ Hrun) as (tr & Hk & Hw').
    exists tr. split; [done|]. split; [|done].
    intros _. split; [done|]. intros table. by apply storage_after_keeps.
  - destruct upd as [us users chats date seq|pts pts_count date|u| |].
    + destruct (handle_updates_container_trace _ _ _ _ _ _ _ _ _ _ Hrun)
        as (head & tr & Hhead & Hw' & Htr).
      exists (head ++ tr). split; [done|]. split; [done|]. intros _.
      intros pre post u usr chs Heq Hpts.
      assert (∃ pre1, pre = head ++ pre1 ∧
                      tr = pre1 ++ QueuePut (u, usr, chs) :: post) as (pre1 & -> & ->).
      { clear -Hhead Heq. revert pre Heq.
        induction Hhead as [|ev head Hev _ IH]; intros pre Heq; [by exists pre|].
        destruct pre as [|ev' pre]; simpl in Heq.
        - injection Heq as -> _. destruct Hev.
        - injection Heq as <- Hrest. destruct (IH _ Hrest) as (pre1 & -> & ->).
          by exists pre1. }
      destruct (each_trace_flush_first _ _ _ _ _ Htr _ _ _ _ _ eq_refl Hpts)
        as (pre0 & mid & -> & Hq).
      exists (head ++ pre0), mid. split; [by rewrite <- app_assoc|done].
    + revert Hrun. cbn [Client.handle_updates negb].
      rewrite run_bind, run_tell. intros Hrun.
      destruct (short_message_rest_keeps_state _ _ _ _ _ _ _ Hrun) as (rest & Hk & Hw').
      exists (StorageUpdateState (0, pts, None, date, None) :: rest).
      split; [|split; [done|]].
      * rewrite Hw'. simpl. by rewrite <- app_assoc.
      * intros _. by exists rest.
    + revert Hrun. cbn [Client.handle_updates]. rewrite run_tell. intros [= <- <-].
      eexists. by split.
    + revert Hrun. cbn [Client.handle_updates]. rewrite run_tell. intros [= <- <-].
      eexists. by split.
    + revert Hrun. cbn [Client.handle_updates]. rewrite run_ret. intros [= <- <-].
      exists []. by rewrite app_nil_r.
Qed.
End UpdateFacts.

(** C1 as stated fails: an update with pts 10 and pts_count 1 is applied
    although the recorded pts of its scope is 5, not 9, and handling the
    same container again enqueues and stores it a second time. *)
Lemma handle_updates_applies_across_gap :
  let u := {| Raw.upd_kind := Raw.UpdateNewMessage; Raw.upd_message := None;
              Raw.upd_channel_id := None; Raw.upd_pts := Some 10;
              Raw.upd_pts_count := Some 1 |} in
  let table : gmap Z state_row := {[ 0 := (0, 5, None, 0, Some 0) ]} in
  let script : nat → exn + Client.difference := λ _, inl (OtherError 0) in
  let handle := Client.handle_updates (λ z, -1000000000000 - z) (λ s, s) false
                  (Client.Updates [u] [] [] 100 7) script in
  let first := handle Co.start in
  let second := handle first.2 in
  Client.local_pts table 0 = Some 5 ∧ 5 ≠ 10 - 1 ∧
  first.1 = inr tt ∧
  Client.queued (Co.trace first.2) = [(u, ∅, ∅)] ∧
  Client.local_pts (Client.storage_after table (Co.trace first.2)) 0 = Some 10 ∧
  second.1 = inr tt ∧
  Client.queued (Co.trace second.2) = [(u, ∅, ∅); (u, ∅, ∅)] ∧
  Client.flushed (Co.trace second.2) =
    [(0, 10, None, 100, Some 7); (0, 10, None, 100, Some 7)].
Proof. repeat split; try reflexivity. lia. Qed.

(** C1 (amended) on a container of one update, handled twice. *)
Lemma handle_updates_applies_whatever_local_pts_witness :
  let u := {| Raw.upd_kind := Raw.UpdateNewMessage; Raw.upd_message := None;
              Raw.upd_channel_id := None; Raw.upd_pts := Some 10;
              Raw.upd_pts_count := Some 1 |} in
  let script : nat → exn + Client.difference := λ _, inl (OtherError 0) in
  let handle := Client.handle_updates (λ z, -1000000000000 - z) (λ s, s) false
                  (Client.Updates [u] [] [] 100 7) script in
  ∃ tr1 tr2,
    Co.trace (handle Co.start).2 = Co.trace Co.start ++ tr1 ∧
    Co.trace (handle (handle Co.start).2).2 = Co.trace (handle Co.start).2 ++ tr2 ∧
    (Client.queued tr1).*1.*1 = [u] ∧ (Client.queued tr2).*1.*1 = [u] ∧
    Client.flushed tr1 = Client.flush_rows (λ z, -1000000000000 - z) false 100 7 [u] ∧
    Client.flushed tr2 = Client.flush_rows (λ z, -1000000000000 - z) false 100 7 [u] ∧
    ∀ table,
      Client.storage_after table tr1 =
        foldl (λ t (row : state_row), <[row.1.1.1.1 := row]> t) table
          (Client.flush_rows (λ z, -1000000000000 - z) false 100 7 [u]) ∧
      (Client.queued (tr1 ++ tr2)).*1.*1 = [u] ++ [u].
Proof.
  intros u script handle.
  apply (handle_updates_applies_whatever_local_pts
           (λ z, -1000000000000 - z) (λ s, s) false [u] [] [] 100 7 script
           Co.start (handle Co.start).2 (handle (handle Co.start).2).2);
    reflexivity.
Defined.

(** C6 as stated fails: an update carrying pts 0 is enqueued with
    [skip_updates] off, and nothing is flushed to storage. *)
Lemma handle_updates_zero_pts_not_flushed :
  let u := {| Raw.upd_kind := Raw.UpdateNewMessage; Raw.upd_message := None;
              Raw.upd_channel_id := None; Raw.upd_pts := Some 0;
              Raw.upd_pts_count := Some 0 |} in
  let script : nat → exn + Client.difference := λ _, inl (OtherError 0) in
  let run := Client.handle_updates (λ z, -1000000000000 - z) (λ s, s) false
               (Client.Updates [u] [] [] 100 7) script Co.start in
  Raw.upd_pts u = Some 0 ∧ run.1 = inr tt ∧
  Client.queued (Co.trace run.2) = [(u, ∅, ∅)] ∧
  Client.flushed (Co.trace run.2) = [].
Proof. repeat split; reflexivity. Qed.

(** C6 (amended) on a channel update with pts 10. *)
Lemma handle_updates_flushes_before_enqueue_witness :
  let u := {| Raw.upd_kind := Raw.UpdateOther 0; Raw.upd_message := None;
              Raw.upd_channel_id := Some 42; Raw.upd_pts := Some 10;
              Raw.upd_pts_count := Some 1 |} in
  let gci := λ z : Z, -1000000000000 - z in
  let script : nat → exn + Client.difference := λ _, inl (OtherError 0) in
  let run := Client.handle_updates gci (λ s, s) false
               (Client.Updates [u] [] [] 100 7) script Co.start in
  ∃ tr, Co.trace run.2 = Co.trace Co.start ++ tr ∧
    (false = true → Forall Client.keeps_state tr ∧
                    ∀ table, Client.storage_after table tr = table) ∧
    (false = false →
       ∀ pre post u' users chats,
         tr = pre ++ Client.QueuePut (u', users, chats) :: post →
         truthy_int (Raw.upd_pts u') = true →
         ∃ pre0 mid,
           pre = pre0 ++
             Client.StorageUpdateState (Client.update_state_row gci 100 7 u') :: mid ∧
           Forall Client.quiet mid).
Proof.
  intros u gci script run.
  apply (handle_updates_flushes_before_enqueue gci (λ s, s) false
           (Client.Updates [u] [] [] 100 7) script Co.start run.1 run.2).
  reflexivity.
Defined.

(** ** Gap recovery: proofs *)

Section RecoverFacts.
Import Raw Client.
Implicit Types (script : nat → exn + difference) (w : Co.world event).

Lemma mapM_tell {A} (f : A → event) (l : list A) script w :
  ∃ us, mapM (λ a, Co.tell (f a) : Co.M difference event unit) l script w =
        (inr us, {| Co.calls := Co.calls w; Co.trace := Co.trace w ++ (f <$> l) |}).
Proof.
  revert w. induction l as [|a l IH]; intros w.
  - exists []. cbn. rewrite app_nil_r. by destruct w.
  - cbn [mapM]. rewrite run_bind, run_tell.
    destruct (IH {| Co.calls := Co.calls w; Co.trace := Co.trace w ++ [f a] |})
      as (us & Hus).
    rewrite run_bind, Hus. eexists. rewrite run_ret. cbn.
    by rewrite <- app_assoc.
Qed.

(** Re-injection always completes and awaits nothing. *)
Lemma reinject_run b pts counters script w :
  ∃ w', reinject b pts counters script w =
          (inr (counters.1 + Z.of_nat (length (new_messages b)),
                counters.2 + Z.of_nat (length (other_updates b))), w') ∧
        Co.calls w' = Co.calls w.
Proof.
  unfold reinject. rewrite run_bind.
  match goal with |- context [mapM ?f (new_messages b) script w] =>
    destruct (mapM_tell (λ m, QueuePut
      ({| upd_kind := UpdateNewMessage; upd_message := Some m;
          upd_channel_id := None; upd_pts := Some pts;
          upd_pts_count := Some (-1) |},
       dict_by_id (diff_users b), dict_by_id (diff_chats b)))
      (new_messages b) script w) as (us1 & ->) end.
  rewrite run_bind.
  match goal with |- context [mapM _ (other_updates b) script ?w1] =>
    destruct (mapM_tell (λ u, QueuePut
      (u, dict_by_id (diff_users b), dict_by_id (diff_chats b)))
      (other_updates b) script w1) as (us2 & ->) end.
  rewrite run_ret. eexists. split; [done|done].
Qed.

(** One iteration of the fetch loop, by the answer it receives. *)
Lemma recover_scope_step fuel id lp ld prev counters script w :
  recover_scope (S fuel) id lp ld prev counters script w =
  let w1 := {| Co.calls := S (Co.calls w);
               Co.trace := Co.trace w ++
                 [Invoke (if decide (id < 0)
                          then GetChannelDifference id None lp 10000
                          else GetDifference lp ld 0)] |} in
  match script (Co.calls w) with
  | inl e => if caught_recover e then (inr (Some counters), w1) else (inl e, w1)
  | inr (DifferenceSlice b p d) =>
      if decide (prev = p) then (inr (Some counters), w1)
      else (reinject b p counters ≫= λ c, recover_scope fuel id p d p c) script w1
  | inr (Difference b p) | inr (ChannelDifference b p) =>
      (reinject b p counters ≫= λ c, mret (Some c)) script w1
  | inr _ => (inr (Some counters), w1)
  end.
Proof.
  cbn [recover_scope]. rewrite run_bind. unfold Co.try_except.
  rewrite run_bind, run_tell, run_bind, run_await. cbn [Co.calls Co.trace].
  destruct (script (Co.calls w)) as [e|d].
  - by destruct (caught_recover e).
  - destruct d; try reflexivity. cbn. by destruct (decide (prev = _)).
Qed.

(** More fuel does not change the outcome of a loop that ended. *)
Lemma recover_scope_mono fuel id lp ld prev counters script w r w' :
  recover_scope fuel id lp ld prev counters script w = (r, w') →
  r ≠ inr None →
  recover_scope (S fuel) id lp ld prev counters script w = (r, w').
Proof.
  revert lp ld prev counters w.
  induction fuel as [|fuel IH]; intros lp ld prev counters w.
  - intros [= <- <-]. done.
  - rewrite (recover_scope_step (S fuel)), (recover_scope_step fuel). cbn zeta.
    destruct (script (Co.calls w)) as [e|d]; [done|].
    destruct d; try done.
    destruct (decide (prev = _)); [done|].
    rewrite !run_bind.
    match goal with |- context [reinject ?b ?p ?c script ?w1] =>
      destruct (reinject_run b p c script w1) as (w2 & -> & _) end.
    apply IH.
Qed.

Lemma recover_scope_mono_le fuel fuel' id lp ld prev counters script w r w' :
  recover_scope fuel id lp ld prev counters script w = (r, w') →
  r ≠ inr None → (fuel ≤ fuel')%nat →
  recover_scope fuel' id lp ld prev counters script w = (r, w').
Proof.
  intros Hrun Hr Hle. induction Hle as [|fuel' _ IH]; [done|].
  by apply recover_scope_mono.
Qed.

(** An answer that stops the loop: two iterations are enough. *)
Lemma recover_scope_stops_now id lp ld prev counters script w :
  stops_at script (Co.calls w) = true →
  ∃ r w', recover_scope 2 id lp ld prev counters script w = (r, w') ∧ r ≠ inr None.
Proof.
  unfold stops_at. intros Hstop.
  rewrite recover_scope_step. cbn zeta.
  destruct (script (Co.calls w)) as [e|d].
  { destruct (caught_recover e); by eexists _, _. }
  destruct d as [| |b p|b p d| | |b p];
    try (by eexists _, _);
    try (rewrite run_bind;
         match goal with |- context [reinject ?b ?p ?c script ?w1] =>
           destruct (reinject_run b p c script w1) as (w2 & -> & _) end;
         by eexists _, _).
  destruct (decide (prev = p)); [by eexists _, _|].
  rewrite run_bind.
  match goal with |- context [reinject ?b ?p ?c script ?w1] =>
    destruct (reinject_run b p c script w1) as (w2 & -> & Hcalls) end.
  rewrite recover_scope_step. cbn zeta. rewrite Hcalls. cbn [Co.calls].
  destruct (script (S (Co.calls w))) as [e|d']; [done|].
  destruct d'; try done.
  apply bool_decide_eq_true in Hstop as ->.
  rewrite decide_True by done. by eexists _, _.
Qed.

(** A stopping answer at most [k] calls ahead: [k + 2] iterations are
    enough. *)
Lemma recover_scope_stops k id lp ld prev counters script w :
  (∃ m, (Co.calls w ≤ m ≤ Co.calls w + k)%nat ∧ stops_at script m = true) →
  ∃ r w', recover_scope (k + 2) id lp ld prev counters script w = (r, w') ∧
          r ≠ inr None.
Proof.
  revert lp ld prev counters w.
  induction k as [|k IH]; intros lp ld prev counters w (m & Hm & Hstop).
  - assert (m = Co.calls w) as -> by lia. by apply recover_scope_stops_now.
  - destruct (decide (m = Co.calls w)) as [->|Hne].
    + destruct (recover_scope_stops_now id lp ld prev counters script w Hstop)
        as (r & w' & Hrun & Hr).
      exists r, w'. split; [|done].
      eapply recover_scope_mono_le; [done..|lia].
    + replace (S k + 2)%nat with (S (k + 2)) by lia.
      rewrite recover_scope_step. cbn zeta.
      destruct (script (Co.calls w)) as [e|d].
      { destruct (caught_recover e); by eexists _, _. }
      destruct d as [| |b p|b p d| | |b p];
        try (by eexists _, _);
        try (rewrite run_bind;
             match goal with |- context [reinject ?b ?p ?c script ?w1] =>
               destruct (reinject_run b p c script w1) as (w2 & -> & _) end;
             by eexists _, _).
      destruct (decide (prev = p)); [by eexists _, _|].
      rewrite run_bind.
      match goal with |- context [reinject ?b ?p ?c script ?w1] =>
        destruct (reinject_run b p c script w1) as (w2 & -> & Hcalls) end.
      apply IH. exists m. split; [|done]. rewrite Hcalls. cbn [Co.calls]. lia.
Qed.

Lemma recover_each_terminates script states :
  (∀ n, ∃ m, (n ≤ m)%nat ∧ stops_at script m = true) →
  ∀ counters w,
  ∃ fuel, ∀ fuel', (fuel ≤ fuel')%nat →
    ∃ r w', recover_each fuel' states counters script w = (r, w') ∧ r ≠ inr None.
Proof.
  intros Hstops. induction states as [|[[[[id lp] qts] ld] sq] states IH];
    intros counters w.
  - exists O. intros fuel' _. by eexists _, _.
  - destruct (Hstops (Co.calls w)) as (m & Hm & Hstop).
    destruct (recover_scope_stops (m - Co.calls w) id lp ld 0 counters script w)
      as (r1 & w1 & Hrun1 & Hr1).
    { exists m. split; [lia|done]. }
    destruct r1 as [e|[c|]]; [| |done].
    + exists (m - Co.calls w + 2)%nat. intros fuel' Hle.
      cbn [recover_each]. rewrite run_bind.
      rewrite (recover_scope_mono_le _ fuel' _ _ _ _ _ _ _ _ _ Hrun1 Hr1 Hle).
      by eexists _, _.
    + destruct (IH c {| Co.calls := Co.calls w1;
                        Co.trace := Co.trace w1 ++ [StorageDeleteState id] |})
        as (fuel2 & Hfuel2).
      exists (Nat.max (m - Co.calls w + 2) fuel2). intros fuel' Hle.
      cbn [recover_each]. rewrite run_bind.
      rewrite (recover_scope_mono_le _ fuel' _ _ _ _ _ _ _ _ _ Hrun1 Hr1) by lia.
      rewrite run_bind, run_tell. apply Hfuel2. lia.
Qed.

(** C3 (amended): every answer other than a partial slice ends the fetch
    loop of a scope, and a partial slice ends it when its intermediate pts
    equals the one of the iteration just before (0 at the first one);
    hence [recover_gaps] terminates, for every list of stored states,
    whenever the server's answers are such that after any point there is
    an answer that is not a partial slice, or two partial slices in a row
    with the same intermediate pts. *)
Theorem recover_gaps_terminates_unless_slices_keep_changing script states w :
  (∀ n, ∃ m, (n ≤ m)%nat ∧ stops_at script m = true) →
  ∃ fuel r w', recover_gaps fuel states script w = (r, w') ∧ r ≠ inr None.
Proof.
  intros Hstops. destruct states as [|st states].
  - exists O. cbn. by eexists _, _.
  - destruct (recover_each_terminates script (st :: states) Hstops (0, 0) w)
      as (fuel & Hfuel).
    destruct (Hfuel fuel (le_n _)) as (r & w' & Hrun & Hr).
    exists fuel. unfold recover_gaps. rewrite run_bind, Hrun.
    destruct r as [e|[c|]]; [by eexists _, _| |done].
    rewrite run_bind, run_tell, run_ret. by eexists _, _.
Qed.

(** Against alternating slices the loop never ends. *)
Lemma recover_scope_alternating fuel id lp ld prev counters w :
  (if Nat.even (Co.calls w) then prev ≠ 1 else prev ≠ 2) →
  (recover_scope fuel id lp ld prev counters alternating_slices w).1 = inr None.
Proof.
  revert lp ld prev counters w.
  induction fuel as [|fuel IH]; intros lp ld prev counters w Hprev; [done|].
  rewrite recover_scope_step. cbn zeta. unfold alternating_slices at 1.
  rewrite decide_False by (by destruct (Nat.even (Co.calls w))).
  rewrite run_bind.
  match goal with |- context [reinject ?b ?p ?c _ ?w1] =>
    destruct (reinject_run b p c alternating_slices w1) as (w2 & -> & Hcalls) end.
  apply IH. rewrite Hcalls. cbn [Co.calls]. rewrite Nat.even_succ, <- Nat.negb_even.
  by destruct (Nat.even (Co.calls w)).
Qed.
End RecoverFacts.

(** C3 as stated fails: against a server whose partial slices alternate
    between intermediate pts 1 and 2 (the pts repeats, but never twice in a
    row) recovery of a single global state runs out of every fuel. *)
Lemma recover_gaps_diverges_on_alternating_slices :
  ¬ ∃ fuel r w',
      Client.recover_gaps fuel [(0, 5, None, 0, None)]
        Client.alternating_slices Co.start = (r, w') ∧
      r ≠ inr None.
Proof.
  intros (fuel & r & w' & Hrun & Hr). apply Hr. revert Hrun.
  unfold Client.recover_gaps. cbn [Client.recover_each].
  rewrite !run_bind.
  pose proof (recover_scope_alternating fuel 0 5 0 0 (0, 0) Co.start) as Hloop.
  destruct (Client.recover_scope fuel 0 5 0 0 (0, 0) Client.alternating_slices Co.start)
    as [r1 w1].
  simpl in Hloop. rewrite Hloop by (simpl; lia).
  rewrite !run_ret. by intros [= <- <-].
Qed.

(** C3 (amended) against a server that answers every call with an empty
    difference. *)
Lemma recover_gaps_terminates_unless_slices_keep_changing_witness :
  ∃ fuel r w',
    Client.recover_gaps fuel [(0, 5, None, 0, None); (-1000000000042, 7, None, 0, None)]
      (λ _, inr Client.DifferenceEmpty) Co.start = (r, w') ∧
    r ≠ inr None.
Proof.
  apply (recover_gaps_terminates_unless_slices_keep_changing
           (λ _, inr Client.DifferenceEmpty)).
  intros n. exists n. split; [lia|reflexivity].
Defined.

(** ** Ordered dictionaries: lookups *)

Section DictFacts.
Context {K V : Type} `{EqDecision K}.
Implicit Types (d : list (K * V)).

Lemma get_None k d : PyDict.get k d = None ↔ k ∉ d.*1.
Proof.
  induction d as [|[k' v'] d IH]; simpl.
  - split; [intros _; apply not_elem_of_nil|done].
  - rewrite not_elem_of_cons. destruct (decide (k' = k)) as [->|Hne].
    + split; [done|]. by intros [? _].
    + rewrite IH. split; [by split|by intros [_ ?]].
Qed.

Lemma get_Some k v d : NoDup d.*1 → PyDict.get k d = Some v ↔ (k, v) ∈ d.
Proof.
  induction d as [|[k' v'] d IH]; simpl; intros Hnd.
  - split; [done|by intros ?%elem_of_nil].
  - apply NoDup_cons in Hnd as [Hk' Hnd]. rewrite elem_of_cons.
    destruct (decide (k' = k)) as [->|Hne].
    + split; [intros [= ->]; by left|].
      intros [[= ->]|Hin]; [done|].
      destruct Hk'. apply list_elem_of_fmap. by exists (k, v).
    + rewrite IH by done. split; [by right|]. by intros [[= ? ?]|?].
Qed.

Lemma get_perm k d d' : NoDup d.*1 → d ≡ₚ d' → PyDict.get k d = PyDict.get k d'.
Proof.
  intros Hnd Hperm.
  assert (NoDup d'.*1) as Hnd' by (by rewrite <- Hperm).
  destruct (PyDict.get k d) as [v|] eqn:Hget; symmetry.
  - apply get_Some; [done|]. rewrite <- Hperm. by apply get_Some.
  - apply get_None. rewrite <- Hperm. by apply get_None.
Qed.

Lemma set_present_keys k v d : k ∈ d.*1 → (PyDict.set k v d).*1 = d.*1.
Proof.
  intros Hk. unfold PyDict.set, PyDict.contains. rewrite bool_decide_eq_true_2 by done.
  clear Hk. induction d as [|[k' v'] d IH]; [done|].
  rewrite !fmap_cons, IH. simpl. by destruct (decide (k' = k)) as [->|].
Qed.

Lemma get_update k k' v d :
  PyDict.get k' ((λ kv : K * V, if decide (kv.1 = k) then (k, v) else kv) <$> d) =
  if decide (k' = k)
  then match PyDict.get k d with Some _ => Some v | None => None end
  else PyDict.get k' d.
Proof.
  induction d as [|[k0 v0] d IH]; [by destruct (decide (k' = k))|].
  rewrite fmap_cons. cbn [fst].
  destruct (decide (k0 = k)) as [->|Hne0]; cbn [PyDict.get].
  - destruct (decide (k = k')) as [->|Hne].
    + by rewrite !decide_True.
    + rewrite IH. by rewrite !decide_False by congruence.
  - rewrite IH. destruct (decide (k' = k)) as [->|Hne].
    + by rewrite !decide_False by congruence.
    + done.
Qed.

Lemma get_set_present k k' v d :
  k ∈ d.*1 →
  PyDict.get k' (PyDict.set k v d) = if decide (k' = k) then Some v else PyDict.get k' d.
Proof.
  intros Hk. unfold PyDict.set, PyDict.contains. rewrite bool_decide_eq_true_2 by done.
  rewrite get_update. destruct (decide (k' = k)); [|done].
  destruct (PyDict.get k d) eqn:Hget; [done|]. by apply get_None in Hget.
Qed.

Lemma get_snoc k k' v d :
  k ∉ d.*1 →
  PyDict.get k' (d ++ [(k, v)]) = if decide (k' = k) then Some v else PyDict.get k' d.
Proof.
  intros Hk. induction d as [|[k0 v0] d IH]; simpl.
  - destruct (decide (k = k')) as [->|]; [by rewrite decide_True|by rewrite decide_False].
  - rewrite fmap_cons, not_elem_of_cons in Hk. destruct Hk as [Hne Hk].
    destruct (decide (k0 = k')) as [->|]; [by rewrite decide_False|by apply IH].
Qed.
End DictFacts.

(** ** Handler registry and dispatch pass: proofs *)

Section DispatchFacts.
Import Dispatcher.
Implicit Types (gs : groups) (h : handler) (regs : list (handler * Z)).

Lemma strictly_sorted_NoDup (l : list Z) : StronglySorted Z.lt l → NoDup l.
Proof.
  induction 1 as [|x l _ IH Hx]; constructor; [|done].
  intros Hin. rewrite Forall_forall in Hx. specialize (Hx x Hin). lia.
Qed.

Lemma sorted_NoDup_strict (l : list Z) :
  StronglySorted Z.le l → NoDup l → StronglySorted Z.lt l.
Proof.
  induction 1 as [|x l _ IH Hx]; intros Hnd; constructor.
  - apply IH. by apply NoDup_cons in Hnd as [_ ?].
  - apply NoDup_cons in Hnd as [Hnin _].
    rewrite Forall_forall in *. intros y Hy. specialize (Hx y Hy).
    assert (x ≠ y) by (intros ->; done). lia.
Qed.

Lemma registered_in_snoc g regs h g' :
  registered_in g (regs ++ [(h, g')]) =
  registered_in g regs ++ (if decide (g' = g) then [h] else []).
Proof.
  unfold registered_in. rewrite filter_app, fmap_app. f_equal.
  destruct (decide (g' = g)) as [->|Hne].
  - by rewrite filter_cons_True.
  - by rewrite filter_cons_False.
Qed.

(** One registration, on a registry with ascending distinct keys. *)
Lemma add_handler_spec gs h g :
  StronglySorted Z.lt gs.*1 →
  StronglySorted Z.lt (add_handler gs h g).*1 ∧
  ∀ g', PyDict.get g' (add_handler gs h g) =
        if decide (g' = g) then Some (default [] (PyDict.get g gs) ++ [h])
        else PyDict.get g' gs.
Proof.
  intros Hsorted. pose proof (strictly_sorted_NoDup _ Hsorted) as Hnd.
  unfold add_handler, PyDict.contains.
  destruct (bool_decide_reflect (g ∈ gs.*1)) as [Hin|Hnin].
  - split; [by rewrite set_present_keys|].
    intros g'. by rewrite get_set_present.
  - rewrite (set_absent g [] gs Hnin). unfold sorted_items.
    set (gs1 := merge_sort key_le (gs ++ [(g, [])])).
    assert (gs1 ≡ₚ gs ++ [(g, [])]) as Hperm by apply merge_sort_Permutation.
    assert (NoDup (gs ++ [(g, [])]).*1) as Hnd0.
    { rewrite fmap_app. apply NoDup_app. split; [done|]. split; [|apply NoDup_singleton].
      intros x Hx ->%list_elem_of_singleton. done. }
    assert (NoDup gs1.*1) as Hnd1 by (by rewrite Hperm).
    assert (∀ g', PyDict.get g' gs1 =
                  if decide (g' = g) then Some [] else PyDict.get g' gs) as Hget1.
    { intros g'. rewrite (get_perm g' gs1 _ Hnd1 Hperm). by apply get_snoc. }
    assert (g ∈ gs1.*1) as Hin1.
    { rewrite Hperm, fmap_app. set_solver. }
    split.
    + rewrite set_present_keys by done. apply sorted_NoDup_strict; [|done].
      apply (StronglySorted_fmap fst key_le Z.le); [done|].
      apply StronglySorted_merge_sort; apply _.
    + intros g'. rewrite get_set_present by done.
      rewrite (Hget1 g), (decide_True (P := g = g)) by done.
      destruct (decide (g' = g)) as [->|Hne].
      * apply get_None in Hnin. by rewrite Hnin.
      * by rewrite Hget1, decide_False.
Qed.

(** The registry built by any sequence of registrations: ascending group
    numbers, and per group its handlers in registration order. *)
Lemma registered_spec regs :
  StronglySorted Z.lt (registered regs).*1 ∧
  ∀ g, PyDict.get g (registered regs) =
       match registered_in g regs with [] => None | l => Some l end.
Proof.
  induction regs as [|[h g] regs IH] using rev_ind.
  - split; [constructor|done].
  - destruct IH as [Hsorted Hget]. unfold registered in *. rewrite foldl_snoc.
    cbn [fst snd].
    destruct (add_handler_spec _ h g Hsorted) as [Hsorted' Hget'].
    split; [done|]. intros g'. rewrite Hget', registered_in_snoc, !Hget.
    destruct (decide (g' = g)) as [->|Hne].
    + rewrite decide_True by done.
      destruct (registered_in g regs); by simpl.
    + rewrite decide_False by congruence. by rewrite app_nil_r.
Qed.

Lemma run_group_first_match ht (skipped : list handler) winner rest :
  Forall (λ h, passes_through ht h = true) skipped →
  decisive ht winner = true →
  run_group ht (skipped ++ winner :: rest) =
  (concat (own_events ht <$> skipped) ++ own_events ht winner, verdict winner).
Proof.
  intros Hskip Hwin. induction Hskip as [|h skipped Hh _ IH].
  - revert Hwin. unfold decisive, own_events, verdict. cbn [app fmap list_fmap concat run_group].
    destruct (eligible ht winner); [|done].
    destruct (h_check winner) as [e|[|]]; try done.
    destruct (h_callback winner) as [e|[]]; [|done].
    destruct e; try done; by destruct (is_Exception _).
  - revert Hh. unfold passes_through, own_events.
    cbn [app fmap list_fmap concat run_group]. fold (fmap (own_events ht) skipped).
    rewrite IH. unfold own_events, prepend.
    destruct (eligible ht h); [|done]. cbn [negb orb fst snd].
    destruct (h_check h) as [e|[|]].
    + intros ->. by rewrite <- app_assoc.
    + destruct (h_callback h) as [e|[]]; [|done].
      destruct e; try done; intros _; by rewrite <- app_assoc.
    + intros _. by rewrite <- app_assoc.
Qed.

Lemma run_groups_app ht gs1 gs2 :
  run_groups ht (gs1 ++ gs2) =
  match run_groups ht gs1 with
  | (evs, Next) => prepend evs (run_groups ht gs2)
  | r => r
  end.
Proof.
  induction gs1 as [|[k g] gs1 IH]; cbn [app run_groups].
  - unfold prepend. by destruct (run_groups ht gs2).
  - destruct (run_group ht g) as [evs [| |e]]; [|done..].
    rewrite IH. destruct (run_groups ht gs1) as [evs1 [| |e]]; unfold prepend; simpl;
      [|done..].
    by rewrite app_assoc.
Qed.

(** C4 (amended): in the registry built by any sequence of [add_handler]
    calls the groups stand in ascending numeric order and each holds its
    handlers in registration order; a dispatch pass visits them in that
    order, and matching is first-match-wins within each group: once a
    handler of a group has passed its check and its callback has not raised
    the continue signal, the remaining handlers of that group are skipped
    and the pass goes on with the next group, unless the callback raised the
    stop-propagation signal, which ends the pass; a callback raising the
    continue signal makes the pass go on with the next handler of the same
    group. *)
Theorem dispatch_first_match_wins_per_group
    regs ht gs1 evs1 k (skipped : list handler) winner rest gs2 :
  registered regs = gs1 ++ (k, skipped ++ winner :: rest) :: gs2 →
  run_groups ht gs1 = (evs1, Next) →
  Forall (λ h, passes_through ht h = true) skipped →
  decisive ht winner = true →
  StronglySorted Z.lt (registered regs).*1 ∧
  skipped ++ winner :: rest = registered_in k regs ∧
  run_groups ht (registered regs) =
    let evs := evs1 ++ concat (own_events ht <$> skipped) ++ own_events ht winner in
    match verdict winner with
    | Next => prepend evs (run_groups ht gs2)
    | f => (evs, f)
    end.
Proof.
  intros Hreg Hrun1 Hskip Hwin.
  destruct (registered_spec regs) as [Hsorted Hget].
  split; [done|]. split.
  - specialize (Hget k). rewrite Hreg in Hget, Hsorted.
    apply strictly_sorted_NoDup in Hsorted.
    assert (PyDict.get k (gs1 ++ (k, skipped ++ winner :: rest) :: gs2)
            = Some (skipped ++ winner :: rest)) as Hk.
    { apply get_Some; [done|]. set_solver. }
    rewrite Hk in Hget. destruct (registered_in k regs); congruence.
  - rewrite Hreg, run_groups_app, Hrun1. cbn [run_groups].
    rewrite run_group_first_match by done. cbn zeta.
    destruct (verdict winner); unfold prepend; simpl; [|by rewrite ?app_assoc..].
    destruct (run_groups ht gs2). simpl. by rewrite !app_assoc.
Qed.
End DispatchFacts.

(** C4 as stated fails: with one matching handler in group 0 and another in
    group 1, the first match does not win the pass; both callbacks are
    invoked for the same update. *)
Lemma dispatch_later_group_runs_after_first_match :
  let h1 := {| Dispatcher.h_name := 1; Dispatcher.h_class := Dispatcher.Typed 0;
               Dispatcher.h_check := inr true; Dispatcher.h_callback := inr tt |} in
  let h2 := {| Dispatcher.h_name := 2; Dispatcher.h_class := Dispatcher.Typed 0;
               Dispatcher.h_check := inr true; Dispatcher.h_callback := inr tt |} in
  Dispatcher.run_groups (Some 0%nat) (Dispatcher.registered [(h1, 0); (h2, 1)]) =
  ([Dispatcher.Checked 1; Dispatcher.Called 1;
    Dispatcher.Checked 2; Dispatcher.Called 2], Dispatcher.Next).
Proof. reflexivity. Qed.

(** C4 (amended) on four registrations: group 0 holds a handler that raises
    the continue signal, then one that handles the update, then one that is
    skipped; group 1, registered first, is visited afterwards. *)
Lemma dispatch_first_match_wins_per_group_witness :
  let hA := {| Dispatcher.h_name := 1; Dispatcher.h_class := Dispatcher.RawUpdate;
               Dispatcher.h_check := inr true; Dispatcher.h_callback := inr tt |} in
  let hB := {| Dispatcher.h_name := 2; Dispatcher.h_class := Dispatcher.Typed 0;
               Dispatcher.h_check := inr true;
               Dispatcher.h_callback := inl ContinuePropagation |} in
  let hC := {| Dispatcher.h_name := 3; Dispatcher.h_class := Dispatcher.Typed 0;
               Dispatcher.h_check := inr true; Dispatcher.h_callback := inr tt |} in
  let hD := {| Dispatcher.h_name := 4; Dispatcher.h_class := Dispatcher.Typed 0;
               Dispatcher.h_check := inr true; Dispatcher.h_callback := inr tt |} in
  let regs := [(hA, 1); (hB, 0); (hC, 0); (hD, 0)] in
  StronglySorted Z.lt (Dispatcher.registered regs).*1 ∧
  [hB] ++ hC :: [hD] = Dispatcher.registered_in 0 regs ∧
  Dispatcher.run_groups (Some 0%nat) (Dispatcher.registered regs) =
    let evs := [] ++ concat (Dispatcher.own_events (Some 0%nat) <$> [hB]) ++
               Dispatcher.own_events (Some 0%nat) hC in
    match Dispatcher.verdict hC with
    | Dispatcher.Next =>
        Dispatcher.prepend evs (Dispatcher.run_groups (Some 0%nat) [(1, [hA])])
    | f => (evs, f)
    end.
Proof.
  intros hA hB hC hD regs.
  apply (dispatch_first_match_wins_per_group regs (Some 0%nat) [] [] 0 [hB] hC [hD]
           [(1, [hA])]).
  - reflexivity.
  - reflexivity.
  - repeat constructor.
  - reflexivity.
Defined.

(** ** Chunked download: proofs *)

Section DownloadFacts.
Import Download.
Context (ctr256_decrypt : bytes → bytes → bytes → bytes) (sha256 : bytes → bytes).
Context (file_size : Z) (progress : bool) (total : Z) (consumer : nat → option exn).
Implicit Types (script : nat → exn + response) (w : Co.world event).

Abbreviation get_file :=
  (get_file ctr256_decrypt sha256 file_size progress total consumer).
Abbreviation get_file_body :=
  (get_file_body ctr256_decrypt sha256 file_size progress total consumer).
Abbreviation cdn_loop :=
  (cdn_loop ctr256_decrypt sha256 file_size progress total consumer).
Abbreviation cdn_verified := (cdn_verified ctr256_decrypt sha256).

Lemma run_call req script w :
  call req script w =
  (script (Co.calls w),
   {| Co.calls := S (Co.calls w); Co.trace := Co.trace w ++ [Invoke req] |}).
Proof. reflexivity. Qed.

Lemma run_yield chunk script w :
  yield_ consumer chunk script w =
  (match consumer (length (yielded (Co.trace w))) with
   | None => inr tt
   | Some e => inl e
   end,
   {| Co.calls := Co.calls w; Co.trace := Co.trace w ++ [Yield chunk] |}).
Proof. reflexivity. Qed.

Lemma emits_yield (P : event → Prop) chunk :
  P (Yield chunk) → emits_only P (yield_ consumer chunk).
Proof.
  intros HP script w r w'. rewrite run_yield. intros [= <- <-].
  exists [Yield chunk]. split; [by constructor|done].
Qed.

(** What leaves [get_file], by what its body does. *)
Lemma get_file_outcome fuel has_session same_dc offset script w :
  get_file fuel has_session same_dc offset script w =
  match get_file_body fuel has_session same_dc (Z.abs offset * chunk_size) script w with
  | (inl e, w1) =>
      if is_Exception e then
        if bool_decide (e = StopTransmission ∨ e = FloodWait ∨ e = FloodPremiumWait)
        then (inl e, w1)
        else (inr (Some tt),
              {| Co.calls := Co.calls w1; Co.trace := Co.trace w1 ++ [LogException e] |})
      else (inl e, w1)
  | r => r
  end.
Proof.
  unfold Download.get_file, Co.try_except.
  destruct (get_file_body _ _ _ _ script w) as [[e|v] w1]; [|done].
  destruct e; try reflexivity.
Qed.

Lemma all_yields_silent P off (tr : list event) :
  Forall silent tr → all_yields P off tr.
Proof.
  induction 1 as [|ev tr Hev _ IH]; [done|]. by destruct ev.
Qed.

Lemma all_yields_silent_app P off (tr1 tr2 : list event) :
  Forall silent tr1 → all_yields P off tr2 → all_yields P off (tr1 ++ tr2).
Proof.
  induction 1 as [|ev tr Hev _ IH]; [done|]. intros H2. by destruct ev; simpl; auto.
Qed.

Lemma all_yields_app_silent P off (tr1 tr2 : list event) :
  all_yields P off tr1 → Forall silent tr2 → all_yields P off (tr1 ++ tr2).
Proof.
  revert off. induction tr1 as [|ev tr1 IH]; intros off H1 H2.
  - by apply all_yields_silent.
  - destruct ev; simpl in *; try by apply IH. destruct H1. split; [done|by apply IH].
Qed.

(** The verification loop raises exactly when some piece does not have the
    hash the server supplied for it, and touches nothing. *)
Lemma check_hashes_run dec (i : Z) hashes script w :
  (check_hashes sha256 dec i hashes script w = (inr tt, w) ∧
   ∀ (j : nat) h, hashes !! j = Some h →
     fh_hash h = sha256 (py_slice dec (fh_limit h * (i + Z.of_nat j))
                                      (fh_limit h * (i + Z.of_nat j + 1)))) ∨
  (check_hashes sha256 dec i hashes script w = (inl CDNFileHashMismatch, w) ∧
   ∃ (j : nat) h, hashes !! j = Some h ∧
     fh_hash h ≠ sha256 (py_slice dec (fh_limit h * (i + Z.of_nat j))
                                      (fh_limit h * (i + Z.of_nat j + 1)))).
Proof.
  revert i. induction hashes as [|h hashes IH]; intros i; cbn [check_hashes].
  - left. split; [done|]. intros j h' Hj. by rewrite lookup_nil in Hj.
  - destruct (decide (fh_hash h = sha256 _)) as [Heq|Hne].
    + destruct (IH (i + 1)) as [[Hrun Hall]|[Hrun (j & h' & Hj & Hbad)]].
      * left. split; [done|]. intros [|j] h' Hj; simpl in Hj.
        -- injection Hj as <-. by rewrite Z.add_0_r.
        -- specialize (Hall j h' Hj).
           by replace (i + Z.of_nat (S j)) with (i + 1 + Z.of_nat j) by lia.
      * right. split; [done|]. exists (S j), h'. split; [done|].
        by replace (i + Z.of_nat (S j)) with (i + 1 + Z.of_nat j) by lia.
    + right. split; [done|]. exists O, h. split; [done|]. by rewrite Z.add_0_r.
Qed.

Lemma report_silent offset_bytes :
  emits_only silent (report file_size progress offset_bytes).
Proof.
  unfold report. destruct progress; [|emits_step].
  emits_step; [|emits_step]. unfold call. emits_step; emits_step.
Qed.

(** Every chunk the CDN loop yields is the decryption of an answered chunk
    under the key and IV of the redirect, with every piece the answered
    hashes delimit verified. *)
Lemma cdn_loop_yields fuel file_token key iv current offset_bytes script w r w' :
  cdn_loop fuel file_token key iv current offset_bytes script w = (r, w') →
  ∃ tr, Co.trace w' = Co.trace w ++ tr ∧
        all_yields (cdn_verified script key iv) offset_bytes tr.
Proof.
  revert current offset_bytes w.
  induction fuel as [|fuel IH]; intros current offset_bytes w.
  { intros [= <- <-]. exists []. by rewrite app_nil_r. }
  cbn [Download.cdn_loop]. rewrite run_bind, run_call.
  destruct (script (Co.calls w)) as [e|r2] eqn:Hans.
  { intros [= <- <-]. by exists [Invoke (GetCdnFile file_token offset_bytes chunk_size)]. }
  assert (∀ encrypted,
    (r2 = CdnFile encrypted ∨ r2 = File encrypted) →
    (chunk ← mret encrypted;
     iv' ← cdn_iv iv offset_bytes;
     let decrypted_chunk := ctr256_decrypt chunk key iv' in
     answer ← call (GetCdnFileHashes file_token offset_bytes);
     hashes ← get_hashes answer;
     check_hashes sha256 decrypted_chunk 0 hashes;;
     yield_ consumer decrypted_chunk;;
     report file_size progress (offset_bytes + chunk_size);;
     if decide (Z.of_nat (length chunk) < chunk_size ∨ total ≤ current + 1)
     then mret (Some tt)
     else cdn_loop fuel file_token key iv (current + 1) (offset_bytes + chunk_size))
      script
      {| Co.calls := S (Co.calls w);
         Co.trace := Co.trace w ++ [Invoke (GetCdnFile file_token offset_bytes chunk_size)] |}
      = (r, w') →
    ∃ tr, Co.trace w' = Co.trace w ++ tr ∧
          all_yields (cdn_verified script key iv) offset_bytes tr) as Hchunk.
  { intros encrypted Hr2. rewrite run_bind, run_ret, run_bind. unfold cdn_iv.
    destruct (decide (0 ≤ offset_bytes / 16 < 2 ^ 32)) as [Hv|Hv].
    2:{ intros [= <- <-]. by eexists [_]. }
    rewrite run_ret. cbn zeta. rewrite run_bind, run_call. cbn [Co.calls Co.trace].
    destruct (script (S (Co.calls w))) as [e|answer] eqn:Hans2.
    { intros [= <- <-]. eexists [_; _]. by rewrite <- app_assoc. }
    rewrite run_bind.
    destruct answer as [| | | |hashes|];
      try (intros [= <- <-]; eexists [_; _]; by rewrite <- app_assoc).
    cbn [get_hashes]. rewrite run_ret, run_bind.
    match goal with |- context [check_hashes sha256 ?dec 0 hashes script ?w1] =>
      destruct (check_hashes_run dec 0 hashes script w1)
        as [[-> Hall]|[-> _]] end.
    2:{ intros [= <- <-]. eexists [_; _]. by rewrite <- app_assoc. }
    rewrite run_bind, run_yield. cbn [Co.calls Co.trace].
    set (dec := ctr256_decrypt encrypted key _) in *.
    assert (cdn_verified script key iv offset_bytes dec) as Hver.
    { exists (Co.calls w), encrypted, hashes. rewrite Hans.
      split; [destruct Hr2 as [->| ->]; auto|]. split; [done|]. split; [done|].
      intros j h Hj. specialize (Hall j h Hj). by rewrite !Z.add_0_l in Hall. }
    destruct (consumer _) as [thrown|].
    { intros [= <- <-]. eexists [_; _; Yield dec]. split.
      - by rewrite <- !app_assoc.
      - simpl. done. }
    rewrite run_bind.
    match goal with |- context [report _ _ _ script ?w2] =>
      destruct (report file_size progress (offset_bytes + chunk_size) script w2)
        as [rr w3] eqn:Hrep end.
    destruct (report_silent _ _ _ _ _ Hrep) as (trr & Hsil & Hw3).
    cbn [Co.trace] in Hw3.
    destruct rr as [e|[]].
    { intros [= <- <-]. eexists ([_; _; Yield dec] ++ trr). split.
      - rewrite Hw3. by rewrite <- !app_assoc.
      - simpl. split; [done|]. by apply all_yields_silent. }
    destruct (decide (_ ∨ _)).
    { intros [= <- <-]. eexists ([_; _; Yield dec] ++ trr). split.
      - rewrite Hw3. by rewrite <- !app_assoc.
      - simpl. split; [done|]. by apply all_yields_silent. }
    intros Hloop. destruct (IH _ _ _ Hloop) as (tr' & Hw' & Hall').
    eexists ([_; _; Yield dec] ++ trr ++ tr'). split.
    - rewrite Hw', Hw3. by rewrite <- !app_assoc.
    - simpl. split; [done|]. by apply all_yields_silent_app. }
  destruct r2 as [d|dc tok k2 iv2|d|request_token|hs|].
  - apply (Hchunk d). by right.
  - rewrite run_bind. intros [= <- <-]. by eexists [_].
  - apply (Hchunk d). by left.
  - clear Hchunk. rewrite run_bind. unfold Co.try_except.
    rewrite run_bind, run_call. cbn [Co.calls Co.trace].
    destruct (script (S (Co.calls w))) as [e|answer].
    + destruct (bool_decide (e = VolumeLocNotFound)).
      * rewrite run_ret. intros [= <- <-]. eexists [_; _]. by rewrite <- app_assoc.
      * intros [= <- <-]. eexists [_; _]. by rewrite <- app_assoc.
    + rewrite run_ret. intros Hloop. destruct (IH _ _ _ Hloop) as (tr' & Hw' & Hall').
      eexists ([_; _] ++ tr'). split.
      * rewrite Hw'. cbn [Co.trace]. by rewrite <- !app_assoc.
      * done.
  - rewrite run_bind. intros [= <- <-]. by eexists [_].
  - rewrite run_bind. intros [= <- <-]. by eexists [_].
Qed.

Lemma calls_ret {A} (P : event → Prop) (a : A) : calls_only P (mret a : M A).
Proof. intros script w r w' [= <- <-]. exists []. by rewrite app_nil_r, Nat.add_0_r. Qed.

Lemma calls_raise {A} (P : event → Prop) e : calls_only P (Co.raise e : M A).
Proof. intros script w r w' [= <- <-]. exists []. by rewrite app_nil_r, Nat.add_0_r. Qed.

Lemma calls_call (P : event → Prop) req : P (Invoke req) → calls_only P (call req).
Proof.
  intros HP script w r w'. rewrite run_call. intros [= <- <-].
  exists [Invoke req]. split; [by constructor|]. split; [done|]. simpl. lia.
Qed.

Lemma calls_bind {A B} (P : event → Prop) (m : M A) (k : A → M B) :
  calls_only P m → (∀ a, calls_only P (k a)) → calls_only P (m ≫= k).
Proof.
  intros Hm Hk script w r w'. rewrite run_bind.
  destruct (m script w) as [[e|a] w1] eqn:Hrun;
    destruct (Hm _ _ _ _ Hrun) as (tr1 & Htr1 & Hw1 & Hc1).
  - intros [= <- <-]. by exists tr1.
  - intros Hrun2. destruct (Hk a _ _ _ _ Hrun2) as (tr2 & Htr2 & Hw2 & Hc2).
    exists (tr1 ++ tr2). split; [by apply Forall_app|].
    split; [by rewrite Hw2, Hw1, app_assoc|]. rewrite Hc2, Hc1, length_app. lia.
Qed.

Lemma calls_try_except {A} (P : event → Prop) (m : M A) handles h :
  calls_only P m → (∀ e, calls_only P (h e)) → calls_only P (Co.try_except m handles h).
Proof.
  intros Hm Hh script w r w'. unfold Co.try_except.
  destruct (m script w) as [[e|a] w1] eqn:Hrun;
    destruct (Hm _ _ _ _ Hrun) as (tr1 & Htr1 & Hw1 & Hc1).
  - destruct (handles e).
    + intros Hrun2. destruct (Hh e _ _ _ _ Hrun2) as (tr2 & Htr2 & Hw2 & Hc2).
      exists (tr1 ++ tr2). split; [by apply Forall_app|].
      split; [by rewrite Hw2, Hw1, app_assoc|]. rewrite Hc2, Hc1, length_app. lia.
    + intros [= <- <-]. by exists tr1.
  - intros [= <- <-]. by exists tr1.
Qed.

Lemma import_authorization_calls n : calls_only is_setup (import_authorization n).
Proof.
  induction n as [|n IH]; cbn [import_authorization]; [apply calls_raise|].
  apply calls_bind; [by apply calls_call|]. intros _.
  apply calls_bind.
  - apply calls_try_except; [|intros _; apply calls_ret].
    apply calls_bind; [by apply calls_call|]. intros _. apply calls_ret.
  - intros [|]; [apply calls_ret|apply IH].
Qed.

(** Setting the media session up only makes set-up calls. *)
Lemma session_setup_calls (has_session same_dc : bool) :
  calls_only is_setup
    (if has_session then mret tt
     else
       (if same_dc then mret tt else call CreateAuthKey;; mret tt);;
       call StartSession;;
       if same_dc then mret tt else import_authorization 3 : M unit).
Proof.
  destruct has_session; [apply calls_ret|].
  apply calls_bind.
  { destruct same_dc; [apply calls_ret|].
    apply calls_bind; [by apply calls_call|]. intros _. apply calls_ret. }
  intros _. apply calls_bind; [by apply calls_call|]. intros _.
  destruct same_dc; [apply calls_ret|apply import_authorization_calls].
Qed.

Lemma try_except_reraise {A} (m : M A) handles script w :
  Co.try_except m handles (λ e, Co.raise e) script w = m script w.
Proof.
  unfold Co.try_except. destruct (m script w) as [[e|a] w1]; [|done].
  by destruct (handles e).
Qed.

Lemma file_loop_emits fuel r current offset_bytes :
  emits_only (λ _, True)
    (file_loop file_size progress total consumer fuel r current offset_bytes).
Proof.
  revert r current offset_bytes.
  induction fuel as [|fuel IH]; intros r current offset_bytes; cbn [file_loop];
    [emits_step|].
  emits_step; [destruct r; emits_step|].
  emits_step; [by apply emits_yield|]. emits_step.
  { eapply emits_weaken; [|apply report_silent]. done. }
  destruct (decide _); [emits_step|].
  emits_step; [unfold call; emits_step; emits_step|]. apply IH.
Qed.

(** The events of the body of [get_file]: set-up calls, then, if it gets
    that far, the first [GetFile] and what follows it; after a CDN redirect
    only verified chunks follow. *)
Lemma get_file_body_trace fuel has_session same_dc offset_bytes script w r w1 :
  get_file_body fuel has_session same_dc offset_bytes script w = (r, w1) →
  ∃ tr, Co.trace w1 = Co.trace w ++ tr ∧
    (Forall is_setup tr ∨
     ∃ setup rest,
       tr = setup ++ Invoke (GetFile offset_bytes chunk_size) :: rest ∧
       Forall is_setup setup ∧
       ∀ dc file_token key iv,
         script (Co.calls w + length setup)%nat
           = inr (FileCdnRedirect dc file_token key iv) →
         all_yields (cdn_verified script key iv) offset_bytes rest).
Proof.
  unfold Download.get_file_body. rewrite run_bind.
  match goal with |- context [(if has_session then _ else _) script w] =>
    destruct ((if has_session then mret tt
               else
                 (if same_dc then mret tt else call CreateAuthKey;; mret tt);;
                 call StartSession;;
                 if same_dc then mret tt else import_authorization 3 : M unit) script w)
      as [r0 w0] eqn:Hsetup end.
  destruct (session_setup_calls _ _ _ _ _ _ Hsetup) as (setup & Hset & Hw0 & Hc0).
  destruct r0 as [e|[]].
  { intros [= <- <-]. exists setup. split; [done|by left]. }
  rewrite run_bind, run_call. rewrite Hc0.
  destruct (script (Co.calls w + length setup)%nat) as [e|r1] eqn:Hans.
  { intros [= <- <-]. eexists. split; [cbn; by rewrite Hw0, <- app_assoc|].
    right. exists setup, []. split; [done|]. split; [done|]. by intros. }
  destruct r1 as [d|dc tok key iv|d|rt|hs|].
  - intros Hloop.
    assert (∃ tr', Co.trace w1 =
              (Co.trace w0 ++ [Invoke (GetFile offset_bytes chunk_size)]) ++ tr')
      as (tr' & Hw1).
    { pose proof (file_loop_emits fuel (File d) 0 offset_bytes) as Hem.
      destruct (Hem _ _ _ _ Hloop) as (tr' & _ & Hw1). by exists tr'. }
    eexists. split; [by rewrite Hw1, Hw0, <- !app_assoc|].
    right. exists setup, tr'. split; [done|]. split; [done|].
    intros dc0 tok0 key0 iv0 Hred. by rewrite Hans in Hred.
  - rewrite run_bind, run_call. cbn [Co.calls Co.trace].
    destruct (script (S (Co.calls w + length setup))) as [e|r2].
    { intros [= <- <-]. eexists. split; [cbn; by rewrite Hw0, <- !app_assoc|].
      right. exists setup, [Invoke CreateAuthKey]. split; [done|]. split; [done|].
      by intros. }
    unfold Co.try_finally. rewrite try_except_reraise, run_bind, run_call.
    cbn [Co.calls Co.trace].
    match goal with |- context [match ?s with inl _ => _ | inr _ => _ end] =>
      destruct s as [e|r3] end.
    + rewrite run_bind, run_call. cbn [Co.calls Co.trace].
      match goal with |- context [match ?s with inl _ => _ | inr _ => _ end] =>
        destruct s as [e'|r4] end.
      * intros [= <- <-]. eexists. split; [cbn; by rewrite Hw0, <- !app_assoc|].
        right. exists setup, [Invoke CreateAuthKey; Invoke StartCdnSession;
                              Invoke StopCdnSession].
        split; [done|]. split; [done|]. by intros.
      * rewrite run_ret. intros [= <- <-].
        eexists. split; [cbn; by rewrite Hw0, <- !app_assoc|].
        right. exists setup, [Invoke CreateAuthKey; Invoke StartCdnSession;
                              Invoke StopCdnSession].
        split; [done|]. split; [done|]. by intros.
    + match goal with |- context [cdn_loop fuel tok key iv 0 offset_bytes script ?w2] =>
        destruct (cdn_loop fuel tok key iv 0 offset_bytes script w2)
          as [rc wc] eqn:Hcdn end.
      destruct (cdn_loop_yields _ _ _ _ _ _ _ _ _ _ Hcdn) as (trc & Hwc & Hall).
      cbn [Co.trace] in Hwc.
      rewrite run_bind, run_call.
      assert (∀ (res : exn + option unit) wf,
                Co.trace wf = Co.trace wc ++ [Invoke StopCdnSession] →
                (res, wf) = (r, w1) →
                ∃ tr, Co.trace w1 = Co.trace w ++ tr ∧
                  (Forall is_setup tr ∨
                   ∃ setup0 rest,
                     tr = setup0 ++ Invoke (GetFile offset_bytes chunk_size) :: rest ∧
                     Forall is_setup setup0 ∧
                     ∀ dc0 file_token key0 iv0,
                       script (Co.calls w + length setup0)%nat
                         = inr (FileCdnRedirect dc0 file_token key0 iv0) →
                       all_yields (cdn_verified script key0 iv0) offset_bytes rest))
        as Hfin.
      { intros res wf Hwf [= <- <-].
        exists (setup ++ Invoke (GetFile offset_bytes chunk_size) ::
                  ([Invoke CreateAuthKey; Invoke StartCdnSession] ++ trc ++
                   [Invoke StopCdnSession])).
        split.
        { rewrite Hwf, Hwc, Hw0. rewrite <- !app_assoc. by simpl. }
        right. eexists setup, _. split; [done|]. split; [done|].
        intros dc0 tok0 key0 iv0 Hred. rewrite Hans in Hred. injection Hred as <- <- <- <-.
        apply all_yields_silent_app; [by repeat constructor|].
        apply all_yields_app_silent; [done|by repeat constructor]. }
      match goal with |- context [match ?s with inl _ => _ | inr _ => _ end] =>
        destruct s as [e'|r4] end.
      * by apply Hfin.
      * rewrite run_ret. by apply Hfin.
  - intros [= <- <-]. eexists. split; [cbn; by rewrite Hw0, <- app_assoc|].
    right. exists setup, []. split; [done|]. split; [done|]. by intros.
  - intros [= <- <-]. eexists. split; [cbn; by rewrite Hw0, <- app_assoc|].
    right. exists setup, []. split; [done|]. split; [done|]. by intros.
  - intros [= <- <-]. eexists. split; [cbn; by rewrite Hw0, <- app_assoc|].
    right. exists setup, []. split; [done|]. split; [done|]. by intros.
  - intros [= <- <-]. eexists. split; [cbn; by rewrite Hw0, <- app_assoc|].
    right. exists setup, []. split; [done|]. split; [done|]. by intros.
Qed.

Lemma first_get_file_unique (s1 r1 s2 r2 : list event) a b :
  Forall is_setup s1 → Forall is_setup s2 →
  s1 ++ Invoke (GetFile a b) :: r1 = s2 ++ Invoke (GetFile a b) :: r2 →
  s1 = s2 ∧ r1 = r2.
Proof.
  intros H1. revert s2. induction H1 as [|ev s1 Hev _ IH]; intros s2 H2 Heq.
  - destruct s2 as [|ev2 s2]; simpl in Heq.
    + by injection Heq as ->.
    + injection Heq as <- _. apply Forall_cons in H2 as [[] _].
  - destruct s2 as [|ev2 s2]; simpl in Heq.
    + injection Heq as -> _. destruct Hev.
    + injection Heq as <- Heq. apply Forall_cons in H2 as [_ H2].
      destruct (IH _ H2 Heq) as [-> ->]. done.
Qed.

(** One iteration of the CDN loop on an answered chunk and its hashes: if
    every supplied hash matches the piece it delimits the chunk is yielded,
    if one does not the loop raises [CDNFileHashMismatch] without a yield. *)
Lemma cdn_loop_chunk fuel file_token key iv current off script w encrypted hashes :
  script (Co.calls w) = inr (CdnFile encrypted) →
  0 ≤ off / 16 < 2 ^ 32 →
  script (S (Co.calls w)) = inr (FileHashes hashes) →
  let decrypted :=
    ctr256_decrypt encrypted key (take (length iv - 4) iv ++ be32 (off / 16)) in
  let asked :=
    [Invoke (GetCdnFile file_token off chunk_size);
     Invoke (GetCdnFileHashes file_token off)] in
  ((∀ (i : nat) h, hashes !! i = Some h →
      fh_hash h = sha256 (py_slice decrypted (fh_limit h * Z.of_nat i)
                                             (fh_limit h * (Z.of_nat i + 1)))) →
   ∃ r w' rest,
     cdn_loop (S fuel) file_token key iv current off script w = (r, w') ∧
     Co.trace w' = Co.trace w ++ asked ++ Yield decrypted :: rest) ∧
  ((∃ (i : nat) h, hashes !! i = Some h ∧
      fh_hash h ≠ sha256 (py_slice decrypted (fh_limit h * Z.of_nat i)
                                             (fh_limit h * (Z.of_nat i + 1)))) →
   cdn_loop (S fuel) file_token key iv current off script w =
     (inl CDNFileHashMismatch,
      {| Co.calls := S (S (Co.calls w)); Co.trace := Co.trace w ++ asked |})).
Proof.
  intros Hans Hv Hans2 decrypted asked.
  cbn [Download.cdn_loop]. rewrite run_bind, run_call, Hans. cbn [get_bytes].
  rewrite run_bind, run_ret, run_bind. unfold cdn_iv. rewrite decide_True by done.
  rewrite run_ret. cbn zeta. rewrite run_bind, run_call. cbn [Co.calls Co.trace].
  rewrite Hans2, run_bind. cbn [get_hashes]. rewrite run_ret, run_bind.
  fold decrypted.
  match goal with |- context [check_hashes sha256 decrypted 0 hashes script ?w1] =>
    destruct (check_hashes_run decrypted 0 hashes script w1)
      as [[-> Hall]|[-> (j & h & Hj & Hbad)]] end.
  - split.
    2:{ intros (i & h & Hi & Hbad). specialize (Hall i h Hi).
        by rewrite !Z.add_0_l in Hall. }
    intros _. rewrite run_bind, run_yield. cbn [Co.calls Co.trace].
    destruct (consumer _) as [thrown|].
    { eexists _, _, []. split; [done|]. cbn [Co.trace]. by rewrite <- !app_assoc. }
    rewrite run_bind.
    match goal with |- context [report _ _ _ script ?w2] =>
      destruct (report file_size progress (off + chunk_size) script w2)
        as [rr w3] eqn:Hrep end.
    destruct (report_silent _ _ _ _ _ Hrep) as (trr & _ & Hw3).
    cbn [Co.trace] in Hw3.
    destruct rr as [e|[]].
    { eexists _, _, trr. split; [done|]. rewrite Hw3. by rewrite <- !app_assoc. }
    destruct (decide (_ ∨ _)).
    { eexists _, _, trr. split; [done|]. rewrite Hw3. by rewrite <- !app_assoc. }
    match goal with |- context [cdn_loop fuel ?a ?b ?c ?d ?e script w3] =>
      destruct (cdn_loop fuel a b c d e script w3) as [rl wl] eqn:Hloop end.
    destruct (cdn_loop_yields _ _ _ _ _ _ _ _ _ _ Hloop) as (trl & Hwl & _).
    eexists _, _, (trr ++ trl). split; [done|]. rewrite Hwl, Hw3.
    by rewrite <- !app_assoc.
  - split.
    { intros Hall. destruct Hbad. specialize (Hall j h Hj).
      by rewrite !Z.add_0_l. }
    intros _. by rewrite <- app_assoc.
Qed.

(** C7 (amended): when the first [GetFile] of a download is answered with a
    CDN redirect, every chunk the generator yields is the CTR decryption,
    under the encryption key and the IV of that redirect (the IV's last four
    bytes carrying the block counter of the chunk's offset), of a chunk the
    CDN answered, and every piece of it that a server-supplied hash delimits
    ([decrypted[h.limit * i : h.limit * (i + 1)]] for the [i]-th hash [h])
    has been found to have that SHA-256 hash before the yield; a piece for
    which the server supplied no hash is not verified. In an iteration of
    the CDN loop the chunk is yielded when every supplied hash matches; when
    one does not, the loop raises [CDNFileHashMismatch] and the chunk is not
    yielded. *)
Theorem get_file_cdn_chunks_verified fuel has_session same_dc offset script w r w' :
  get_file fuel has_session same_dc offset script w = (r, w') →
  ∃ tr, Co.trace w' = Co.trace w ++ tr ∧
    (∀ setup rest dc file_token key iv,
       tr = setup ++ Invoke (GetFile (Z.abs offset * chunk_size) chunk_size) :: rest →
       Forall is_setup setup →
       script (Co.calls w + length setup)%nat
         = inr (FileCdnRedirect dc file_token key iv) →
       all_yields (cdn_verified script key iv) (Z.abs offset * chunk_size) rest) ∧
    (∀ fuel0 file_token key iv current off script0 w0 encrypted hashes,
       script0 (Co.calls w0) = inr (CdnFile encrypted) →
       0 ≤ off / 16 < 2 ^ 32 →
       script0 (S (Co.calls w0)) = inr (FileHashes hashes) →
       let decrypted :=
         ctr256_decrypt encrypted key (take (length iv - 4) iv ++ be32 (off / 16)) in
       let asked :=
         [Invoke (GetCdnFile file_token off chunk_size);
          Invoke (GetCdnFileHashes file_token off)] in
       ((∀ (i : nat) h, hashes !! i = Some h →
           fh_hash h = sha256 (py_slice decrypted (fh_limit h * Z.of_nat i)
                                                  (fh_limit h * (Z.of_nat i + 1)))) →
        ∃ r0 w0' rest,
          cdn_loop (S fuel0) file_token key iv current off script0 w0 = (r0, w0') ∧
          Co.trace w0' = Co.trace w0 ++ asked ++ Yield decrypted :: rest) ∧
       ((∃ (i : nat) h, hashes !! i = Some h ∧
           fh_hash h ≠ sha256 (py_slice decrypted (fh_limit h * Z.of_nat i)
                                                  (fh_limit h * (Z.of_nat i + 1)))) →
        cdn_loop (S fuel0) file_token key iv current off script0 w0 =
          (inl CDNFileHashMismatch,
           {| Co.calls := S (S (Co.calls w0)); Co.trace := Co.trace w0 ++ asked |}))).
Proof.
  rewrite get_file_outcome.
  destruct (get_file_body _ _ _ _ script w) as [rb w1] eqn:Hbody.
  destruct (get_file_body_trace _ _ _ _ _ _ _ _ Hbody) as (trb & Hw1 & Hshape).
  intros Hrun.
  assert (∃ tail, Co.trace w' = Co.trace w ++ trb ++ tail ∧
                  (tail = [] ∨ ∃ e, tail = [LogException e])) as (tail & Hw' & Htail).
  { destruct rb as [e|v].
    - destruct (is_Exception e); [case_bool_decide|]; injection Hrun as <- <-.
      + exists []. rewrite app_nil_r. auto.
      + exists [LogException e]. cbn. rewrite Hw1, <- app_assoc. eauto.
      + exists []. rewrite app_nil_r. auto.
    - injection Hrun as <- <-. exists []. rewrite app_nil_r. auto. }
  exists (trb ++ tail). split; [done|]. split.
  - intros setup rest dc tok key iv Heq Hset Hred.
    assert (Forall silent tail) as Hsil.
    { destruct Htail as [->|[e ->]]; by repeat constructor. }
    destruct Hshape as [Hall|(setup0 & rest0 & -> & Hset0 & Hyields)].
    + exfalso.
      assert (Invoke (GetFile (Z.abs offset * chunk_size) chunk_size) ∈ trb ++ tail) as Hin.
      { rewrite Heq. apply elem_of_app. right. by left. }
      apply elem_of_app in Hin as [Hin|Hin].
      * rewrite Forall_forall in Hall. by apply Hall in Hin.
      * destruct Htail as [->|[e ->]].
        -- by apply elem_of_nil in Hin.
        -- by apply list_elem_of_singleton in Hin.
    + rewrite <- app_assoc in Heq. cbn [app] in Heq.
      destruct (first_get_file_unique _ _ _ _ _ _ Hset0 Hset Heq) as [<- <-].
      apply all_yields_app_silent; [|done]. by eapply Hyields.
  - intros fuel0 tok key iv current off script0 w0 enc hashes H1 H2 H3.
    by apply cdn_loop_chunk.
Qed.
End DownloadFacts.

Section DownloadSignals.
Import Download.
Context (ctr256_decrypt : bytes → bytes → bytes → bytes) (sha256 : bytes → bytes).
Context (file_size : Z) (progress : bool).
Implicit Types (script : nat → exn + response) (w : Co.world event).

Lemma yielded_log (tr : list event) e :
  yielded (tr ++ [LogException e]) = yielded tr.
Proof. unfold yielded. rewrite omap_app. simpl. by rewrite app_nil_r. Qed.

(** C10 (amended): the exception with which the body of the [try] of
    [get_file] ends leaves the generator if it is [StopTransmission],
    [FloodWait] or [FloodPremiumWait] or does not derive from [Exception]
    (a cancellation, the [GeneratorExit] of a closed generator,
    [KeyboardInterrupt], [SystemExit]); every other one is logged and ends
    the chunk stream normally. When the run is the one [handle_download]
    drains and no write fails, [handle_download] returns the file with the
    chunks delivered so far after a logged error, raises again a
    cancellation and the flood waits, and removes the file and returns
    [None] for every other exception that leaves the generator. *)
Theorem get_file_propagates_only_transmission_signals
    total consumer fuel has_session same_dc offset script w r w' :
  get_file ctr256_decrypt sha256 file_size progress total consumer
    fuel has_session same_dc offset script w = (r, w') →
  (∀ e, r = inl e →
     e = StopTransmission ∨ e = FloodWait ∨ e = FloodPremiumWait ∨
     is_Exception e = false) ∧
  (∀ e w1,
     get_file_body ctr256_decrypt sha256 file_size progress total consumer
       fuel has_session same_dc (Z.abs offset * chunk_size) script w = (inl e, w1) →
     (is_Exception e = true →
      ¬ (e = StopTransmission ∨ e = FloodWait ∨ e = FloodPremiumWait) →
      r = inr (Some tt) ∧ Co.calls w' = Co.calls w1 ∧
      Co.trace w' = Co.trace w1 ++ [LogException e]) ∧
     (e = StopTransmission ∨ e = FloodWait ∨ e = FloodPremiumWait ∨
      is_Exception e = false →
      r = inl e ∧ w' = w1)) ∧
  (∀ v w1,
     get_file_body ctr256_decrypt sha256 file_size progress total consumer
       fuel has_session same_dc (Z.abs offset * chunk_size) script w = (inr v, w1) →
     r = inr v ∧ w' = w1) ∧
  (∀ write,
     consumer = closing write → total = total_of 0 → offset = 0 → w = Co.start →
     failed_write write (length (yielded (Co.trace w'))) = None →
     (∀ e w1,
        get_file_body ctr256_decrypt sha256 file_size progress total consumer
          fuel has_session same_dc (Z.abs offset * chunk_size) script w = (inl e, w1) →
        is_Exception e = true →
        ¬ (e = StopTransmission ∨ e = FloodWait ∨ e = FloodPremiumWait) →
        handle_download ctr256_decrypt sha256 file_size progress write
          fuel has_session same_dc script
          = Finalized (concat (yielded (Co.trace w1)))) ∧
     (∀ e, r = inl e →
        handle_download ctr256_decrypt sha256 file_size progress write
          fuel has_session same_dc script
          = if bool_decide (e = CancelledError ∨ e = FloodWait ∨ e = FloodPremiumWait)
            then Reraised e else Discarded)).
Proof.
  rewrite get_file_outcome. intros Hrun.
  assert (∀ e w1,
     get_file_body ctr256_decrypt sha256 file_size progress total consumer
       fuel has_session same_dc (Z.abs offset * chunk_size) script w = (inl e, w1) →
     (is_Exception e = true →
      ¬ (e = StopTransmission ∨ e = FloodWait ∨ e = FloodPremiumWait) →
      r = inr (Some tt) ∧ Co.calls w' = Co.calls w1 ∧
      Co.trace w' = Co.trace w1 ++ [LogException e]) ∧
     (e = StopTransmission ∨ e = FloodWait ∨ e = FloodPremiumWait ∨
      is_Exception e = false →
      r = inl e ∧ w' = w1)) as Hbody.
  { intros e w1 Hb. rewrite Hb in Hrun. split.
    - intros Hexc Hsig. rewrite Hexc in Hrun.
      rewrite bool_decide_eq_false_2 in Hrun by done. by injection Hrun as <- <-.
    - intros Hsig. destruct (is_Exception e) eqn:Hexc.
      + rewrite bool_decide_eq_true_2 in Hrun
          by (destruct Hsig as [?|[?|[?|?]]]; [tauto|tauto|tauto|congruence]).
        by injection Hrun as <- <-.
      + by injection Hrun as <- <-. }
  split; [|split; [done|split]].
  - intros e ->.
    destruct (get_file_body _ _ _ _ _ _ _ _ _ _ script w) as [[e1|v] w1]; [|done].
    destruct (is_Exception e1) eqn:Hexc.
    + case_bool_decide as Hsig; [|done]. injection Hrun as <- <-. tauto.
    + injection Hrun as <- <-. tauto.
  - intros v w1 Hb. rewrite Hb in Hrun. by injection Hrun as <- <-.
  - intros write -> -> -> -> Hwrite.
    assert (handle_download ctr256_decrypt sha256 file_size progress write
              fuel has_session same_dc script = finish write (r, w')) as ->.
    { unfold handle_download. rewrite get_file_outcome. by rewrite Hrun. }
    unfold finish. cbn [fst snd]. rewrite Hwrite. split.
    + intros e w1 Hb Hexc Hsig. destruct (Hbody e w1 Hb) as [Hlog _].
      destruct (Hlog Hexc Hsig) as (-> & _ & ->). by rewrite yielded_log.
    + intros e ->. unfold settle.
      destruct e; try done; by rewrite bool_decide_eq_true_2 by tauto.
Qed.
End DownloadSignals.

(** C10 as stated fails: a cancellation raised while the first chunk is
    requested leaves [get_file], and it is none of the three exceptions;
    [handle_download] raises it again. *)
Lemma get_file_propagates_cancellation :
  let script : nat → exn + Download.response := λ _, inl CancelledError in
  let run := Download.get_file (λ data _ _, data) (λ data, data) 0 false
               (Download.total_of 0) (Download.closing (λ _, None))
               1 true true 0 script Co.start in
  run.1 = inl CancelledError ∧
  CancelledError ≠ StopTransmission ∧ CancelledError ≠ FloodWait ∧
  CancelledError ≠ FloodPremiumWait ∧
  Download.handle_download (λ data _ _, data) (λ data, data) 0 false (λ _, None)
    1 true true script = Download.Reraised CancelledError.
Proof. repeat split; done. Qed.

(** C10 (amended) on the download [handle_download] drains, whose progress
    callback fails with an ordinary error after the first chunk: the stream
    ends there and the file is finalized with that chunk. *)
Lemma get_file_propagates_only_transmission_signals_witness :
  let chunk := repeat Byte.x00 3 in
  let script : nat → exn + Download.response :=
    λ n, match n with O => inr (Download.File chunk) | _ => inl (OtherError 0) end in
  let write : nat → option exn := λ _, None in
  let total := Download.total_of 0 in
  let consumer := Download.closing write in
  let body := Download.get_file_body (λ data _ _, data) (λ data, data) 0 true
                total consumer 1 true true (Z.abs 0 * Download.chunk_size)
                script Co.start in
  let run := Download.get_file (λ data _ _, data) (λ data, data) 0 true
               total consumer 1 true true 0 script Co.start in
  (∀ e, run.1 = inl e →
     e = StopTransmission ∨ e = FloodWait ∨ e = FloodPremiumWait ∨
     is_Exception e = false) ∧
  (∀ e w1,
     body = (inl e, w1) →
     (is_Exception e = true →
      ¬ (e = StopTransmission ∨ e = FloodWait ∨ e = FloodPremiumWait) →
      run.1 = inr (Some tt) ∧ Co.calls run.2 = Co.calls w1 ∧
      Co.trace run.2 = Co.trace w1 ++ [Download.LogException e]) ∧
     (e = StopTransmission ∨ e = FloodWait ∨ e = FloodPremiumWait ∨
      is_Exception e = false →
      run.1 = inl e ∧ run.2 = w1)) ∧
  (∀ v w1, body = (inr v, w1) → run.1 = inr v ∧ run.2 = w1) ∧
  (∀ write0,
     consumer = Download.closing write0 → total = Download.total_of 0 →
     0 = 0 → Co.start (Ev := Download.event) = Co.start →
     Download.failed_write write0 (length (Download.yielded (Co.trace run.2))) = None →
     (∀ e w1,
        body = (inl e, w1) →
        is_Exception e = true →
        ¬ (e = StopTransmission ∨ e = FloodWait ∨ e = FloodPremiumWait) →
        Download.handle_download (λ data _ _, data) (λ data, data) 0 true write0
          1 true true script
          = Download.Finalized (concat (Download.yielded (Co.trace w1)))) ∧
     (∀ e, run.1 = inl e →
        Download.handle_download (λ data _ _, data) (λ data, data) 0 true write0
          1 true true script
          = if bool_decide (e = CancelledError ∨ e = FloodWait ∨ e = FloodPremiumWait)
            then Download.Reraised e else Download.Discarded)).
Proof.
  intros chunk script write total consumer body run.
  apply (get_file_propagates_only_transmission_signals
           (λ data _ _, data) (λ data, data) 0 true total consumer
           1 true true 0 script Co.start run.1 run.2).
  reflexivity.
Defined.

(** The run of that witness: one chunk delivered, the error logged, the
    file finalized with the chunk. *)
Example get_file_truncated_download :
  let chunk := repeat Byte.x00 3 in
  let script : nat → exn + Download.response :=
    λ n, match n with O => inr (Download.File chunk) | _ => inl (OtherError 0) end in
  let run := Download.get_file (λ data _ _, data) (λ data, data) 0 true
               (Download.total_of 0) (Download.closing (λ _, None))
               1 true true 0 script Co.start in
  run.1 = inr (Some tt) ∧
  Download.yielded (Co.trace run.2) = [chunk] ∧
  last (Co.trace run.2) = Some (Download.LogException (OtherError 0)) ∧
  Download.handle_download (λ data _ _, data) (λ data, data) 0 true (λ _, None)
    1 true true script = Download.Finalized chunk.
Proof. repeat split; reflexivity. Qed.

(** C7 as stated fails: the pieces of a chunk are verified only as far as
    the server supplies hashes. Here the server supplies none, and the chunk
    is yielded. *)
Lemma get_file_yields_unverified_cdn_chunk :
  let key := [Byte.x0a] in
  let iv := repeat Byte.x00 16 in
  let data := [Byte.x01; Byte.x02] in
  let script : nat → exn + Download.response :=
    λ n, match n with
         | 0%nat => inr (Download.FileCdnRedirect 203 [Byte.x07] key iv)
         | 3%nat => inr (Download.CdnFile data)
         | 4%nat => inr (Download.FileHashes [])
         | _ => inr Download.Done
         end in
  let run := Download.get_file (λ d _ _, d) (λ d, d) 0 false 1 (λ _, None)
               5 true true 0 script Co.start in
  run.1 = inr (Some tt) ∧
  Download.yielded (Co.trace run.2) = [data] ∧
  ∀ n hashes, script n = inr (Download.FileHashes hashes) → hashes = [].
Proof.
  intros key iv data script run. split; [reflexivity|]. split; [reflexivity|].
  intros n hashes. do 5 (destruct n as [|n]; [by intros [=]|]). by intros [=].
Qed.

(** C7 (amended) on a CDN download of one two-byte chunk whose hash matches
    (with the identity standing for the cipher and for the hash function). *)
Lemma get_file_cdn_chunks_verified_witness :
  let key := [Byte.x0a] in
  let iv := repeat Byte.x00 16 in
  let data := [Byte.x01; Byte.x02] in
  let script : nat → exn + Download.response :=
    λ n, match n with
         | 0%nat => inr (Download.FileCdnRedirect 203 [Byte.x07] key iv)
         | 3%nat => inr (Download.CdnFile data)
         | 4%nat => inr (Download.FileHashes
                      [{| Download.fh_offset := 0; Download.fh_limit := 2;
                          Download.fh_hash := data |}])
         | _ => inr Download.Done
         end in
  let cdn_loop := Download.cdn_loop (λ d _ _, d) (λ d, d) 0 false 1 (λ _, None) in
  let run := Download.get_file (λ d _ _, d) (λ d, d) 0 false 1 (λ _, None)
               5 true true 0 script Co.start in
  ∃ tr, Co.trace run.2 = Co.trace Co.start ++ tr ∧
    (∀ setup rest dc file_token key iv,
       tr = setup ++ Download.Invoke
              (Download.GetFile (Z.abs 0 * Download.chunk_size) Download.chunk_size)
              :: rest →
       Forall Download.is_setup setup →
       script (Co.calls (Co.start (Ev := Download.event)) + length setup)%nat
         = inr (Download.FileCdnRedirect dc file_token key iv) →
       Download.all_yields
         (Download.cdn_verified (λ d _ _, d) (λ d, d) script key iv)
         (Z.abs 0 * Download.chunk_size) rest) ∧
    (∀ fuel0 file_token key iv current off script0 w0 encrypted hashes,
       script0 (Co.calls w0) = inr (Download.CdnFile encrypted) →
       0 ≤ off / 16 < 2 ^ 32 →
       script0 (S (Co.calls w0)) = inr (Download.FileHashes hashes) →
       let asked :=
         [Download.Invoke (Download.GetCdnFile file_token off Download.chunk_size);
          Download.Invoke (Download.GetCdnFileHashes file_token off)] in
       ((∀ (i : nat) h, hashes !! i = Some h →
           Download.fh_hash h =
             Download.py_slice encrypted (Download.fh_limit h * Z.of_nat i)
                                         (Download.fh_limit h * (Z.of_nat i + 1))) →
        ∃ r0 w0' rest,
          cdn_loop (S fuel0) file_token key iv current off script0 w0 = (r0, w0') ∧
          Co.trace w0' = Co.trace w0 ++ asked ++ Download.Yield encrypted :: rest) ∧
       ((∃ (i : nat) h, hashes !! i = Some h ∧
           Download.fh_hash h ≠
             Download.py_slice encrypted (Download.fh_limit h * Z.of_nat i)
                                         (Download.fh_limit h * (Z.of_nat i + 1))) →
        cdn_loop (S fuel0) file_token key iv current off script0 w0 =
          (inl CDNFileHashMismatch,
           {| Co.calls := S (S (Co.calls w0)); Co.trace := Co.trace w0 ++ asked |}))).
Proof.
  intros key iv data script cdn_loop run.
  apply (get_file_cdn_chunks_verified (λ d _ _, d) (λ d, d) 0 false 1 (λ _, None)
           5 true true 0 script Co.start run.1 run.2).
  reflexivity.
Defined.

(** That download delivers its chunk; with a wrong hash from the server
    nothing is delivered and the mismatch is logged. *)
Example get_file_cdn_download :
  let key := [Byte.x0a] in
  let iv := repeat Byte.x00 16 in
  let data := [Byte.x01; Byte.x02] in
  let script (hash : list Byte.byte) : nat → exn + Download.response :=
    λ n, match n with
         | 0%nat => inr (Download.FileCdnRedirect 203 [Byte.x07] key iv)
         | 3%nat => inr (Download.CdnFile data)
         | 4%nat => inr (Download.FileHashes
                      [{| Download.fh_offset := 0; Download.fh_limit := 2;
                          Download.fh_hash := hash |}])
         | _ => inr Download.Done
         end in
  let run hash := Download.get_file (λ d _ _, d) (λ d, d) 0 false 1 (λ _, None)
                    5 true true 0 (script hash) Co.start in
  Download.yielded (Co.trace (run data).2) = [data] ∧
  (run [Byte.x09]).1 = inr (Some tt) ∧
  Download.yielded (Co.trace (run [Byte.x09]).2) = [] ∧
  last (Co.trace (run [Byte.x09]).2) = Some (Download.LogException CDNFileHashMismatch).
Proof. repeat split; reflexivity. Qed.

(** ** Registry edits and dispatch passes: proofs *)

Section TaskFacts.
Import Dispatcher Tasks.
Implicit Types (s : state) (a : action).










End TaskFacts.


(** A registration issued while the only worker is inside a pass: the
    registry task can neither take the lock nor edit the table before the
    worker leaves; afterwards it edits, and the worker's next pass iterates
    over the table with the new handler. *)
Example registration_deferred_until_pass_ends :
  let h := {| Dispatcher.h_name := 1; Dispatcher.h_class := Dispatcher.RawUpdate;
              Dispatcher.h_check := inr true; Dispatcher.h_callback := inr tt |} in
  let during := Tasks.run (Tasks.init 1 []) [Tasks.WEnter 0; Tasks.Spawn (Tasks.Add h 0)] in
  let after := Tasks.run (Tasks.init 1 [])
                 [Tasks.WEnter 0; Tasks.Spawn (Tasks.Add h 0); Tasks.WLeave 0;
                  Tasks.MAcquire 0; Tasks.MCommit 0; Tasks.WEnter 0] in
  (during ≫= λ s, Tasks.step s (Tasks.MAcquire 0)) = None ∧
  (during ≫= λ s, Tasks.step s (Tasks.MCommit 0)) = None ∧
  (Tasks.table <$> during) = Some [] ∧
  (Tasks.workers <$> after) = Some [Tasks.InPass [(0, [h])] 0].
Proof. repeat split; reflexivity. Qed.

(** ** Bounded cache: lookups after insertions *)

Section CacheLookups.
Context {K V : Type} `{EqDecision K}.
Implicit Types (d : list (K * V)) (c : Cache.t K V).

Lemma del_present_length_exact k d :
  NoDup d.*1 → k ∈ d.*1 → S (length (PyDict.del k d)) = length d.
Proof.
  unfold PyDict.del. induction d as [|[k' v'] d IH]; [by intros _ ?%elem_of_nil|].
  rewrite fmap_cons. intros [Hk' Hnd]%NoDup_cons Hin. simpl in *.
  destruct (decide (k' = k)) as [->|Hne].
  - rewrite filter_cons_False by (simpl; tauto).
    fold (PyDict.del k d). by rewrite del_absent.
  - rewrite filter_cons_True by done. simpl.
    apply elem_of_cons in Hin as [->|Hin]; [done|]. by rewrite IH.
Qed.

Lemma get_del_ne k k' d : k' ≠ k → PyDict.get k' (PyDict.del k d) = PyDict.get k' d.
Proof.
  intros Hne. unfold PyDict.del. induction d as [|[k0 v0] d IH]; [done|].
  destruct (decide (k0 = k)) as [->|Hne0].
  - rewrite filter_cons_False by (simpl; tauto). simpl.
    by rewrite decide_False by congruence.
  - rewrite filter_cons_True by done. simpl. by rewrite IH.
Qed.

Lemma get_app_new k v d : k ∉ d.*1 → PyDict.get k (d ++ [(k, v)]) = Some v.
Proof. intros Hk. rewrite get_snoc by done. by rewrite decide_True. Qed.

(** X1: on a cache of capacity at least 1, a value just stored is found
    again: [cache[k] = v] followed by [cache[k]] gives [v], also when the
    insertion had to evict. *)
Theorem cache_lookup_after_insert c k v :
  1 ≤ Cache.capacity c → cache_inv c →
  ∃ c', Cache.setitem c k v = Some c' ∧ Cache.getitem c' k = Some v.
Proof.
  intros HC [Hnd Hsz]. unfold Cache.size in Hsz.
  destruct (setitem_inserted c k v Hnd) as (Hset & Hnd2 & Hlen & _).
  unfold Cache.setitem. rewrite Hset. clear Hset.
  set (s1 := if PyDict.contains k (Cache.store c) then _ else _) in *.
  assert (k ∉ s1.*1) as Hk.
  { rewrite fmap_app in Hnd2. apply NoDup_app in Hnd2 as (_ & Hdisj & _).
    intros Hin. apply (Hdisj k Hin). simpl. by left. }
  pose proof (half_bounds (Cache.capacity c) ltac:(lia)) as Hh.
  assert (Cache.capacity c / 2 + 1 ≤ Cache.capacity c) as Hn.
  { pose proof (Z.div_lt_upper_bound (Cache.capacity c) 2 (Cache.capacity c)
                  ltac:(lia) ltac:(lia)). lia. }
  case_decide as Hover.
  - rewrite length_app in Hover, Hlen. simpl in Hover, Hlen.
    rewrite evict_drop by (done || rewrite length_app; simpl; lia). simpl.
    eexists. split; [done|]. unfold Cache.getitem. simpl.
    rewrite drop_app_le by lia. apply get_app_new.
    intros Hin. apply Hk. rewrite fmap_drop in Hin.
    by apply (subseteq_drop _ _ _ Hin).
  - eexists. split; [done|]. unfold Cache.getitem. simpl. by apply get_app_new.
Qed.

(** X2: storing under a key the cache already holds never evicts: the
    entry moves to the newest position with its new value, every other
    entry stays, and the number of entries is unchanged. *)
Theorem cache_update_keeps_all_entries c k v :
  cache_inv c → k ∈ (Cache.store c).*1 →
  ∃ c', Cache.setitem c k v = Some c' ∧
        Cache.store c' = PyDict.del k (Cache.store c) ++ [(k, v)] ∧
        Cache.size c' = Cache.size c ∧
        ∀ k', k' ≠ k → Cache.getitem c' k' = Cache.getitem c k'.
Proof.
  intros [Hnd Hsz] Hin. unfold Cache.size in *.
  destruct (setitem_inserted c k v Hnd) as (Hset & Hnd2 & _ & _).
  unfold Cache.setitem. rewrite Hset. clear Hset. revert Hnd2.
  unfold PyDict.contains. rewrite bool_decide_eq_true_2 by done. intros Hnd2.
  pose proof (del_present_length_exact k _ Hnd Hin) as Hlen.
  rewrite decide_False by (rewrite length_app; simpl; lia).
  eexists. split; [done|]. simpl. split; [done|]. split.
  - rewrite length_app. simpl. lia.
  - intros k' Hne. unfold Cache.getitem. simpl.
    rewrite get_snoc by apply del_not_in.
    rewrite decide_False by done. by apply get_del_ne.
Qed.

(** X3: a cache of capacity 0 stores nothing: every insertion evicts the
    entry it has just added, so the lookup that follows finds nothing. *)
Theorem cache_of_capacity_zero_stays_empty c k v :
  Cache.capacity c = 0 → cache_inv c →
  ∃ c', Cache.setitem c k v = Some c' ∧ Cache.store c' = [] ∧
        Cache.getitem c' k = None.
Proof.
  intros HC [Hnd Hsz]. unfold Cache.size in Hsz. rewrite HC in Hsz.
  destruct (Cache.store c) as [|e st] eqn:Hst; [|simpl in Hsz; lia].
  unfold Cache.setitem. rewrite Hst, HC. unfold PyDict.contains.
  rewrite bool_decide_eq_false_2 by apply not_elem_of_nil.
  rewrite set_absent by apply not_elem_of_nil. simpl app.
  rewrite decide_True by (simpl; lia).
  change (Z.to_nat (0 / 2 + 1)) with 1%nat.
  rewrite evict_drop; [|simpl; apply NoDup_singleton|simpl; lia].
  by eexists.
Qed.

(** X4: a cache created with a negative capacity never evicts: an
    insertion keeps every other entry and the stored value is found again. *)
Theorem cache_of_negative_capacity_never_evicts c k v :
  Cache.capacity c < 0 → NoDup (Cache.store c).*1 →
  ∃ c', Cache.setitem c k v = Some c' ∧
        Cache.getitem c' k = Some v ∧
        ∀ k', k' ≠ k → Cache.getitem c' k' = Cache.getitem c k'.
Proof.
  intros HC Hnd.
  destruct (setitem_inserted c k v Hnd) as (Hset & Hnd2 & _ & _).
  unfold Cache.setitem. rewrite Hset. clear Hset.
  set (s1 := if PyDict.contains k (Cache.store c) then _ else _) in *.
  assert (k ∉ s1.*1) as Hk.
  { rewrite fmap_app in Hnd2. apply NoDup_app in Hnd2 as (_ & Hdisj & _).
    intros Hin. apply (Hdisj k Hin). simpl. by left. }
  assert (∀ k', k' ≠ k → PyDict.get k' s1 = PyDict.get k' (Cache.store c)) as Hs1.
  { intros k' Hne. subst s1. destruct (PyDict.contains _ _); [|done].
    by apply get_del_ne. }
  rewrite decide_True by lia.
  assert (Z.to_nat (Cache.capacity c / 2 + 1) = O) as ->.
  { pose proof (Z.div_lt_upper_bound (Cache.capacity c) 2 0 ltac:(lia) ltac:(lia)). lia. }
  simpl. eexists. split; [done|]. unfold Cache.getitem. simpl. split.
  - by apply get_app_new.
  - intros k' Hne. rewrite get_snoc by done. rewrite decide_False by done. by apply Hs1.
Qed.
End CacheLookups.

Lemma cache_lookup_after_insert_witness :
  ∃ c', Cache.setitem (Cache.Build 2 [(1, 10); (2, 20)]) 3 30 = Some c' ∧
        Cache.getitem c' 3 = Some 30.
Proof.
  apply (cache_lookup_after_insert (Cache.Build 2 [(1, 10); (2, 20)]) 3 30).
  - simpl; lia.
  - split; [by_decide|]. unfold Cache.size; simpl; lia.
Defined.

Lemma cache_update_keeps_all_entries_witness :
  ∃ c', Cache.setitem (Cache.Build 2 [(1, 10); (2, 20)]) 1 11 = Some c' ∧
        Cache.store c' = PyDict.del 1 [(1, 10); (2, 20)] ++ [(1, 11)] ∧
        Cache.size c' = Cache.size (Cache.Build 2 [(1, 10); (2, 20)]) ∧
        ∀ k', k' ≠ 1 →
          Cache.getitem c' k' = Cache.getitem (Cache.Build 2 [(1, 10); (2, 20)]) k'.
Proof.
  apply (cache_update_keeps_all_entries (Cache.Build 2 [(1, 10); (2, 20)]) 1 11).
  - split; [by_decide|]. unfold Cache.size; simpl; lia.
  - by_decide.
Defined.

Lemma cache_of_capacity_zero_stays_empty_witness :
  ∃ c', Cache.setitem (Cache.init 0) 1 10 = Some c' ∧ Cache.store c' = [] ∧
        Cache.getitem c' 1 = (None : option Z).
Proof.
  apply (cache_of_capacity_zero_stays_empty (Cache.init 0) 1 10).
  - reflexivity.
  - split; [by_decide|]. unfold Cache.size; simpl; lia.
Defined.

Lemma cache_of_negative_capacity_never_evicts_witness :
  ∃ c', Cache.setitem (Cache.Build (-1) [(1, 10); (2, 20)]) 3 30 = Some c' ∧
        Cache.getitem c' 3 = Some 30 ∧
        ∀ k', k' ≠ 3 →
          Cache.getitem c' k' = Cache.getitem (Cache.Build (-1) [(1, 10); (2, 20)]) k'.
Proof.
  apply (cache_of_negative_capacity_never_evicts
           (Cache.Build (-1) [(1, 10); (2, 20)]) 3 30).
  - simpl; lia.
  - by_decide.
Defined.

(** ** Dispatch pass and registry: further properties *)

Section DispatchMore.
Import Dispatcher.
Implicit Types (gs : groups) (h : handler).

Lemma checked_app evs1 evs2 :
  checked_handlers (evs1 ++ evs2) = checked_handlers evs1 ++ checked_handlers evs2.
Proof. apply omap_app. Qed.

Lemma called_app evs1 evs2 :
  called_handlers (evs1 ++ evs2) = called_handlers evs1 ++ called_handlers evs2.
Proof. apply omap_app. Qed.

Lemma run_group_order ht (g : list handler) evs f :
  run_group ht g = (evs, f) →
  checked_handlers evs `sublist_of` (h_name <$> g) ∧
  called_handlers evs `sublist_of` checked_handlers evs ∧
  (∀ e, f = Crash e → is_Exception e = false).
Proof.
  revert evs f. induction g as [|h g IH]; intros evs f; cbn [run_group].
  { intros [= <- <-]. repeat split; [constructor..|done]. }
  destruct (run_group ht g) as [evs' f'] eqn:Hrest.
  destruct (IH _ _ eq_refl) as (IHc & IHk & IHe).
  rewrite fmap_cons.
  destruct (eligible ht h).
  2:{ intros [= <- <-]. split; [by apply sublist_cons|done]. }
  destruct (h_check h) as [e|[|]].
  - destruct (is_Exception e) eqn:He; unfold prepend; intros [= <- <-]; simpl.
    + split; [by apply sublist_skip|]. split; [by apply sublist_cons|done].
    + split; [apply sublist_skip, sublist_nil_l|]. split; [apply sublist_nil_l|].
      by intros ? [= <-].
  - destruct (h_callback h) as [e|[]].
    + assert (∀ r : list event * flow,
        (r = ([Checked (h_name h); Called (h_name h)], Stop) ∨
         r = prepend [Checked (h_name h); Called (h_name h)] (evs', f') ∨
         r = ([Checked (h_name h); Called (h_name h); Logged e], Next) ∨
         (r = ([Checked (h_name h); Called (h_name h)], Crash e) ∧
          is_Exception e = false)) →
        r = (evs, f) →
        checked_handlers evs `sublist_of` h_name h :: (h_name <$> g) ∧
        called_handlers evs `sublist_of` checked_handlers evs ∧
        (∀ e0, f = Crash e0 → is_Exception e0 = false)) as Hall.
      { intros r [->|[->|[->|[-> He]]]]; unfold prepend; intros [= <- <-]; simpl.
        - split; [apply sublist_skip, sublist_nil_l|]. split; [by repeat constructor|done].
        - split; [by apply sublist_skip|]. split; [by apply sublist_skip|done].
        - split; [apply sublist_skip, sublist_nil_l|]. split; [by repeat constructor|done].
        - split; [apply sublist_skip, sublist_nil_l|]. split; [by repeat constructor|].
          by intros ? [= <-]. }
      destruct e; try (apply Hall; simpl; by auto).
    + intros [= <- <-]. simpl.
      split; [apply sublist_skip, sublist_nil_l|]. split; [by repeat constructor|done].
  - unfold prepend. intros [= <- <-]. simpl.
    split; [by apply sublist_skip|]. split; [by apply sublist_cons|done].
Qed.

Lemma run_groups_order ht gs evs f :
  run_groups ht gs = (evs, f) →
  checked_handlers evs `sublist_of` (h_name <$> registry_handlers gs) ∧
  called_handlers evs `sublist_of` checked_handlers evs ∧
  (∀ e, f = Crash e → is_Exception e = false).
Proof.
  unfold registry_handlers.
  revert evs f. induction gs as [|[k g] gs IH]; intros evs f; cbn [run_groups].
  { intros [= <- <-]. repeat split; [constructor..|done]. }
  destruct (run_group ht g) as [evs1 f1] eqn:Hg.
  destruct (run_group_order _ _ _ _ Hg) as (Hc1 & Hk1 & He1).
  rewrite fmap_cons. cbn [snd concat]. rewrite fmap_app.
  destruct (run_groups ht gs) as [evs2 f2] eqn:Hgs.
  destruct (IH _ _ eq_refl) as (Hc2 & Hk2 & He2).
  destruct f1; unfold prepend; intros [= <- <-]; simpl.
  - rewrite checked_app, called_app.
    split; [by apply sublist_app|]. split; [by apply sublist_app|done].
  - split; [by apply sublist_inserts_r|done].
  - split; [by apply sublist_inserts_r|]. split; [done|].
    intros ? [= <-]. by apply He1.
Qed.

(** X5: in a dispatch pass the handlers are checked in registry order
    (group after group, registration order within a group), each
    registration at most once, and only handlers that were checked have
    their callback invoked, in that same order. *)
Theorem dispatch_checks_in_registry_order ht gs evs f :
  run_groups ht gs = (evs, f) →
  checked_handlers evs `sublist_of` (h_name <$> registry_handlers gs) ∧
  called_handlers evs `sublist_of` checked_handlers evs.
Proof.
  intros Hrun. destruct (run_groups_order _ _ _ _ Hrun) as (? & ? & _). done.
Qed.

(** X6: no exception deriving from [Exception] ends a worker: whatever the
    parser, the checks and the callbacks raise, [handler_worker] goes on
    with the next packet, unless the exception is outside the [Exception]
    hierarchy (a cancellation). *)
Theorem handler_worker_survives_handler_errors parse gs evs e :
  dispatch parse gs = (evs, Some e) → is_Exception e = false.
Proof.
  unfold dispatch. destruct parse as [e0|ht].
  - destruct e0; simpl; try (by intros [= <- <-]); done.
  - destruct (run_groups ht gs) as [evs' f] eqn:Hrun.
    destruct (run_groups_order _ _ _ _ Hrun) as (_ & _ & He).
    destruct f; intros [= <- <-]. by apply He.
Qed.

Lemma list_remove_last h (l : list handler) :
  h_name h ∉ (h_name <$> l) → list_remove h (l ++ [h]) = Some l.
Proof.
  induction l as [|h' l IH]; simpl.
  - intros _. by rewrite decide_True.
  - rewrite not_elem_of_cons. intros [Hne Hl].
    rewrite decide_False by congruence. by rewrite IH.
Qed.

(** X7: removing a handler right after it was added gives every group its
    former handlers back (provided no handler of that name was in the group
    before); a group that the addition created stays in the table, empty. *)
Theorem remove_handler_undoes_add_handler gs h g :
  StronglySorted Z.lt gs.*1 →
  h_name h ∉ (h_name <$> default [] (PyDict.get g gs)) →
  ∃ gs', remove_handler (add_handler gs h g) h g = inr gs' ∧
         gs'.*1 = (add_handler gs h g).*1 ∧
         g ∈ gs'.*1 ∧
         ∀ g', PyDict.get g' gs' =
               if decide (g' = g) then Some (default [] (PyDict.get g gs))
               else PyDict.get g' gs.
Proof.
  intros Hsorted Hfresh.
  destruct (add_handler_spec gs h g Hsorted) as [Hsorted' Hget].
  assert (g ∈ (add_handler gs h g).*1) as Hin.
  { destruct (decide (g ∈ (add_handler gs h g).*1)) as [|Hnin]; [done|].
    apply get_None in Hnin. rewrite Hget, decide_True in Hnin by done. done. }
  unfold remove_handler. rewrite (Hget g), decide_True by done.
  rewrite list_remove_last by done.
  eexists. split; [done|]. split; [by apply set_present_keys|].
  split; [by rewrite set_present_keys|].
  intros g'. rewrite get_set_present by done.
  destruct (decide (g' = g)); [done|]. by rewrite Hget, decide_False.
Qed.

(** X8: [remove_handler] fails with [ValueError] exactly when the group
    does not exist or holds no handler of that name, and then the registry
    is what it was; when it succeeds, no group is added or dropped. *)
Theorem remove_handler_outcome gs h g :
  match remove_handler gs h g with
  | inl e =>
      e = ValueError ∧
      (g ∉ gs.*1 ∨ ∃ l, PyDict.get g gs = Some l ∧ h_name h ∉ (h_name <$> l))
  | inr gs' =>
      gs'.*1 = gs.*1 ∧
      ∃ l, PyDict.get g gs = Some l ∧ h_name h ∈ (h_name <$> l)
  end.
Proof.
  unfold remove_handler. destruct (PyDict.get g gs) as [l|] eqn:Hget.
  - assert (∀ l, match list_remove h l with
                 | Some _ => h_name h ∈ (h_name <$> l)
                 | None => h_name h ∉ (h_name <$> l)
                 end) as Hrem.
    { clear. induction l as [|h' l IH]; simpl; [apply not_elem_of_nil|].
      destruct (decide (h_name h' = h_name h)) as [Heq|Hne].
      - rewrite Heq. by left.
      - destruct (list_remove h l); simpl.
        + by right.
        + rewrite not_elem_of_cons. split; [congruence|done]. }
    specialize (Hrem l). destruct (list_remove h l) as [l'|].
    + split; [|by exists l]. apply set_present_keys.
      destruct (decide (g ∈ gs.*1)) as [|Hnin]; [done|].
      apply get_None in Hnin. congruence.
    + split; [done|]. right. by exists l.
  - split; [done|]. left. by apply get_None.
Qed.
End DispatchMore.

Lemma dispatch_checks_in_registry_order_witness :
  let h1 := {| Dispatcher.h_name := 1; Dispatcher.h_class := Dispatcher.Typed 0;
               Dispatcher.h_check := inr false; Dispatcher.h_callback := inr tt |} in
  let h2 := {| Dispatcher.h_name := 2; Dispatcher.h_class := Dispatcher.RawUpdate;
               Dispatcher.h_check := inr true; Dispatcher.h_callback := inr tt |} in
  let gs := Dispatcher.registered [(h2, 5); (h1, -1)] in
  checked_handlers (Dispatcher.run_groups (Some 0%nat) gs).1
    `sublist_of` (Dispatcher.h_name <$> registry_handlers gs) ∧
  called_handlers (Dispatcher.run_groups (Some 0%nat) gs).1
    `sublist_of` checked_handlers (Dispatcher.run_groups (Some 0%nat) gs).1.
Proof.
  intros h1 h2 gs.
  apply (dispatch_checks_in_registry_order (Some 0%nat) gs
           (Dispatcher.run_groups (Some 0%nat) gs).1
           (Dispatcher.run_groups (Some 0%nat) gs).2).
  reflexivity.
Defined.

Lemma handler_worker_survives_handler_errors_witness :
  let h := {| Dispatcher.h_name := 1; Dispatcher.h_class := Dispatcher.RawUpdate;
              Dispatcher.h_check := inl CancelledError;
              Dispatcher.h_callback := inr tt |} in
  is_Exception CancelledError = false.
Proof.
  intros h.
  apply (handler_worker_survives_handler_errors (inr None) [(0, [h])]
           [Dispatcher.Checked 1] CancelledError).
  reflexivity.
Defined.

Lemma remove_handler_undoes_add_handler_witness :
  let h := {| Dispatcher.h_name := 1; Dispatcher.h_class := Dispatcher.RawUpdate;
              Dispatcher.h_check := inr true; Dispatcher.h_callback := inr tt |} in
  ∃ gs', Dispatcher.remove_handler (Dispatcher.add_handler [] h 3) h 3 = inr gs' ∧
         gs'.*1 = (Dispatcher.add_handler [] h 3).*1 ∧
         3 ∈ gs'.*1 ∧
         ∀ g', PyDict.get g' gs' =
               if decide (g' = 3) then Some (default [] (PyDict.get 3 []))
               else PyDict.get g' [].
Proof.
  intros h. apply (remove_handler_undoes_add_handler [] h 3).
  - constructor.
  - simpl. apply not_elem_of_nil.
Defined.

(** ** Update handling: further properties *)

Section UpdateMore.
Import Raw Client.
Context (get_channel_id : Z → Z) (lower : string → string).
Implicit Types (script : nat → exn + difference) (w : Co.world event).

Lemma handle_one_plain skip date seq u users chats script w :
  ∃ tr, handle_one get_channel_id skip false date seq u users chats script w =
          (inr (users, chats),
           {| Co.calls := Co.calls w; Co.trace := Co.trace w ++ tr |}) ∧
        queued tr = [(u, users, chats)].
Proof.
  exists (flush_events get_channel_id skip date seq u ++
          (match upd_kind u with UpdateChannelTooLong => [LogInfo] | _ => [] end) ++
          [QueuePut (u, users, chats)]).
  unfold Client.handle_one, flush_state, refetch_min, Client.flush_events.
  split.
  - destruct (truthy_int (upd_pts u) && negb skip); destruct (upd_kind u);
      repeat (first [rewrite run_bind | rewrite run_tell | rewrite run_ret];
              cbn beta iota);
      cbn [Co.calls Co.trace]; rewrite <- ?app_assoc; reflexivity.
  - destruct (truthy_int (upd_pts u) && negb skip); destruct (upd_kind u); reflexivity.
Qed.

Lemma handle_each_plain skip date seq us users chats script w :
  ∃ tr, handle_each get_channel_id skip false date seq us users chats script w =
          (inr tt, {| Co.calls := Co.calls w; Co.trace := Co.trace w ++ tr |}) ∧
        queued tr = (λ u, (u, users, chats)) <$> us.
Proof.
  revert w. induction us as [|u us IH]; intros w.
  - exists []. rewrite app_nil_r. by destruct w.
  - cbn [Client.handle_each]. rewrite run_bind.
    destruct (handle_one_plain skip date seq u users chats script w) as (tr1 & -> & Hq1).
    destruct (IH {| Co.calls := Co.calls w; Co.trace := Co.trace w ++ tr1 |})
      as (tr2 & -> & Hq2).
    exists (tr1 ++ tr2). cbn [Co.calls Co.trace]. rewrite <- app_assoc.
    split; [done|]. by rewrite queued_app, Hq1, Hq2.
Qed.

(** X9: a container none of whose users and chats is minimal is handled
    without any request to the server and without exception: every update
    of it is put on the queue, in order, together with the tables built
    from the container's users and chats. *)
Theorem handle_updates_without_minimal_peers skip us users chats date seq script w :
  (∀ p, p ∈ users ++ chats → peer_min p = false) →
  ∃ tr, handle_updates get_channel_id lower skip (Updates us users chats date seq)
          script w
          = (inr tt, {| Co.calls := Co.calls w; Co.trace := Co.trace w ++ tr |}) ∧
        queued tr = plain_packet users chats <$> us.
Proof.
  intros Hfull.
  assert (∀ l, (∀ p, p ∈ l → peer_min p = false) → existsb peer_min l = false) as Hno.
  { intros l Hl. destruct (existsb peer_min l) eqn:Hex; [|done].
    apply existsb_exists in Hex as (p & Hp & Hm).
    apply list_elem_of_In in Hp. by rewrite (Hl p Hp) in Hm. }
  cbn [Client.handle_updates].
  rewrite run_bind, fetch_peers_run, run_bind, fetch_peers_run.
  rewrite !Hno by (intros p Hp; apply Hfull, elem_of_app; auto).
  cbn [orb Co.calls Co.trace].
  match goal with |- context [Client.handle_each _ _ _ _ _ _ _ _ script ?w1] =>
    destruct (handle_each_plain skip date seq us (dict_by_id users) (dict_by_id chats)
                script w1) as (tr & -> & Hq) end.
  cbn [Co.calls Co.trace]. eexists. rewrite <- !app_assoc. split; [done|].
  rewrite !queued_app, Hq. done.
Qed.

Lemma each_trace_aborted skip date seq us tr :
  each_trace get_channel_id skip date seq us false tr →
  ∃ handled u rest,
    us = handled ++ u :: rest ∧
    (queued tr).*1.*1 = handled ∧
    flushed tr = flush_rows get_channel_id skip date seq (handled ++ [u]).
Proof.
  remember false as ok eqn:Hok.
  induction 1 as [|u us ok mid users chats tr Hq _ IH|u us mid Hq]; [done| |].
  - destruct (IH Hok) as (handled & u' & rest & -> & Hqu & Hfl).
    exists (u :: handled), u', rest. split; [done|]. split.
    + rewrite !queued_app, flush_events_queued, (quiet_queued mid) by done.
      change (queued (QueuePut (u, users, chats) :: tr))
        with ((u, users, chats) :: queued tr).
      cbn [app]. rewrite !fmap_cons. by rewrite Hqu.
    + rewrite !flushed_app, flush_events_flushed, (quiet_flushed mid) by done.
      change (flushed (QueuePut (u, users, chats) :: tr)) with (flushed tr).
      cbn [app]. rewrite Hfl. by rewrite <- flush_rows_cons.
  - exists [], u, us. split; [done|]. split.
    + by rewrite queued_app, flush_events_queued, (quiet_queued mid).
    + rewrite flushed_app, flush_events_flushed, (quiet_flushed mid) by done.
      by rewrite app_nil_r.
Qed.

(** X10: when an exception ends [handle_updates] in the middle of a
    container, the updates before the failing one have been put on the
    queue and the failing update and those after it have not; the state
    tuple of the failing update has nevertheless been flushed like those
    before it. *)
Theorem handle_updates_aborted_container skip us users chats date seq script w e w' :
  handle_updates get_channel_id lower skip (Updates us users chats date seq) script w
    = (inl e, w') →
  ∃ tr handled u rest,
    Co.trace w' = Co.trace w ++ tr ∧
    us = handled ++ u :: rest ∧
    (queued tr).*1.*1 = handled ∧
    flushed tr = flush_rows get_channel_id skip date seq (handled ++ [u]).
Proof.
  intros Hrun.
  destruct (handle_updates_container_trace _ _ _ _ _ _ _ _ _ _ _ _ Hrun)
    as (head & tr & Hhead & Hw' & Htr).
  rewrite bool_decide_eq_false_2 in Htr by done.
  destruct (each_trace_aborted _ _ _ _ _ Htr) as (handled & u & rest & -> & Hq & Hf).
  exists (head ++ tr), handled, u, rest. split; [done|]. split; [done|].
  split; [by rewrite queued_app, (quiet_queued head)|].
  by rewrite flushed_app, (quiet_flushed head).
Qed.

(** X11: when a minimal peer makes [handle_updates] ask for the channel
    difference of a new channel message, the request is for exactly the
    range of that one message, from [pts - pts_count], with limit [pts].
    When it fails with [ChannelPrivate], [PersistentTimestampOutdated] or
    [PersistentTimestampInvalid], the update is not lost: it is put on the
    queue, and the two tables are left as they were. When it fails with any
    other exception ([ChannelInvalid] among them, which the [except] clause
    does not name), the exception leaves the loop and the update is not put
    on the queue. *)
Theorem channel_message_survives_failed_difference
    skip date seq u m cid p c users chats script w e :
  upd_kind u = UpdateNewChannelMessage →
  upd_message u = Some m → msg_is_empty m = false →
  update_channel_id u = Some cid → upd_pts u = Some p → upd_pts_count u = Some c →
  script (Co.calls w) = inl e →
  let ask := Invoke (GetChannelDifference (get_channel_id cid)
                       (Some (msg_id m, msg_id m)) (p - c) p) in
  let after tr :=
    {| Co.calls := S (Co.calls w);
       Co.trace := Co.trace w ++ flush_events get_channel_id skip date seq u ++ tr |} in
  handle_one get_channel_id skip true date seq u users chats script w =
    if bool_decide (e = ChannelPrivate ∨ e = PersistentTimestampOutdated
                    ∨ e = PersistentTimestampInvalid)
    then (inr (users, chats), after [ask; QueuePut (u, users, chats)])
    else (inl e, after [ask]).
Proof.
  intros Hkind Hmsg Hempty Hcid Hp Hc Hans ask after. subst ask after.
  assert (caught_min_diff e =
            bool_decide (e = ChannelPrivate ∨ e = PersistentTimestampOutdated
                         ∨ e = PersistentTimestampInvalid)) as <-.
  { destruct e; cbn [caught_min_diff]; symmetry;
      first [ apply bool_decide_eq_true_2; by auto
            | apply bool_decide_eq_false_2; intros [|[|]]; done ]. }
  unfold Client.handle_one, flush_state, refetch_min, Client.flush_events.
  rewrite Hkind, Hmsg, Hcid, Hp, Hc. cbn [attr int_operand].
  destruct (caught_min_diff e) eqn:He;
    destruct (truthy_int (Some p) && negb skip);
    repeat (first [ rewrite run_bind | rewrite run_tell | rewrite run_ret
                  | rewrite run_await | rewrite Hempty | rewrite Hans
                  | rewrite He | progress unfold Co.try_except ];
            cbn beta iota; cbn [Co.calls Co.trace]);
    rewrite <- ?app_assoc; reflexivity.
Qed.
End UpdateMore.

Lemma handle_updates_without_minimal_peers_witness :
  let u := {| Raw.upd_kind := Raw.UpdateChannelTooLong; Raw.upd_message := None;
              Raw.upd_channel_id := Some 42; Raw.upd_pts := Some 10;
              Raw.upd_pts_count := None |} in
  let script : nat → exn + Client.difference := λ _, inl (OtherError 0) in
  ∃ tr, Client.handle_updates (λ z, -1000000000000 - z) (λ s, s) false
          (Client.Updates [u; u] [Raw.PChat 5] [] 100 7) script Co.start
          = (inr tt, {| Co.calls := Co.calls (Co.start (Ev := Client.event));
                        Co.trace := Co.trace Co.start ++ tr |}) ∧
        Client.queued tr = plain_packet [Raw.PChat 5] [] <$> [u; u].
Proof.
  intros u script.
  apply (handle_updates_without_minimal_peers (λ z, -1000000000000 - z) (λ s, s)
           false [u; u] [Raw.PChat 5] [] 100 7 script Co.start).
  intros p [->|Hp]%elem_of_cons; [reflexivity|]. by apply elem_of_nil in Hp.
Defined.

Lemma handle_updates_aborted_container_witness :
  let gci := λ z : Z, -1000000000000 - z in
  let first := {| Raw.upd_kind := Raw.UpdateOther 0; Raw.upd_message := None;
                  Raw.upd_channel_id := None; Raw.upd_pts := Some 4;
                  Raw.upd_pts_count := Some 1 |} in
  let u := {| Raw.upd_kind := Raw.UpdateNewChannelMessage;
              Raw.upd_message := Some {| Raw.msg_id := 7; Raw.msg_is_empty := false;
                                         Raw.msg_peer_channel_id := Some 42 |};
              Raw.upd_channel_id := None; Raw.upd_pts := Some 10;
              Raw.upd_pts_count := Some 1 |} in
  let script : nat → exn + Client.difference := λ _, inl (OtherError 0) in
  let run := Client.handle_updates gci (λ s, s) false
               (Client.Updates [first; u; first] [Raw.POther 1 true] [] 100 7)
               script Co.start in
  ∃ tr handled u' rest,
    Co.trace run.2 = Co.trace Co.start ++ tr ∧
    [first; u; first] = handled ++ u' :: rest ∧
    (Client.queued tr).*1.*1 = handled ∧
    Client.flushed tr = Client.flush_rows gci false 100 7 (handled ++ [u']).
Proof.
  intros gci first u script run.
  apply (handle_updates_aborted_container gci (λ s, s) false [first; u; first]
           [Raw.POther 1 true] [] 100 7 script Co.start (OtherError 0) run.2).
  reflexivity.
Defined.

Lemma channel_message_survives_failed_difference_witness :
  let gci := λ z : Z, -1000000000000 - z in
  let m := {| Raw.msg_id := 7; Raw.msg_is_empty := false;
              Raw.msg_peer_channel_id := Some 42 |} in
  let u := {| Raw.upd_kind := Raw.UpdateNewChannelMessage; Raw.upd_message := Some m;
              Raw.upd_channel_id := None; Raw.upd_pts := Some 10;
              Raw.upd_pts_count := Some 1 |} in
  let script : nat → exn + Client.difference := λ _, inl ChannelPrivate in
  let ask := Client.Invoke (Client.GetChannelDifference (gci 42)
                              (Some (7, 7)) (10 - 1) 10) in
  Client.handle_one gci false true 100 7 u ∅ ∅ script Co.start =
    (inr (∅, ∅),
     {| Co.calls := 1;
        Co.trace := [Client.StorageUpdateState (gci 42, 10, None, 100, Some 7);
                     ask; Client.QueuePut (u, ∅, ∅)] |}).
Proof.
  intros gci m u script ask.
  apply (channel_message_survives_failed_difference gci false 100 7 u m 42 10 1
           ∅ ∅ script Co.start ChannelPrivate); reflexivity.
Defined.

(** The same update when the request fails with [ChannelInvalid]: the
    exception leaves [handle_updates] and nothing is put on the queue. *)
Example channel_message_lost_on_channel_invalid :
  let gci := λ z : Z, -1000000000000 - z in
  let m := {| Raw.msg_id := 7; Raw.msg_is_empty := false;
              Raw.msg_peer_channel_id := Some 42 |} in
  let u := {| Raw.upd_kind := Raw.UpdateNewChannelMessage; Raw.upd_message := Some m;
              Raw.upd_channel_id := None; Raw.upd_pts := Some 10;
              Raw.upd_pts_count := Some 1 |} in
  let script : nat → exn + Client.difference := λ _, inl ChannelInvalid in
  let run := Client.handle_updates gci (λ s, s) false
               (Client.Updates [u] [Raw.POther 1 true] [] 100 7) script Co.start in
  run.1 = inl ChannelInvalid ∧ Client.queued (Co.trace run.2) = [].
Proof. by vm_compute. Qed.

(** Where no put extends the tables, the packets show what they were put
    with. *)
Lemma shown_plain users chats us tr :
  Client.queued tr = plain_packet users chats <$> us →
  Client.shown tr = Client.queued tr.
Proof.
  intros Heq. unfold Client.shown. rewrite Heq.
  destruct (last (plain_packet users chats <$> us)) as [[[u' users'] chats']|] eqn:Hlast.
  - rewrite fmap_last in Hlast. destruct (last us) as [u0|]; [|done].
    injection Hlast as <- <- <-. rewrite <- list_fmap_compose.
    by apply list_fmap_ext.
  - apply last_None in Hlast. by rewrite Hlast.
Qed.

(** The tables of the packets of one container are shared: a container of
    two channel messages, the difference of the second bringing a user. The
    first packet is put with the tables of the container, and shows the
    extended table once the second has been put. *)
Example handle_updates_packets_share_tables :
  let gci := λ z : Z, -1000000000000 - z in
  let m := {| Raw.msg_id := 7; Raw.msg_is_empty := false;
              Raw.msg_peer_channel_id := Some 42 |} in
  let u := {| Raw.upd_kind := Raw.UpdateNewChannelMessage; Raw.upd_message := Some m;
              Raw.upd_channel_id := None; Raw.upd_pts := Some 10;
              Raw.upd_pts_count := Some 1 |} in
  let brought := {| Client.new_messages := []; Client.other_updates := [];
                    Client.diff_users := [Raw.PChat 5]; Client.diff_chats := [] |} in
  let script : nat → exn + Client.difference := λ n,
    match n with
    | 0%nat => inr Client.ChannelDifferenceEmpty
    | _ => inr (Client.ChannelDifference brought 10)
    end in
  let run := Client.handle_updates gci (λ s, s) true
               (Client.Updates [u; u] [Raw.POther 1 true] [] 100 7) script Co.start in
  let users := Client.dict_by_id [Raw.POther 1 true] in
  run.1 = inr tt ∧
  Client.queued (Co.trace run.2)
    = [(u, users, ∅); (u, <[5 := Raw.PChat 5]> users, ∅)] ∧
  Client.shown (Co.trace run.2)
    = [(u, <[5 := Raw.PChat 5]> users, ∅); (u, <[5 := Raw.PChat 5]> users, ∅)].
Proof. by vm_compute. Qed.

(** ** Gap recovery: further properties *)

Section RecoverMore.
Import Raw Client.
Implicit Types (script : nat → exn + difference) (w : Co.world event).

Lemma deleted_app tr1 tr2 :
  deleted_states (tr1 ++ tr2) = deleted_states tr1 ++ deleted_states tr2.
Proof. apply omap_app. Qed.

Lemma puts_only tr :
  Forall (λ ev, ∃ p, ev = QueuePut p) tr →
  length (queued tr) = length tr ∧ flushed tr = [] ∧ deleted_states tr = [].
Proof.
  induction 1 as [|ev tr [p ->] _ (IH1 & IH2 & IH3)]; [done|].
  split; [|done]. change (S (length (queued tr)) = S (length tr)). by rewrite IH1.
Qed.

(** What the re-injection of one answer does. *)
Lemma reinject_trace b pts counters script w :
  ∃ tr, reinject b pts counters script w =
          (inr (counters.1 + Z.of_nat (length (new_messages b)),
                counters.2 + Z.of_nat (length (other_updates b))),
           {| Co.calls := Co.calls w; Co.trace := Co.trace w ++ tr |}) ∧
        length (queued tr) = (length (new_messages b) + length (other_updates b))%nat ∧
        flushed tr = [] ∧ deleted_states tr = [].
Proof.
  unfold reinject. rewrite run_bind.
  match goal with |- context [mapM ?f (new_messages b) script w] =>
    destruct (mapM_tell (λ m, QueuePut
      ({| upd_kind := UpdateNewMessage; upd_message := Some m;
          upd_channel_id := None; upd_pts := Some pts;
          upd_pts_count := Some (-1) |},
       dict_by_id (diff_users b), dict_by_id (diff_chats b)))
      (new_messages b) script w) as (us1 & ->) end.
  rewrite run_bind.
  match goal with |- context [mapM _ (other_updates b) script ?w1] =>
    destruct (mapM_tell (λ u, QueuePut
      (u, dict_by_id (diff_users b), dict_by_id (diff_chats b)))
      (other_updates b) script w1) as (us2 & ->) end.
  rewrite run_ret. cbn [Co.calls Co.trace]. rewrite <- app_assoc.
  eexists. split; [done|].
  match goal with |- context [queued (?l1 ++ ?l2)] =>
    destruct (puts_only l1) as (Hq1 & Hf1 & Hd1);
      [apply Forall_fmap, Forall_forall; intros; by eexists|];
    destruct (puts_only l2) as (Hq2 & Hf2 & Hd2);
      [apply Forall_fmap, Forall_forall; intros; by eexists|];
    rewrite queued_app, flushed_app, deleted_app, Hf1, Hf2, Hd1, Hd2,
      length_app, Hq1, Hq2, !length_fmap end.
  done.
Qed.

Lemma recover_scope_counts fuel id lp ld prev counters script w c w' :
  recover_scope fuel id lp ld prev counters script w = (inr (Some c), w') →
  ∃ tr, Co.trace w' = Co.trace w ++ tr ∧
        c.1 + c.2 = counters.1 + counters.2 + Z.of_nat (length (queued tr)) ∧
        counters.1 ≤ c.1 ∧ counters.2 ≤ c.2 ∧
        flushed tr = [] ∧ deleted_states tr = [].
Proof.
  revert lp ld prev counters w.
  induction fuel as [|fuel IH]; intros lp ld prev counters w; [done|].
  rewrite recover_scope_step. cbn zeta.
  set (w1 := {| Co.calls := S (Co.calls w); Co.trace := _ |}).
  assert (∃ req, Co.trace w1 = Co.trace w ++ [Invoke req]) as [req Hw1] by (by eexists).
  clearbody w1.
  assert (∀ b p (k : Z * Z → Co.M difference event (option (Z * Z))),
    (∀ c0 w0, k c0 script w0 = (inr (Some c), w') →
       ∃ tr, Co.trace w' = Co.trace w0 ++ tr ∧
             c.1 + c.2 = c0.1 + c0.2 + Z.of_nat (length (queued tr)) ∧
             c0.1 ≤ c.1 ∧ c0.2 ≤ c.2 ∧ flushed tr = [] ∧ deleted_states tr = []) →
    (reinject b p counters ≫= k) script w1 = (inr (Some c), w') →
    ∃ tr, Co.trace w' = Co.trace w ++ tr ∧
          c.1 + c.2 = counters.1 + counters.2 + Z.of_nat (length (queued tr)) ∧
          counters.1 ≤ c.1 ∧ counters.2 ≤ c.2 ∧
          flushed tr = [] ∧ deleted_states tr = []) as Hre.
  { intros b p k Hk. rewrite run_bind.
    destruct (reinject_trace b p counters script w1) as (tr1 & -> & Hq1 & Hf1 & Hd1).
    intros Hrun. destruct (Hk _ _ Hrun) as (tr2 & Hw' & Hsum & Hm & Ho & Hf2 & Hd2).
    cbn [Co.trace fst snd] in *.
    exists ([Invoke req] ++ tr1 ++ tr2). split.
    { rewrite Hw', Hw1. by rewrite <- !app_assoc. }
    rewrite !queued_app, !flushed_app, !deleted_app, Hf1, Hf2, Hd1, Hd2.
    rewrite !length_app, Hq1. simpl. repeat split; lia. }
  assert (∀ c0 w0,
            (mret (Some c0) : Co.M difference event _) script w0 = (inr (Some c), w') →
            ∃ tr, Co.trace w' = Co.trace w0 ++ tr ∧
                  c.1 + c.2 = c0.1 + c0.2 + Z.of_nat (length (queued tr)) ∧
                  c0.1 ≤ c.1 ∧ c0.2 ≤ c.2 ∧ flushed tr = [] ∧ deleted_states tr = [])
    as Hret.
  { intros c0 w0 [= <- <-]. exists []. rewrite app_nil_r. simpl.
    repeat split; lia. }
  assert ((inr (Some counters) : exn + option (Z * Z), w1) = (inr (Some c), w') →
          ∃ tr, Co.trace w' = Co.trace w ++ tr ∧
                c.1 + c.2 = counters.1 + counters.2 + Z.of_nat (length (queued tr)) ∧
                counters.1 ≤ c.1 ∧ counters.2 ≤ c.2 ∧
                flushed tr = [] ∧ deleted_states tr = []) as Hbreak.
  { intros [= <- <-]. exists [Invoke req]. split; [done|]. simpl. repeat split; lia. }
  destruct (script (Co.calls w)) as [e|d].
  { destruct (caught_recover e); [done|by intros [= ]]. }
  destruct d as [| |b p|b p d| | |b p]; try done.
  - by apply Hre.
  - destruct (decide (prev = p)); [done|]. apply Hre. intros c0 w0. apply IH.
  - by apply Hre.
Qed.

Lemma recover_each_counts fuel states counters script w c w' :
  recover_each fuel states counters script w = (inr (Some c), w') →
  ∃ tr, Co.trace w' = Co.trace w ++ tr ∧
        c.1 + c.2 = counters.1 + counters.2 + Z.of_nat (length (queued tr)) ∧
        counters.1 ≤ c.1 ∧ counters.2 ≤ c.2 ∧
        flushed tr = [] ∧ deleted_states tr = (λ st : state_row, st.1.1.1.1) <$> states.
Proof.
  revert counters w. induction states as [|[[[[id lp] qts] ld] sq] states IH];
    intros counters w; cbn [recover_each].
  - intros [= <- <-]. exists []. rewrite app_nil_r. simpl. repeat split; lia.
  - rewrite run_bind.
    destruct (recover_scope fuel id lp ld 0 counters script w) as [[e|[c1|]] w1] eqn:Hscope;
      try done.
    destruct (recover_scope_counts _ _ _ _ _ _ _ _ _ _ Hscope)
      as (tr1 & Hw1 & Hsum1 & Hm1 & Ho1 & Hf1 & Hd1).
    rewrite run_bind, run_tell. intros Hrest.
    destruct (IH _ _ Hrest) as (tr2 & Hw' & Hsum2 & Hm2 & Ho2 & Hf2 & Hd2).
    cbn [Co.trace] in Hw'.
    exists (tr1 ++ [StorageDeleteState id] ++ tr2). split.
    { rewrite Hw', Hw1. by rewrite <- !app_assoc. }
    rewrite !queued_app, !flushed_app, !deleted_app, Hf1, Hf2, Hd1, Hd2.
    rewrite !length_app. simpl. repeat split; lia.
Qed.

Lemma recover_gaps_trace fuel states script w c w' :
  recover_gaps fuel states script w = (inr (Some c), w') →
  ∃ tr, Co.trace w' = Co.trace w ++ tr ∧
        c.1 + c.2 = Z.of_nat (length (queued tr)) ∧ 0 ≤ c.1 ∧ 0 ≤ c.2 ∧
        flushed tr = [] ∧ deleted_states tr = (λ st : state_row, st.1.1.1.1) <$> states.
Proof.
  unfold recover_gaps. destruct states as [|st states].
  - rewrite run_bind, run_tell, run_ret. intros [= <- <-]. exists [LogInfo].
    simpl. repeat split; lia.
  - rewrite run_bind.
    destruct (recover_each fuel (st :: states) (0, 0) script w) as [[e|[c1|]] w1] eqn:Heach;
      try done.
    destruct (recover_each_counts _ _ _ _ _ _ _ Heach)
      as (tr & Hw1 & Hsum & Hm & Ho & Hf & Hd).
    rewrite run_bind, run_tell, run_ret. intros [= <- <-].
    exists (tr ++ [LogInfo]). cbn [Co.trace]. split; [by rewrite Hw1, <- app_assoc|].
    rewrite queued_app, flushed_app, deleted_app, Hf, Hd, length_app. simpl in *.
    rewrite !app_nil_r. repeat split; lia.
Qed.

(** X12: the two counters [recover_gaps] returns are non-negative and add
    up to the number of packets it has put on the dispatch queue. *)
Theorem recover_gaps_counts_what_it_enqueues fuel states script w c w' :
  recover_gaps fuel states script w = (inr (Some c), w') →
  ∃ tr, Co.trace w' = Co.trace w ++ tr ∧
        0 ≤ c.1 ∧ 0 ≤ c.2 ∧ c.1 + c.2 = Z.of_nat (length (queued tr)).
Proof.
  intros Hrun. destruct (recover_gaps_trace _ _ _ _ _ _ Hrun) as (tr & ? & ? & ? & ? & _).
  by exists tr.
Qed.

Lemma storage_after_deletes table tr :
  flushed tr = [] →
  storage_after table tr = foldl (λ t id, delete id t) table (deleted_states tr).
Proof.
  revert table. induction tr as [|ev tr IH]; intros table Hf; [done|].
  unfold storage_after in *. destruct ev; try done; simpl; by apply IH.
Qed.

Lemma deleted_lookup (table : gmap Z state_row) ids id :
  id ∈ ids → foldl (λ t i, delete i t) table ids !! id = None.
Proof.
  revert table. induction ids as [|i ids IH]; intros table; [by intros ?%elem_of_nil|].
  intros Hin. simpl. destruct (decide (id ∈ ids)) as [|Hnin]; [by apply IH|].
  apply elem_of_cons in Hin as [->|]; [|done].
  clear IH. revert table. induction ids as [|j ids IH]; intros table; simpl.
  - apply lookup_delete_eq.
  - apply not_elem_of_cons in Hnin as [Hne Hnin].
    rewrite delete_delete. by apply IH.
Qed.

(** X13: a recovery that runs to its end stores no state and deletes the
    stored state of every scope it was given, in the order of the list:
    afterwards the storage holds no state for any of them. *)
Theorem recover_gaps_deletes_recovered_states fuel states script w c w' :
  recover_gaps fuel states script w = (inr (Some c), w') →
  ∃ tr, Co.trace w' = Co.trace w ++ tr ∧
        flushed tr = [] ∧
        deleted_states tr = (λ st : state_row, st.1.1.1.1) <$> states ∧
        ∀ table st, st ∈ states → storage_after table tr !! st.1.1.1.1 = None.
Proof.
  intros Hrun.
  destruct (recover_gaps_trace _ _ _ _ _ _ Hrun) as (tr & Hw' & _ & _ & _ & Hf & Hd).
  exists tr. split; [done|]. split; [done|]. split; [done|].
  intros table st Hst. rewrite storage_after_deletes by done.
  apply deleted_lookup. rewrite Hd. apply list_elem_of_fmap. by exists st.
Qed.
End RecoverMore.

(** A server that answers the first request with a one-message,
    one-update difference and every later one with an empty difference. *)
Lemma recover_gaps_counts_what_it_enqueues_witness :
  let m := {| Raw.msg_id := 7; Raw.msg_is_empty := false;
              Raw.msg_peer_channel_id := None |} in
  let u := {| Raw.upd_kind := Raw.UpdateOther 0; Raw.upd_message := None;
              Raw.upd_channel_id := None; Raw.upd_pts := None;
              Raw.upd_pts_count := None |} in
  let body := {| Client.new_messages := [m]; Client.other_updates := [u];
                 Client.diff_users := []; Client.diff_chats := [] |} in
  let script : nat → exn + Client.difference :=
    λ n, match n with O => inr (Client.Difference body 9) | _ => inr Client.DifferenceEmpty end in
  let states : list state_row := [(0, 5, None, 0, None); (-1000000000042, 7, None, 0, None)] in
  let w' := (Client.recover_gaps 1 states script Co.start).2 in
  ∃ tr, Co.trace w' = Co.trace (Co.start (Ev := Client.event)) ++ tr ∧
        0 ≤ (1, 1).1 ∧ 0 ≤ (1, 1).2 ∧
        (1, 1).1 + (1, 1).2 = Z.of_nat (length (Client.queued tr)).
Proof.
  intros m u body script states w'.
  apply (recover_gaps_counts_what_it_enqueues 1 states script Co.start (1, 1) w').
  vm_compute. reflexivity.
Defined.

Lemma recover_gaps_deletes_recovered_states_witness :
  let script : nat → exn + Client.difference :=
    λ n, match n with O => inr Client.DifferenceTooLong | _ => inl ChannelPrivate end in
  let states : list state_row := [(0, 5, None, 0, None); (-1000000000042, 7, None, 0, None)] in
  let w' := (Client.recover_gaps 1 states script Co.start).2 in
  ∃ tr, Co.trace w' = Co.trace (Co.start (Ev := Client.event)) ++ tr ∧
        Client.flushed tr = [] ∧
        deleted_states tr = (λ st : state_row, st.1.1.1.1) <$> states ∧
        ∀ table st, st ∈ states → Client.storage_after table tr !! st.1.1.1.1 = None.
Proof.
  intros script states w'.
  apply (recover_gaps_deletes_recovered_states 1 states script Co.start (0, 0) w').
  vm_compute. reflexivity.
Defined.

(** ** Downloads: further properties *)

Section DownloadMore.
Import Download.
Context (ctr256_decrypt : bytes → bytes → bytes → bytes) (sha256 : bytes → bytes).
Context (file_size : Z) (progress : bool) (total : Z) (consumer : nat → option exn).
Implicit Types (script : nat → exn + response) (w : Co.world event).

Abbreviation get_file :=
  (get_file ctr256_decrypt sha256 file_size progress total consumer).
Abbreviation get_file_body :=
  (get_file_body ctr256_decrypt sha256 file_size progress total consumer).
Abbreviation cdn_loop :=
  (cdn_loop ctr256_decrypt sha256 file_size progress total consumer).
Abbreviation file_loop := (file_loop file_size progress total consumer).
Abbreviation chunk_trace := (chunk_trace file_size progress total consumer).
Abbreviation body_trace := (body_trace file_size progress total consumer).
Abbreviation reports := (report_events file_size progress).

Ltac chunk_steps :=
  repeat first [ apply ct_end | apply ct_request; [simpl; auto|]
               | by apply ct_last | by apply ct_closed ].

Lemma yielded_cons ev (tr : list event) :
  yielded (ev :: tr) = match ev with Yield c => c :: yielded tr | _ => yielded tr end.
Proof. by destruct ev. Qed.

Lemma yielded_app (tr1 tr2 : list event) :
  yielded (tr1 ++ tr2) = yielded tr1 ++ yielded tr2.
Proof. apply omap_app. Qed.

Lemma progress_calls_cons ev (tr : list event) :
  progress_calls (ev :: tr) =
  match ev with
  | Invoke (ProgressCall c t) => (c, t) :: progress_calls tr
  | _ => progress_calls tr
  end.
Proof. by destruct ev as [[]| |]. Qed.

Lemma progress_calls_app (tr1 tr2 : list event) :
  progress_calls (tr1 ++ tr2) = progress_calls tr1 ++ progress_calls tr2.
Proof. apply omap_app. Qed.

Lemma report_events_counts off :
  yielded (reports off) = [] ∧
  length (progress_calls (reports off)) = (if progress then 1 else 0)%nat.
Proof. unfold report_events. by destruct progress. Qed.

Lemma setup_counts (setup : list event) :
  Forall is_setup setup → yielded setup = [] ∧ progress_calls setup = [].
Proof.
  induction 1 as [|ev setup Hev _ [IH1 IH2]]; [done|].
  rewrite yielded_cons, progress_calls_cons. by destruct ev as [[]| |].
Qed.

Lemma log_tail_counts (tail : list event) :
  log_tail tail → yielded tail = [] ∧ progress_calls tail = [].
Proof. by intros [->|[e ->]]. Qed.

(** The index of the next chunk after a chunk and its report. *)
Lemma yielded_after_chunk (tr : list event) chunk off :
  length (yielded ((tr ++ [Yield chunk]) ++ reports off)) = S (length (yielded tr)).
Proof.
  rewrite !yielded_app, (proj1 (report_events_counts _)), app_nil_r, length_app.
  simpl. lia.
Qed.

Lemma report_run offset_bytes script w :
  ∃ r w1, report file_size progress offset_bytes script w = (r, w1) ∧
          Co.trace w1 = Co.trace w ++ reports offset_bytes.
Proof.
  unfold report, report_events. destruct progress.
  - rewrite run_bind, run_call. destruct (script (Co.calls w)); eauto.
  - rewrite run_ret. eexists _, _. split; [done|]. by rewrite app_nil_r.
Qed.

Lemma file_loop_shape fuel r current off script w res w' :
  file_loop fuel r current off script w = (res, w') →
  ∃ tr, Co.trace w' = Co.trace w ++ tr ∧
        chunk_trace (length (yielded (Co.trace w))) off current tr ∧
        (Z.max 1 (total - current) ≤ Z.of_nat fuel → res ≠ inr None).
Proof.
  revert r current off w. induction fuel as [|fuel IH]; intros r current off w.
  { intros [= <- <-]. exists []. split; [by rewrite app_nil_r|].
    split; [constructor|]. lia. }
  cbn [Download.file_loop]. rewrite run_bind.
  assert (∀ chunk,
    (yield_ consumer chunk;;
     report file_size progress (off + chunk_size);;
     if decide (Z.of_nat (length chunk) < chunk_size ∨ total ≤ current + 1)
     then mret (Some tt)
     else r' ← call (GetFile (off + chunk_size) chunk_size);
          file_loop fuel r' (current + 1) (off + chunk_size)) script w = (res, w') →
    ∃ tr, Co.trace w' = Co.trace w ++ tr ∧
          chunk_trace (length (yielded (Co.trace w))) off current tr ∧
          (Z.max 1 (total - current) ≤ Z.of_nat (S fuel) → res ≠ inr None)) as Hchunk.
  { intros chunk. rewrite run_bind, run_yield.
    destruct (consumer (length (yielded (Co.trace w)))) as [thrown|] eqn:Hcons.
    { intros [= <- <-]. eexists. split; [done|]. split; [|done].
      apply ct_closed. by rewrite Hcons. }
    rewrite run_bind.
    match goal with |- context [report _ _ _ script ?w1] =>
      destruct (report_run (off + chunk_size) script w1) as (rr & w2 & -> & Hw2) end.
    cbn [Co.trace] in Hw2.
    destruct rr as [e|[]].
    { intros [= <- <-]. eexists. split; [by rewrite Hw2, <- app_assoc|].
      split; [|done]. simpl. chunk_steps. }
    destruct (decide (_ ∨ _)) as [|Hgo].
    { intros [= <- <-]. eexists. split; [by rewrite Hw2, <- app_assoc|].
      split; [|done]. simpl. chunk_steps. }
    rewrite run_bind, run_call.
    destruct (script (Co.calls w2)) as [e|r'].
    { intros [= <- <-]. eexists. split.
      { cbn [Co.trace]. by rewrite Hw2, <- !app_assoc. }
      split; [|done]. simpl. apply ct_more; [done|lia|]. chunk_steps. }
    intros Hloop. destruct (IH _ _ _ _ Hloop) as (tr' & Hw' & Hct & Hterm).
    cbn [Co.trace] in Hw', Hct.
    rewrite Hw2, yielded_app, length_app, yielded_after_chunk in Hct. simpl in Hct.
    rewrite Nat.add_0_r in Hct.
    eexists. split.
    { by rewrite Hw', Hw2, <- !app_assoc. }
    split.
    - simpl. apply ct_more; [done|lia|]. simpl. chunk_steps. done.
    - intros Hfuel. apply Hterm. lia. }
  destruct r; cbn [get_bytes];
    first [ rewrite run_ret; apply Hchunk
          | intros [= <- <-]; exists []; split; [by rewrite app_nil_r|];
            split; [constructor|done] ].
Qed.

Lemma cdn_loop_shape fuel file_token key iv current off script w r w' :
  cdn_loop fuel file_token key iv current off script w = (r, w') →
  ∃ tr, Co.trace w' = Co.trace w ++ tr ∧
        chunk_trace (length (yielded (Co.trace w))) off current tr ∧
        (no_reupload script → Z.max 1 (total - current) ≤ Z.of_nat fuel → r ≠ inr None).
Proof.
  revert current off w. induction fuel as [|fuel IH]; intros current off w.
  { intros [= <- <-]. exists []. split; [by rewrite app_nil_r|].
    split; [constructor|]. lia. }
  cbn [Download.cdn_loop]. rewrite run_bind, run_call.
  destruct (script (Co.calls w)) as [e|r2] eqn:Hans.
  { intros [= <- <-]. eexists. split; [done|]. split; [|done]. chunk_steps. }
  assert (∀ encrypted,
    (chunk ← mret encrypted;
     iv' ← cdn_iv iv off;
     let decrypted_chunk := ctr256_decrypt chunk key iv' in
     answer ← call (GetCdnFileHashes file_token off);
     hashes ← get_hashes answer;
     check_hashes sha256 decrypted_chunk 0 hashes;;
     yield_ consumer decrypted_chunk;;
     report file_size progress (off + chunk_size);;
     if decide (Z.of_nat (length chunk) < chunk_size ∨ total ≤ current + 1)
     then mret (Some tt)
     else cdn_loop fuel file_token key iv (current + 1) (off + chunk_size))
      script
      {| Co.calls := S (Co.calls w);
         Co.trace := Co.trace w ++ [Invoke (GetCdnFile file_token off chunk_size)] |}
      = (r, w') →
    ∃ tr, Co.trace w' = Co.trace w ++ tr ∧
          chunk_trace (length (yielded (Co.trace w))) off current tr ∧
          (no_reupload script → Z.max 1 (total - current) ≤ Z.of_nat (S fuel) →
           r ≠ inr None)) as Hchunk.
  { intros encrypted. rewrite run_bind, run_ret, run_bind. unfold cdn_iv.
    destruct (decide (0 ≤ off / 16 < 2 ^ 32)) as [Hv|Hv].
    2:{ intros [= <- <-]. eexists. split; [done|]. split; [|done]. chunk_steps. }
    rewrite run_ret. cbn zeta. rewrite run_bind, run_call. cbn [Co.calls Co.trace].
    destruct (script (S (Co.calls w))) as [e|answer] eqn:Hans2.
    { intros [= <- <-]. eexists. split; [cbn; by rewrite <- app_assoc|].
      split; [|done]. simpl. chunk_steps. }
    rewrite run_bind.
    destruct answer as [| | | |hashes|];
      try (intros [= <- <-]; eexists; (split; [cbn; by rewrite <- app_assoc|]);
           (split; [|done]); simpl; chunk_steps).
    cbn [get_hashes]. rewrite run_ret, run_bind.
    match goal with |- context [check_hashes sha256 ?dec 0 hashes script ?w1] =>
      destruct (check_hashes_run sha256 dec 0 hashes script w1)
        as [[-> _]|[-> _]] end.
    2:{ intros [= <- <-]. eexists. split; [cbn; by rewrite <- app_assoc|].
        split; [|done]. simpl. chunk_steps. }
    rewrite run_bind, run_yield. cbn [Co.calls Co.trace].
    set (dec := ctr256_decrypt encrypted key _) in *.
    assert (length (yielded ((Co.trace w ++
               [Invoke (GetCdnFile file_token off chunk_size)]) ++
               [Invoke (GetCdnFileHashes file_token off)]))
            = length (yielded (Co.trace w))) as Hidx.
    { rewrite !yielded_app. simpl. by rewrite !app_nil_r. }
    rewrite Hidx.
    destruct (consumer (length (yielded (Co.trace w)))) as [thrown|] eqn:Hcons.
    { intros [= <- <-]. eexists. split; [by rewrite <- !app_assoc|].
      split; [|done]. simpl. chunk_steps. apply ct_closed. by rewrite Hcons. }
    rewrite run_bind.
    match goal with |- context [report _ _ _ script ?w2] =>
      destruct (report_run (off + chunk_size) script w2) as (rr & w3 & -> & Hw3) end.
    cbn [Co.trace] in Hw3.
    destruct rr as [e|[]].
    { intros [= <- <-]. eexists. split; [by rewrite Hw3, <- !app_assoc|].
      split; [|done]. simpl. chunk_steps. }
    destruct (decide (_ ∨ _)) as [|Hgo].
    { intros [= <- <-]. eexists. split; [by rewrite Hw3, <- !app_assoc|].
      split; [|done]. simpl. chunk_steps. }
    intros Hloop. destruct (IH _ _ _ Hloop) as (tr' & Hw' & Hct & Hterm).
    rewrite Hw3, yielded_after_chunk, Hidx in Hct.
    eexists. split; [by rewrite Hw', Hw3, <- !app_assoc|]. split.
    - simpl. chunk_steps. apply ct_more; [done|lia|done].
    - intros Hno Hfuel. apply Hterm; [done|lia]. }
  destruct r2 as [d|dc tok k2 iv2|d|request_token|hs|].
  - apply (Hchunk d).
  - rewrite run_bind. intros [= <- <-]. eexists. split; [done|]. split; [|done].
    chunk_steps.
  - apply (Hchunk d).
  - clear Hchunk. rewrite run_bind. unfold Co.try_except.
    rewrite run_bind, run_call. cbn [Co.calls Co.trace].
    destruct (script (S (Co.calls w))) as [e|answer].
    + destruct (bool_decide (e = VolumeLocNotFound)).
      * rewrite run_ret. intros [= <- <-]. eexists.
        split; [cbn; by rewrite <- app_assoc|]. split; [|done]. simpl. chunk_steps.
      * intros [= <- <-]. eexists.
        split; [cbn; by rewrite <- app_assoc|]. split; [|done]. simpl. chunk_steps.
    + rewrite run_ret. intros Hloop.
      destruct (IH _ _ _ Hloop) as (tr' & Hw' & Hct & Hterm).
      cbn [Co.trace] in Hct. rewrite !yielded_app in Hct. simpl in Hct.
      rewrite !app_nil_r in Hct.
      eexists. split; [rewrite Hw'; cbn [Co.trace]; by rewrite <- !app_assoc|].
      split.
      * simpl. chunk_steps. done.
      * intros Hno. by destruct (Hno _ _ Hans).
  - rewrite run_bind. intros [= <- <-]. eexists. split; [done|]. split; [|done].
    chunk_steps.
  - rewrite run_bind. intros [= <- <-]. eexists. split; [done|]. split; [|done].
    chunk_steps.
Qed.

(** The events of the body of [get_file], and that it needs no more
    iterations than chunks it may deliver. *)
Lemma get_file_body_shape fuel has_session same_dc off script w r w1 :
  get_file_body fuel has_session same_dc off script w = (r, w1) →
  ∃ tr, Co.trace w1 = Co.trace w ++ tr ∧
        body_trace (length (yielded (Co.trace w))) off tr ∧
        (no_reupload script → Z.max 1 total ≤ Z.of_nat fuel → r ≠ inr None).
Proof.
  unfold Download.get_file_body. rewrite run_bind.
  match goal with |- context [(if has_session then _ else _) script w] =>
    destruct ((if has_session then mret tt
               else
                 (if same_dc then mret tt else call CreateAuthKey;; mret tt);;
                 call StartSession;;
                 if same_dc then mret tt else import_authorization 3 : M unit) script w)
      as [r0 w0] eqn:Hsetup end.
  destruct (session_setup_calls _ _ _ _ _ _ Hsetup) as (setup & Hset & Hw0 & Hc0).
  assert (∀ evs : list event, (∀ ev, ev ∈ evs → ∃ req, ev = Invoke req) →
            length (yielded ((Co.trace w0 ++ evs)))
            = length (yielded (Co.trace w))) as Hidx.
  { intros evs Hevs. rewrite Hw0, !yielded_app, (proj1 (setup_counts _ Hset)).
    rewrite app_nil_r, length_app.
    assert (yielded evs = []) as ->; [|simpl; lia].
    induction evs as [|ev evs IHevs]; [done|].
    destruct (Hevs ev) as [req ->]; [by left|]. rewrite yielded_cons.
    apply IHevs. intros ev' Hev'. apply Hevs. by right. }
  destruct r0 as [e|[]].
  { intros [= <- <-]. exists setup. split; [done|]. split; [by constructor|done]. }
  rewrite run_bind, run_call.
  destruct (script (Co.calls w0)) as [e|r1] eqn:Hans.
  { intros [= <- <-]. eexists. split; [cbn; by rewrite Hw0, <- app_assoc|].
    split; [|done]. apply bt_plain; [done|constructor]. }
  destruct r1 as [d|dc tok key iv|d|rt|hs|];
    try (intros [= <- <-]; eexists; (split; [cbn; by rewrite Hw0, <- app_assoc|]);
         (split; [|done]); apply bt_plain; [done|constructor]).
  - intros Hloop.
    destruct (file_loop_shape _ _ _ _ _ _ _ _ Hloop) as (tr' & Hw1 & Hct & Hterm).
    cbn [Co.trace] in Hw1, Hct.
    rewrite Hidx in Hct
      by (intros ev ->%list_elem_of_singleton; by eexists).
    eexists. split; [by rewrite Hw1, Hw0, <- !app_assoc|].
    split; [by apply bt_plain|]. intros _ Hfuel. apply Hterm. lia.
  - rewrite run_bind, run_call. cbn [Co.calls Co.trace].
    destruct (script (S (Co.calls w0))) as [e|r2].
    { intros [= <- <-]. eexists. split; [cbn; by rewrite Hw0, <- !app_assoc|].
      split; [|done]. by apply bt_cdn_key. }
    unfold Co.try_finally. rewrite try_except_reraise, run_bind, run_call.
    cbn [Co.calls Co.trace].
    match goal with |- context [match ?s with inl _ => _ | inr _ => _ end] =>
      destruct s as [e|r3] end.
    + rewrite run_bind, run_call. cbn [Co.calls Co.trace].
      match goal with |- context [match ?s with inl _ => _ | inr _ => _ end] =>
        destruct s as [e'|r4] end.
      * intros [= <- <-]. eexists. split; [cbn; by rewrite Hw0, <- !app_assoc|].
        split; [|done]. apply (bt_cdn _ _ _ _ _ _ setup []); [done|constructor].
      * rewrite run_ret. intros [= <- <-].
        eexists. split; [cbn; by rewrite Hw0, <- !app_assoc|].
        split; [|done]. apply (bt_cdn _ _ _ _ _ _ setup []); [done|constructor].
    + match goal with |- context [cdn_loop fuel tok key iv 0 off script ?w2] =>
        destruct (cdn_loop fuel tok key iv 0 off script w2) as [rc wc] eqn:Hcdn end.
      destruct (cdn_loop_shape _ _ _ _ _ _ _ _ _ _ Hcdn) as (trc & Hwc & Hct & Hterm).
      cbn [Co.trace] in Hwc, Hct.
      rewrite <- !app_assoc in Hct.
      rewrite Hidx in Hct.
      2:{ intros ev Hev. simpl in Hev.
          repeat (apply elem_of_cons in Hev as [->|Hev]; [by eexists|]).
          by apply elem_of_nil in Hev. }
      rewrite run_bind, run_call.
      assert (∀ (res : exn + option unit) wf,
                Co.trace wf = Co.trace wc ++ [Invoke StopCdnSession] →
                (res = rc ∨ ∃ e, res = inl e) →
                (res, wf) = (r, w1) →
                ∃ tr, Co.trace w1 = Co.trace w ++ tr ∧
                      body_trace (length (yielded (Co.trace w))) off tr ∧
                      (no_reupload script → Z.max 1 total ≤ Z.of_nat fuel →
                       r ≠ inr None)) as Hfin.
      { intros res wf Hwf Hres [= <- <-].
        exists (setup ++ Invoke (GetFile off chunk_size) ::
                  Invoke CreateAuthKey :: Invoke StartCdnSession :: trc ++
                   [Invoke StopCdnSession]).
        split.
        { rewrite Hwf, Hwc, Hw0. rewrite <- !app_assoc. by simpl. }
        split; [by apply bt_cdn|]. intros Hno Hfuel.
        destruct Hres as [->|[e ->]]; [|done]. apply Hterm; [done|lia]. }
      match goal with |- context [match ?s with inl _ => _ | inr _ => _ end] =>
        destruct s as [e'|r4] end.
      * apply Hfin; [done|eauto].
      * rewrite run_ret. apply Hfin; [done|auto].
Qed.

(** The events of [get_file]: those of its body and the logged exception. *)
Lemma get_file_shape fuel has_session same_dc offset script w r w' :
  get_file fuel has_session same_dc offset script w = (r, w') →
  ∃ tr tail, Co.trace w' = Co.trace w ++ tr ++ tail ∧
             body_trace (length (yielded (Co.trace w))) (Z.abs offset * chunk_size) tr ∧
             log_tail tail ∧
             (no_reupload script → Z.max 1 total ≤ Z.of_nat fuel → r ≠ inr None).
Proof.
  rewrite get_file_outcome.
  destruct (get_file_body _ _ _ _ script w) as [rb w1] eqn:Hbody.
  destruct (get_file_body_shape _ _ _ _ _ _ _ _ Hbody) as (trb & Hw1 & Hshape & Hterm).
  intros Hrun. exists trb.
  destruct rb as [e|v].
  - destruct (is_Exception e); [case_bool_decide|]; injection Hrun as <- <-.
    + exists []. rewrite app_nil_r. by repeat split; auto; left.
    + exists [LogException e]. cbn. rewrite Hw1, <- app_assoc.
      repeat split; auto. right. by eexists.
    + exists []. rewrite app_nil_r. by repeat split; auto; left.
  - injection Hrun as <- <-. exists []. rewrite app_nil_r.
    by repeat split; auto; left.
Qed.

Lemma chunk_trace_yields n off cur tr :
  chunk_trace n off cur tr → Z.of_nat (length (yielded tr)) ≤ Z.max 1 (total - cur).
Proof.
  induction 1 as [n off cur|n off cur req tr Hreq _ IH|n off cur c Hc|n off cur c Hc
                 |n off cur c tr Hc Hlt _ IH];
    rewrite ?yielded_cons, ?yielded_app, ?(proj1 (report_events_counts _)); simpl; lia.
Qed.

Lemma body_trace_yields n off tr :
  body_trace n off tr → Z.of_nat (length (yielded tr)) ≤ Z.max 1 total.
Proof.
  destruct 1 as [setup Hset|setup loop Hset Hct|setup Hset|setup loop Hset Hct];
    rewrite ?yielded_app, ?yielded_cons, ?yielded_app, (proj1 (setup_counts _ Hset));
    simpl; try lia.
  - apply chunk_trace_yields in Hct. lia.
  - apply chunk_trace_yields in Hct. rewrite app_nil_r. lia.
Qed.

Lemma resumed_S n m :
  resumed consumer n (S m) =
  ((if decide (consumer n = None) then 1 else 0) + resumed consumer (S n) m)%nat.
Proof.
  unfold resumed. cbn [seq]. destruct (decide (consumer n = None)) as [Hn|Hn].
  - by rewrite filter_cons_True.
  - by rewrite filter_cons_False.
Qed.

Lemma resumed_all n m :
  (∀ k, consumer k = None) → resumed consumer n m = m.
Proof.
  intros Hall. revert n. induction m as [|m IH]; intros n; [done|].
  rewrite resumed_S, IH, decide_True by done. done.
Qed.

Lemma chunk_trace_progress n off cur tr :
  chunk_trace n off cur tr →
  length (progress_calls tr) =
    if progress then resumed consumer n (length (yielded tr)) else 0%nat.
Proof.
  induction 1 as [n off cur|n off cur req tr Hreq _ IH|n off cur c Hc|n off cur c Hc
                 |n off cur c tr Hc Hlt _ IH];
    rewrite ?yielded_cons, ?progress_calls_cons, ?yielded_app, ?progress_calls_app,
      ?length_app, ?(proj1 (report_events_counts _)), ?(proj2 (report_events_counts _)).
  - by destruct progress.
  - by destruct req.
  - simpl. rewrite resumed_S, decide_False by done. by destruct progress.
  - simpl. rewrite resumed_S, decide_True by done. by destruct progress.
  - rewrite IH. simpl. rewrite resumed_S, decide_True by done. by destruct progress.
Qed.

Lemma body_trace_progress n off tr :
  body_trace n off tr →
  length (progress_calls tr) =
    if progress then resumed consumer n (length (yielded tr)) else 0%nat.
Proof.
  destruct 1 as [setup Hset|setup loop Hset Hct|setup Hset|setup loop Hset Hct];
    rewrite ?yielded_app, ?progress_calls_app, ?yielded_cons, ?progress_calls_cons,
      ?yielded_app, ?progress_calls_app,
      (proj1 (setup_counts _ Hset)), (proj2 (setup_counts _ Hset)); simpl.
  - by destruct progress.
  - by apply chunk_trace_progress in Hct.
  - by destruct progress.
  - apply chunk_trace_progress in Hct. by rewrite !app_nil_r.
Qed.

Lemma all_requests_app_any P off (tr1 tr2 : list event) :
  all_requests P off tr1 → (∀ o, all_requests P o tr2) → all_requests P off (tr1 ++ tr2).
Proof.
  revert off. induction tr1 as [|ev tr1 IH]; intros off H1 H2; [apply H2|].
  destruct ev; simpl in *; try by apply IH. destruct H1. split; [done|by apply IH].
Qed.

Lemma all_requests_setup off (setup rest : list event) :
  Forall is_setup setup →
  all_requests (request_at file_size) off rest →
  all_requests (request_at file_size) off (setup ++ rest).
Proof.
  induction 1 as [|ev setup Hev _ IH]; [done|]. intros Hrest.
  destruct ev as [[]| |]; try done; simpl; auto.
Qed.

Lemma all_requests_report off (rest : list event) :
  all_requests (request_at file_size) off rest →
  all_requests (request_at file_size) off (reports off ++ rest).
Proof. unfold report_events. destruct progress; [|done]. simpl. auto. Qed.

Lemma chunk_trace_requests n off cur tr :
  chunk_trace n off cur tr → all_requests (request_at file_size) off tr.
Proof.
  induction 1 as [n off cur|n off cur req tr Hreq _ IH|n off cur c Hc|n off cur c Hc
                 |n off cur c tr Hc Hlt _ IH].
  - done.
  - split; [|done]. by destruct req.
  - done.
  - simpl. rewrite <- (app_nil_r (reports _)). by apply all_requests_report.
  - simpl. by apply all_requests_report.
Qed.

Lemma body_trace_requests n off tr tail :
  body_trace n off tr → log_tail tail →
  all_requests (request_at file_size) off (tr ++ tail).
Proof.
  intros Hbody Htail. apply all_requests_app_any.
  2:{ intros o. by destruct Htail as [->|[e ->]]. }
  destruct Hbody as [setup Hset|setup loop Hset Hct|setup Hset|setup loop Hset Hct].
  - rewrite <- (app_nil_r setup). by apply all_requests_setup.
  - apply all_requests_setup; [done|]. split; [done|]. by eapply chunk_trace_requests.
  - by apply all_requests_setup.
  - apply all_requests_setup; [done|]. do 3 (split; [done|]).
    apply all_requests_app_any; [by eapply chunk_trace_requests|done].
Qed.

Lemma chunk_trace_no_session n off cur tr :
  chunk_trace n off cur tr → Invoke StartCdnSession ∉ tr.
Proof.
  assert (∀ o, Invoke StartCdnSession ∉ reports o) as Hrep.
  { intros o. unfold report_events. destruct progress.
    - by intros [=]%list_elem_of_singleton.
    - apply not_elem_of_nil. }
  induction 1 as [n off cur|n off cur req tr Hreq _ IH|n off cur c Hc|n off cur c Hc
                 |n off cur c tr Hc Hlt _ IH].
  - apply not_elem_of_nil.
  - apply not_elem_of_cons. split; [|done]. intros [= <-]. done.
  - by intros [=]%list_elem_of_singleton.
  - apply not_elem_of_cons. split; [done|apply Hrep].
  - apply not_elem_of_cons. split; [done|]. apply not_elem_of_app. split; [apply Hrep|done].
Qed.

Lemma setup_no_session (setup : list event) :
  Forall is_setup setup → Invoke StartCdnSession ∉ setup.
Proof.
  intros Hset Hin. rewrite Forall_forall in Hset. by apply Hset in Hin.
Qed.

Lemma chunk_trace_before_last n off cur tr :
  chunk_trace n off cur tr →
  ∀ k, (n ≤ k)%nat → (S k < n + length (yielded tr))%nat → consumer k = None.
Proof.
  induction 1 as [n off cur|n off cur req tr Hreq _ IH|n off cur c Hc|n off cur c Hc
                 |n off cur c tr Hc Hlt _ IH]; intros k Hk;
    rewrite ?yielded_cons, ?yielded_app, ?(proj1 (report_events_counts _)); simpl.
  - lia.
  - by apply IH.
  - lia.
  - lia.
  - intros Hlast. destruct (decide (k = n)) as [->|Hne]; [done|].
    apply IH; lia.
Qed.

(** The generator went on after every chunk but, possibly, the last. *)
Lemma get_file_before_last fuel has_session same_dc offset script w r w' :
  get_file fuel has_session same_dc offset script w = (r, w') →
  ∀ k, (length (yielded (Co.trace w)) ≤ k)%nat →
       (S k < length (yielded (Co.trace w')))%nat → consumer k = None.
Proof.
  intros Hrun k Hk Hlast.
  destruct (get_file_shape _ _ _ _ _ _ _ _ Hrun) as (tr & tail & Hw' & Hbody & Htail & _).
  rewrite Hw', !yielded_app, (proj1 (log_tail_counts _ Htail)), app_nil_r,
    length_app in Hlast.
  destruct Hbody as [setup Hset|setup loop Hset Hct|setup Hset|setup loop Hset Hct];
    rewrite ?yielded_app, ?yielded_cons, ?yielded_app,
      (proj1 (setup_counts _ Hset)) in Hlast; simpl in Hlast;
    rewrite ?app_nil_r in Hlast; try lia.
  - by eapply chunk_trace_before_last.
  - by eapply chunk_trace_before_last.
Qed.

(** X15: what [get_file] asks for follows the chunks it has delivered:
    every [GetFile] and [GetCdnFile] request has the limit [chunk_size] and,
    like every [GetCdnFileHashes] request, the offset [abs(offset) *
    chunk_size] advanced by [chunk_size] for each chunk yielded before it;
    every progress report carries [file_size] as its total and that offset
    as its current value, capped at [file_size] unless [file_size] is 0. *)
Theorem get_file_requests_follow_chunks fuel has_session same_dc offset script w r w' :
  get_file fuel has_session same_dc offset script w = (r, w') →
  ∃ tr, Co.trace w' = Co.trace w ++ tr ∧
        all_requests (request_at file_size) (Z.abs offset * chunk_size) tr.
Proof.
  intros Hrun.
  destruct (get_file_shape _ _ _ _ _ _ _ _ Hrun) as (tr & tail & Hw' & Hbody & Htail & _).
  exists (tr ++ tail). split; [done|]. by eapply body_trace_requests.
Qed.

Lemma chunk_trace_resumed n off cur tr :
  chunk_trace n off cur tr →
  (resumed consumer n (length (yielded tr)) ≤ length (yielded tr)
   ≤ S (resumed consumer n (length (yielded tr))))%nat.
Proof.
  induction 1 as [n off cur|n off cur req tr Hreq _ IH|n off cur c Hc|n off cur c Hc
                 |n off cur c tr Hc Hlt _ IH];
    rewrite ?yielded_cons, ?yielded_app, ?(proj1 (report_events_counts _));
    simpl; rewrite ?resumed_S.
  - unfold resumed. simpl. lia.
  - done.
  - rewrite decide_False by done. unfold resumed. simpl. lia.
  - rewrite decide_True by done. unfold resumed. simpl. lia.
  - rewrite decide_True by done. lia.
Qed.

Lemma body_trace_resumed n off tr :
  body_trace n off tr →
  (resumed consumer n (length (yielded tr)) ≤ length (yielded tr)
   ≤ S (resumed consumer n (length (yielded tr))))%nat.
Proof.
  destruct 1 as [setup Hset|setup loop Hset Hc|setup Hset|setup loop Hset Hc];
    rewrite ?yielded_app, ?yielded_cons, ?yielded_app,
      (proj1 (setup_counts _ Hset)); simpl; rewrite ?app_nil_r.
  - unfold resumed. simpl. lia.
  - by eapply chunk_trace_resumed.
  - unfold resumed. simpl. lia.
  - by eapply chunk_trace_resumed.
Qed.

(** X16: with a progress callback, [get_file] calls it exactly once for
    every chunk after which the consumer resumes the generator, the call
    following the [yield]: as often as chunks were yielded when the consumer
    asks for the next chunk every time, one time less when the run ends at a
    [yield] (the generator closed or thrown into there); without a callback
    it never reports. *)
Theorem get_file_reports_each_chunk fuel has_session same_dc offset script w r w' :
  get_file fuel has_session same_dc offset script w = (r, w') →
  ∃ tr, Co.trace w' = Co.trace w ++ tr ∧
        length (progress_calls tr) =
          (if progress
           then resumed consumer (length (yielded (Co.trace w))) (length (yielded tr))
           else 0%nat) ∧
        (length (progress_calls tr) ≤ length (yielded tr)
                                    ≤ S (length (progress_calls tr)) ∨
         progress = false)%nat ∧
        ((∀ k, consumer k = None) → progress = true →
         length (progress_calls tr) = length (yielded tr)).
Proof.
  intros Hrun.
  destruct (get_file_shape _ _ _ _ _ _ _ _ Hrun) as (tr & tail & Hw' & Hbody & Htail & _).
  exists (tr ++ tail). split; [done|].
  rewrite progress_calls_app, yielded_app, length_app.
  destruct (log_tail_counts _ Htail) as [-> ->]. rewrite app_nil_r. simpl.
  rewrite Nat.add_0_r.
  pose proof (body_trace_progress _ _ _ Hbody) as Hcount.
  pose proof (body_trace_resumed _ _ _ Hbody) as Hbound.
  split; [done|]. split.
  - rewrite Hcount. clear Hcount Hbody Hrun. destruct progress; [by left|by right].
  - intros Hall ->. by rewrite Hcount, resumed_all.
Qed.

(** X17: a CDN session that [get_file] has started is stopped before the
    generator ends, whatever happens in between: the stop is the last call
    of the run, followed at most by the logging of the exception. *)
Theorem get_file_stops_cdn_session fuel has_session same_dc offset script w r w' tr :
  get_file fuel has_session same_dc offset script w = (r, w') →
  Co.trace w' = Co.trace w ++ tr →
  Invoke StartCdnSession ∈ tr →
  ∃ pre mid post,
    tr = pre ++ Invoke StartCdnSession :: mid ++ Invoke StopCdnSession :: post ∧
    log_tail post.
Proof.
  intros Hrun Htr Hin.
  destruct (get_file_shape _ _ _ _ _ _ _ _ Hrun) as (trb & tail & Hw' & Hbody & Htail & _).
  rewrite Htr in Hw'. apply app_inv_head in Hw' as ->.
  assert (Invoke StartCdnSession ∉ tail) as Htl.
  { destruct Htail as [->|[e ->]]; [apply not_elem_of_nil|].
    by intros [=]%list_elem_of_singleton. }
  apply elem_of_app in Hin as [Hin|Hin]; [|done].
  destruct Hbody as [setup Hset|setup loop Hset Hct|setup Hset|setup loop Hset Hct].
  - by apply setup_no_session in Hin.
  - apply elem_of_app in Hin as [Hin|Hin]; [by apply setup_no_session in Hin|].
    apply elem_of_cons in Hin as [[=]|Hin]. by apply chunk_trace_no_session in Hct.
  - apply elem_of_app in Hin as [Hin|Hin]; [by apply setup_no_session in Hin|].
    apply elem_of_cons in Hin as [[=]|Hin].
    by apply list_elem_of_singleton in Hin.
  - exists (setup ++ [Invoke (GetFile (Z.abs offset * chunk_size) chunk_size);
                      Invoke CreateAuthKey]), loop, tail.
    split; [|done]. rewrite <- !app_assoc. simpl. by rewrite <- !app_assoc.
Qed.

(** The re-upload branch of the CDN loop repeats without bound. *)
Lemma cdn_loop_reupload_run fuel file_token key iv current off script w :
  (∀ k : nat, (∃ rt, script (Co.calls w + 2 * k)%nat = inr (CdnFileReuploadNeeded rt)) ∧
              (∃ a, script (Co.calls w + 2 * k + 1)%nat = inr a)) →
  ∃ tr, cdn_loop fuel file_token key iv current off script w =
          (inr None, {| Co.calls := Co.calls w + 2 * fuel;
                        Co.trace := Co.trace w ++ tr |}) ∧
        yielded tr = [].
Proof.
  revert w. induction fuel as [|fuel IH]; intros w Hs.
  { exists []. cbn [Download.cdn_loop]. rewrite run_ret, app_nil_r.
    replace (Co.calls w + 2 * 0)%nat with (Co.calls w) by lia. by destruct w. }
  cbn [Download.cdn_loop]. rewrite run_bind, run_call.
  destruct (Hs O) as [[rt Hrt] [a Ha]]. rewrite Nat.add_0_r in Hrt. simpl in Ha.
  rewrite Nat.add_0_r, Nat.add_1_r in Ha. rewrite Hrt.
  rewrite run_bind. unfold Co.try_except. rewrite run_bind, run_call.
  cbn [Co.calls Co.trace]. rewrite Ha, run_ret.
  match goal with |- context [cdn_loop fuel _ _ _ _ _ script ?w1] =>
    destruct (IH w1) as (tr & -> & Hy) end.
  { intros k. cbn [Co.calls]. destruct (Hs (S k)) as [[rt' Hrt'] [a' Ha']].
    replace (Co.calls w + 2 * S k)%nat with (S (S (Co.calls w)) + 2 * k)%nat in * by lia.
    eauto. }
  cbn [Co.calls Co.trace]. eexists. split.
  - rewrite <- !app_assoc.
    by replace (S (S (Co.calls w)) + 2 * fuel)%nat with (Co.calls w + 2 * S fuel)%nat by lia.
  - done.
Qed.

(** X18: the CDN loop of [get_file] does not bound its re-uploads: against
    a server that answers every [GetCdnFile] with [CdnFileReuploadNeeded]
    and accepts every [ReuploadCdnFile], no number of iterations ends the
    loop, and no chunk is ever yielded. *)
Theorem cdn_loop_reuploads_without_bound file_token key iv current off script w :
  (∀ k : nat, (∃ rt, script (Co.calls w + 2 * k)%nat = inr (CdnFileReuploadNeeded rt)) ∧
              (∃ a, script (Co.calls w + 2 * k + 1)%nat = inr a)) →
  ∀ fuel, ∃ w',
    cdn_loop fuel file_token key iv current off script w = (inr None, w') ∧
    Co.calls w' = (Co.calls w + 2 * fuel)%nat ∧
    ∃ tr, Co.trace w' = Co.trace w ++ tr ∧ yielded tr = [].
Proof.
  intros Hs fuel.
  destruct (cdn_loop_reupload_run fuel file_token key iv current off script w Hs)
    as (tr & Hrun & Hy).
  eexists. split; [exact Hrun|]. split; [done|]. by exists tr.
Qed.
End DownloadMore.

Section DownloadSetup.
Import Download.
Context (ctr256_decrypt : bytes → bytes → bytes → bytes) (sha256 : bytes → bytes).
Context (file_size : Z) (progress : bool) (total : Z) (consumer : nat → option exn).
Implicit Types (script : nat → exn + response) (w : Co.world event).

Abbreviation get_file :=
  (get_file ctr256_decrypt sha256 file_size progress total consumer).

(** X19: on a data center without media session, [get_file] exports and
    imports the authorization at most three times: when the three imports
    are refused with [AuthBytesInvalid] it requests nothing of the file,
    logs [AuthBytesInvalid] and ends without a chunk. *)
Theorem get_file_gives_up_after_three_refused_imports fuel offset script w :
  (∀ i, i ∈ [0; 1; 2; 4; 6]%nat → ∃ a, script (Co.calls w + i)%nat = inr a) →
  (∀ i, i ∈ [3; 5; 7]%nat → script (Co.calls w + i)%nat = inl AuthBytesInvalid) →
  get_file fuel false false offset script w =
    (inr (Some tt),
     {| Co.calls := Co.calls w + 8;
        Co.trace := Co.trace w ++
          [Invoke CreateAuthKey; Invoke StartSession;
           Invoke ExportAuthorization; Invoke ImportAuthorization;
           Invoke ExportAuthorization; Invoke ImportAuthorization;
           Invoke ExportAuthorization; Invoke ImportAuthorization;
           LogException AuthBytesInvalid] |}).
Proof.
  intros Hok Hbad.
  destruct (Hok 0%nat) as [a0 H0]; [by_decide|].
  destruct (Hok 1%nat) as [a1 H1]; [by_decide|].
  destruct (Hok 2%nat) as [a2 H2]; [by_decide|].
  destruct (Hok 4%nat) as [a4 H4]; [by_decide|].
  destruct (Hok 6%nat) as [a6 H6]; [by_decide|].
  pose proof (Hbad 3%nat) as H3. pose proof (Hbad 5%nat) as H5.
  pose proof (Hbad 7%nat) as H7.
  specialize (H3 ltac:(by_decide)). specialize (H5 ltac:(by_decide)).
  specialize (H7 ltac:(by_decide)). clear Hok Hbad.
  replace (Co.calls w + 0)%nat with (Co.calls w) in H0 by lia.
  replace (Co.calls w + 1)%nat with (S (Co.calls w)) in H1 by lia.
  replace (Co.calls w + 2)%nat with (S (S (Co.calls w))) in H2 by lia.
  replace (Co.calls w + 3)%nat with (S (S (S (Co.calls w)))) in H3 by lia.
  replace (Co.calls w + 4)%nat with (S (S (S (S (Co.calls w))))) in H4 by lia.
  replace (Co.calls w + 5)%nat with (S (S (S (S (S (Co.calls w)))))) in H5 by lia.
  replace (Co.calls w + 6)%nat with (S (S (S (S (S (S (Co.calls w))))))) in H6 by lia.
  replace (Co.calls w + 7)%nat with (S (S (S (S (S (S (S (Co.calls w)))))))) in H7 by lia.
  replace (Co.calls w + 8)%nat
    with (S (S (S (S (S (S (S (S (Co.calls w))))))))) by lia.
  rewrite get_file_outcome. unfold get_file_body.
  cbn [import_authorization]. unfold Co.try_except.
  repeat (first [ rewrite run_bind | rewrite run_call | rewrite run_ret
                | rewrite H0 | rewrite H1 | rewrite H2 | rewrite H3 | rewrite H4
                | rewrite H5 | rewrite H6 | rewrite H7
                | rewrite (bool_decide_eq_true_2 (AuthBytesInvalid = AuthBytesInvalid))
                    by done ];
          cbn beta iota; cbn [Co.calls Co.trace]).
  unfold Co.raise. cbn [is_Exception Co.calls Co.trace].
  rewrite bool_decide_eq_false_2 by (intros [|[|]]; done).
  by rewrite <- !app_assoc.
Qed.
End DownloadSetup.

Section DownloadLimits.
Import Download.
Context (ctr256_decrypt : bytes → bytes → bytes → bytes) (sha256 : bytes → bytes).
Context (file_size : Z) (progress : bool) (limit : Z) (consumer : nat → option exn).
Implicit Types (script : nat → exn + response) (w : Co.world event).

Abbreviation get_file :=
  (get_file ctr256_decrypt sha256 file_size progress (total_of limit) consumer).

Lemma total_of_pos : 1 ≤ total_of limit.
Proof. unfold total_of. destruct (decide _); lia. Qed.

(** X14: [get_file] never yields more chunks than [total = abs(limit) or
    (1 << 31) - 1], whatever the server answers: at most [abs(limit)] chunks
    for a limit other than 0. *)
Theorem get_file_yields_at_most_limit fuel has_session same_dc offset script w r w' :
  get_file fuel has_session same_dc offset script w = (r, w') →
  ∃ tr, Co.trace w' = Co.trace w ++ tr ∧
        Z.of_nat (length (yielded tr)) ≤ total_of limit ∧
        (limit ≠ 0 → Z.of_nat (length (yielded tr)) ≤ Z.abs limit).
Proof.
  intros Hrun.
  destruct (get_file_shape _ _ _ _ _ _ _ _ _ _ _ _ _ _ Hrun)
    as (tr & tail & Hw' & Hbody & Htail & _).
  exists (tr ++ tail). split; [done|].
  apply body_trace_yields in Hbody. pose proof total_of_pos as Hpos.
  rewrite yielded_app, (proj1 (log_tail_counts _ Htail)), app_nil_r.
  split; [lia|]. intros Hne. unfold total_of in *.
  destruct (decide (Z.abs limit = 0)); lia.
Qed.

(** X20: against a server that never asks for a re-upload to the CDN, the
    loops of [get_file] end within [total] iterations: with that much fuel
    the generator finishes, normally or with an exception. *)
Theorem get_file_ends_within_total_iterations fuel has_session same_dc offset script w :
  no_reupload script →
  total_of limit ≤ Z.of_nat fuel →
  (get_file fuel has_session same_dc offset script w).1 ≠ inr None.
Proof.
  intros Hno Hfuel.
  destruct (get_file fuel has_session same_dc offset script w) as [r w'] eqn:Hrun.
  destruct (get_file_shape _ _ _ _ _ _ _ _ _ _ _ _ _ _ Hrun)
    as (tr & tail & _ & _ & _ & Hterm).
  apply Hterm; [done|]. pose proof total_of_pos. lia.
Qed.
End DownloadLimits.

Section DownloadWhole.
Import Download.
Context (ctr256_decrypt : bytes → bytes → bytes → bytes) (sha256 : bytes → bytes).
Context (file_size : Z) (progress : bool).
Implicit Types (script : nat → exn + response) (w : Co.world event).

Lemma failed_write_from (write : nat → option exn) (a n : nat) e :
  head (omap write (seq a n)) = Some e →
  ∃ k, (a ≤ k < a + n)%nat ∧ write k = Some e ∧ ∀ j, (a ≤ j < k)%nat → write j = None.
Proof.
  revert a. induction n as [|n IH]; intros a; [done|]. cbn [seq].
  change (omap write (a :: seq (S a) n))
    with (match write a with
          | Some y => y :: omap write (seq (S a) n)
          | None => omap write (seq (S a) n)
          end).
  destruct (write a) as [e'|] eqn:Ha.
  - intros [= <-]. exists a. split; [lia|]. split; [done|]. intros j ?. lia.
  - intros (k & Hk & Hwk & Hbefore)%IH. exists k. split; [lia|]. split; [done|].
    intros j Hj. destruct (decide (j = a)) as [->|]; [done|]. apply Hbefore. lia.
Qed.

Lemma failed_write_none (write : nat → option exn) (a n : nat) :
  head (omap write (seq a n)) = None → ∀ k, (a ≤ k < a + n)%nat → write k = None.
Proof.
  revert a. induction n as [|n IH]; intros a; [intros _ k ?; lia|]. cbn [seq].
  change (omap write (a :: seq (S a) n))
    with (match write a with
          | Some y => y :: omap write (seq (S a) n)
          | None => omap write (seq (S a) n)
          end).
  destruct (write a) as [e'|] eqn:Ha; [done|].
  intros Hrest k Hk. destruct (decide (k = a)) as [->|]; [done|].
  apply (IH _ Hrest). lia.
Qed.

(** X21: [handle_download] returns the file only if the generator ended
    normally, which it also does after [get_file] has logged an error, and
    every write succeeded; the file holds the chunks yielded. It raises
    again a cancellation, [FloodWait] and [FloodPremiumWait], whether they
    leave [get_file] or [file.write]; for every other exception that
    reaches it ([StopTransmission] or a further [BaseException] out of
    [get_file], any other exception of [file.write]) it removes the
    temporary file and returns [None]. A write fails on the last chunk
    yielded only: the generator is not asked for a further chunk. *)
Theorem handle_download_outcomes write fuel has_session same_dc script :
  let run := Download.get_file ctr256_decrypt sha256 file_size progress (total_of 0)
               (closing write) fuel has_session same_dc 0 script Co.start in
  let chunks := yielded (Co.trace run.2) in
  let written := ∀ k, (k < length chunks)%nat → write k = None in
  let write_failed e :=
    ∃ k, length chunks = S k ∧ write k = Some e ∧ ∀ j, (j < k)%nat → write j = None in
  let raised_again e := e = CancelledError ∨ e = FloodWait ∨ e = FloodPremiumWait in
  match handle_download ctr256_decrypt sha256 file_size progress write
          fuel has_session same_dc script with
  | Finalized content => run.1 = inr (Some tt) ∧ written ∧ content = concat chunks
  | Unfinished => run.1 = inr None ∧ written
  | Reraised e =>
      raised_again e ∧ (write_failed e ∨ (written ∧ run.1 = inl e))
  | Discarded =>
      ∃ e, ¬ raised_again e ∧
           (write_failed e ∨
            (written ∧ run.1 = inl e ∧
             (e = StopTransmission ∨ is_Exception e = false)))
  end.
Proof.
  cbn zeta. unfold handle_download, finish.
  destruct (Download.get_file _ _ _ _ _ _ _ _ _ _ script Co.start) as [r w'] eqn:Hrun.
  cbn [fst snd].
  pose proof (get_file_before_last _ _ _ _ _ _ _ _ _ _ _ _ _ _ Hrun) as Hbefore.
  cbn [Co.trace Co.start yielded omap list_omap length] in Hbefore.
  pose proof (get_file_propagates_only_transmission_signals _ _ _ _ _ _ _ _ _ _ _ _ _ _
                Hrun) as (Hsig & _).
  unfold failed_write.
  destruct (head (omap write (seq 0 (length (yielded (Co.trace w'))))))
    as [e|] eqn:Hfail.
  - apply failed_write_from in Hfail as (k & Hk & Hwk & Hwj).
    assert (length (yielded (Co.trace w')) = S k) as Hlen.
    { destruct (decide (S k < length (yielded (Co.trace w')))%nat) as [Hlt|]; [|lia].
      specialize (Hbefore k ltac:(lia) Hlt). unfold closing in Hbefore.
      by rewrite Hwk in Hbefore. }
    assert (∃ k0, length (yielded (Co.trace w')) = S k0 ∧ write k0 = Some e ∧
                  ∀ j, (j < k0)%nat → write j = None) as Hfailed.
    { exists k. split; [done|]. split; [done|]. intros j Hj. apply Hwj. lia. }
    destruct e; cbn [settle]; first [by eauto | eexists; split; [|by left]; intros [|[|]]; done].
  - pose proof (failed_write_none _ _ _ Hfail) as Hok.
    assert (∀ k, (k < length (yielded (Co.trace w')))%nat → write k = None) as Hwritten.
    { intros k Hk. apply Hok. lia. }
    destruct r as [e|[[]|]]; [|done|done].
    destruct (Hsig e eq_refl) as [->|[->|[->|Hexc]]]; cbn [settle].
    + exists StopTransmission. split; [by intros [|[|]]|]. right. auto.
    + split; [auto|]. by right.
    + split; [auto|]. by right.
    + destruct e; try done; cbn [settle].
      * split; [auto|]. by right.
      * exists GeneratorExit. split; [by intros [|[|]]|]. right. auto.
      * exists KeyboardInterrupt. split; [by intros [|[|]]|]. right. auto.
      * exists SystemExit. split; [by intros [|[|]]|]. right. auto.
Qed.
End DownloadWhole.

(** A plain download of a one-byte file, at most one chunk asked for. *)
Lemma get_file_yields_at_most_limit_witness :
  let script : nat → exn + Download.response := λ _, inr (Download.File [Byte.x01]) in
  let run := Download.get_file (λ d _ _, d) (λ d, d) 0 false (Download.total_of 1)
               (λ _, None) 1 true true 0 script Co.start in
  ∃ tr, Co.trace run.2 = Co.trace (Co.start (Ev := Download.event)) ++ tr ∧
        Z.of_nat (length (Download.yielded tr)) ≤ Download.total_of 1 ∧
        (1 ≠ 0 → Z.of_nat (length (Download.yielded tr)) ≤ Z.abs 1).
Proof.
  intros script run.
  apply (get_file_yields_at_most_limit (λ d _ _, d) (λ d, d) 0 false 1 (λ _, None)
           1 true true 0 script Co.start run.1 run.2).
  vm_compute. reflexivity.
Defined.

(** A download that is redirected to a CDN and receives one short chunk
    there, with a progress callback. *)
Lemma get_file_requests_follow_chunks_witness :
  let script : nat → exn + Download.response :=
    λ n, match n with
         | 0%nat => inr (Download.FileCdnRedirect 1 [] [] [Byte.x00; Byte.x00; Byte.x00; Byte.x00])
         | 3%nat => inr (Download.CdnFile [Byte.x01])
         | 4%nat => inr (Download.FileHashes [])
         | _ => inr Download.Done
         end in
  let run := Download.get_file (λ d _ _, d) (λ d, d) 5 true 3 (λ _, None)
               3 true true 2 script Co.start in
  ∃ tr, Co.trace run.2 = Co.trace (Co.start (Ev := Download.event)) ++ tr ∧
        all_requests (request_at 5) (Z.abs 2 * Download.chunk_size) tr.
Proof.
  intros script run.
  apply (get_file_requests_follow_chunks (λ d _ _, d) (λ d, d) 5 true 3 (λ _, None)
           3 true true 2 script Co.start run.1 run.2).
  vm_compute. reflexivity.
Defined.

(** A download whose consumer closes the generator at the first chunk: one
    chunk, no report. *)
Lemma get_file_reports_each_chunk_witness :
  let script : nat → exn + Download.response :=
    λ n, match n with
         | 0%nat => inr (Download.File [Byte.x01])
         | _ => inl (OtherError 0)
         end in
  let consumer : nat → option exn := λ _, Some GeneratorExit in
  let run := Download.get_file (λ d _ _, d) (λ d, d) 5 true 3 consumer
               3 true true 0 script Co.start in
  ∃ tr, Co.trace run.2 = Co.trace (Co.start (Ev := Download.event)) ++ tr ∧
        length (progress_calls tr) =
          (if true
           then resumed consumer
                  (length (Download.yielded (Co.trace (Co.start (Ev := Download.event)))))
                  (length (Download.yielded tr))
           else 0%nat) ∧
        (length (progress_calls tr) ≤ length (Download.yielded tr)
                                    ≤ S (length (progress_calls tr)) ∨
         true = false)%nat ∧
        ((∀ k, consumer k = None) → true = true →
         length (progress_calls tr) = length (Download.yielded tr)).
Proof.
  intros script consumer run.
  apply (get_file_reports_each_chunk (λ d _ _, d) (λ d, d) 5 true 3 consumer
           3 true true 0 script Co.start run.1 run.2).
  vm_compute. reflexivity.
Defined.

(** A CDN download whose hash request fails. *)
Lemma get_file_stops_cdn_session_witness :
  let script : nat → exn + Download.response :=
    λ n, match n with
         | 0%nat => inr (Download.FileCdnRedirect 1 [] [] [Byte.x00; Byte.x00; Byte.x00; Byte.x00])
         | 3%nat => inr (Download.CdnFile [Byte.x01])
         | 4%nat => inl (OtherError 0)
         | _ => inr Download.Done
         end in
  let run := Download.get_file (λ d _ _, d) (λ d, d) 5 true 3 (λ _, None)
               3 true true 0 script Co.start in
  ∃ pre mid post,
    Co.trace run.2 =
      pre ++ Download.Invoke Download.StartCdnSession ::
        mid ++ Download.Invoke Download.StopCdnSession :: post ∧
    log_tail post.
Proof.
  intros script run.
  apply (get_file_stops_cdn_session (λ d _ _, d) (λ d, d) 5 true 3 (λ _, None)
           3 true true 0 script Co.start run.1 run.2 (Co.trace run.2)).
  - vm_compute. reflexivity.
  - vm_compute. reflexivity.
  - by_decide.
Defined.

(** A server that answers every call with [CdnFileReuploadNeeded]. *)
Lemma cdn_loop_reuploads_without_bound_witness :
  let script : nat → exn + Download.response :=
    λ _, inr (Download.CdnFileReuploadNeeded []) in
  ∃ w',
    Download.cdn_loop (λ d _ _, d) (λ d, d) 0 false 3 (λ _, None) 7 [] [] [] 0 0
      script Co.start = (inr None, w') ∧
    Co.calls w' = (Co.calls (Co.start (Ev := Download.event)) + 2 * 7)%nat ∧
    ∃ tr, Co.trace w' = Co.trace (Co.start (Ev := Download.event)) ++ tr ∧
          Download.yielded tr = [].
Proof.
  intros script.
  apply (cdn_loop_reuploads_without_bound (λ d _ _, d) (λ d, d) 0 false 3 (λ _, None)
           [] [] [] 0 0 script Co.start).
  intros k. split; eexists; reflexivity.
Defined.

Lemma get_file_gives_up_after_three_refused_imports_witness :
  let script : nat → exn + Download.response :=
    λ n, if decide (n ∈ [3; 5; 7]%nat) then inl AuthBytesInvalid else inr Download.Done in
  Download.get_file (λ d _ _, d) (λ d, d) 0 false 3 (λ _, None) 3 false false 0
    script Co.start =
    (inr (Some tt),
     {| Co.calls := Co.calls (Co.start (Ev := Download.event)) + 8;
        Co.trace := Co.trace Co.start ++
          [Download.Invoke Download.CreateAuthKey; Download.Invoke Download.StartSession;
           Download.Invoke Download.ExportAuthorization;
           Download.Invoke Download.ImportAuthorization;
           Download.Invoke Download.ExportAuthorization;
           Download.Invoke Download.ImportAuthorization;
           Download.Invoke Download.ExportAuthorization;
           Download.Invoke Download.ImportAuthorization;
           Download.LogException AuthBytesInvalid] |}).
Proof.
  intros script.
  apply (get_file_gives_up_after_three_refused_imports (λ d _ _, d) (λ d, d) 0 false 3
           (λ _, None) 3 0 script Co.start).
  - intros i Hi. exists Download.Done.
    repeat (apply elem_of_cons in Hi as [->|Hi]; [reflexivity|]).
    by apply elem_of_nil in Hi.
  - intros i Hi.
    repeat (apply elem_of_cons in Hi as [->|Hi]; [reflexivity|]).
    by apply elem_of_nil in Hi.
Defined.

Lemma get_file_ends_within_total_iterations_witness :
  let script : nat → exn + Download.response := λ _, inr (Download.File [Byte.x01]) in
  (Download.get_file (λ d _ _, d) (λ d, d) 0 false (Download.total_of 1) (λ _, None)
     1 true true 0 script Co.start).1 ≠ inr None.
Proof.
  intros script.
  apply (get_file_ends_within_total_iterations (λ d _ _, d) (λ d, d) 0 false 1
           (λ _, None) 1 true true 0 script Co.start).
  - intros n rt. discriminate.
  - vm_compute. discriminate.
Defined.

(** A write that fails on the first chunk of a CDN download: the file is
    discarded although [get_file] would have gone on, and the generator,
    closed at that chunk, stops the CDN session. *)
Example handle_download_failed_write :
  let script : nat → exn + Download.response :=
    λ n, match n with
         | 0%nat => inr (Download.FileCdnRedirect 1 [] [] [Byte.x00; Byte.x00; Byte.x00; Byte.x00])
         | 3%nat => inr (Download.CdnFile [Byte.x01])
         | 4%nat => inr (Download.FileHashes [])
         | _ => inr Download.Done
         end in
  let write : nat → option exn := λ _, Some (OtherError 1) in
  let run := Download.get_file (λ d _ _, d) (λ d, d) 5 false (Download.total_of 0)
               (Download.closing write) 3 true true 0 script Co.start in
  Download.handle_download (λ d _ _, d) (λ d, d) 5 false write 3 true true script
    = Download.Discarded ∧
  run.1 = inl GeneratorExit ∧
  Download.yielded (Co.trace run.2) = [[Byte.x01]] ∧
  last (Co.trace run.2) = Some (Download.Invoke Download.StopCdnSession).
Proof. repeat split; reflexivity. Qed.

(** ** Peer cache: further properties *)

Section PeerMore.
Import Raw Client.
Context (get_channel_id : Z → Z) (lower : string → string).

Lemma parse_peer_ids p row urow :
  parse_peer get_channel_id lower p = Some (row, urow) →
  row.1.1.1 = urow.1 ∧ ∀ n, n ∈ urow.2 → ∃ s, n = lower s.
Proof.
  destruct p as [u|i|i|c|i h b|]; intros [= <- <-]; (split; [done|]); simpl;
    try (by intros n ?%elem_of_nil).
  - destruct (truthy_str (user_username u)).
    + intros n ->%list_elem_of_singleton. by eexists.
    + intros n (s & -> & _)%list_elem_of_fmap. by eexists.
  - destruct (truthy_str (channel_username c)).
    + intros n ->%list_elem_of_singleton. by eexists.
    + intros n (s & -> & _)%list_elem_of_fmap. by eexists.
Qed.

Lemma omap_parse_aligned (peers : list peer) :
  (omap (parse_peer get_channel_id lower) peers).*1.*1.*1.*1 =
  (omap (parse_peer get_channel_id lower) peers).*2.*1.
Proof.
  induction peers as [|p peers IH]; [done|].
  change (omap (parse_peer get_channel_id lower) (p :: peers))
    with (match parse_peer get_channel_id lower p with
          | Some y => y :: omap (parse_peer get_channel_id lower) peers
          | None => omap (parse_peer get_channel_id lower) peers
          end).
  destruct (parse_peer get_channel_id lower p) as [[row urow]|] eqn:Hp; [|done].
  rewrite !fmap_cons, IH. f_equal. by apply parse_peer_ids in Hp as [Hid _].
Qed.

Lemma omap_length_le {A B} (f : A → option B) (l : list A) :
  (length (omap f l) ≤ length l)%nat.
Proof.
  induction l as [|a l IH]; [done|].
  change (omap f (a :: l))
    with (match f a with Some y => y :: omap f l | None => omap f l end).
  destruct (f a); simpl; lia.
Qed.

(** X22: the two tables [fetch_peers] stores are aligned: the rows handed to
    [storage.update_peers] and to [storage.update_usernames] are as many, at
    most one per input peer, the rows at the same position carry the same
    peer id, and every stored username is a lower-cased one. *)
Theorem fetch_peers_tables_aligned (peers : list peer)
    (script : nat → exn + difference) (w : Co.world event) :
  ∃ (b : bool) (rows : list peer_row) (urows : list username_row),
    fetch_peers get_channel_id lower peers script w =
      (inr b,
       {| Co.calls := Co.calls w;
          Co.trace := Co.trace w ++
            [StorageUpdatePeers rows; StorageUpdateUsernames urows] |}) ∧
    rows.*1.*1.*1 = urows.*1 ∧
    (length rows ≤ length peers)%nat ∧
    ∀ urow n, urow ∈ urows → n ∈ urow.2 → ∃ s, n = lower s.
Proof.
  eexists _, _, _. split; [apply fetch_peers_run|]. split; [|split].
  - apply omap_parse_aligned.
  - rewrite length_fmap. unfold full_rows.
    etrans; [apply omap_length_le|]. apply length_filter.
  - intros urow n ([row urow'] & -> & Hin)%list_elem_of_fmap Hn.
    unfold full_rows in Hin. apply list_elem_of_omap in Hin as (p & _ & Hp).
    apply parse_peer_ids in Hp as [_ Hlow]. by apply Hlow.
Qed.
End PeerMore.

(** ** Archived stories: the paginated generator *)

Section StoriesFacts.
Import Stories.
Implicit Types (script : nat → exn + response) (w : Co.world event).

Lemma stories_yielded_app (tr1 tr2 : list event) :
  yielded (tr1 ++ tr2) = yielded tr1 ++ yielded tr2.
Proof. apply omap_app. Qed.

Lemma stories_run_call req script w :
  call req script w =
  (script (Co.calls w),
   {| Co.calls := S (Co.calls w); Co.trace := Co.trace w ++ [Invoke req] |}).
Proof. reflexivity. Qed.

Lemma total_of_ge_1 limit : 1 ≤ total_of limit.
Proof. unfold total_of. destruct (decide _); lia. Qed.

(** One page: the stories are parsed and yielded in order until [total] is
    reached. *)
Lemma each_story_run stories peer users chats current total script w r w' :
  current < total →
  each_story stories peer users chats current total script w = (r, w') →
  ∃ tr, Co.trace w' = Co.trace w ++ tr ∧
        (∀ limit offset_id, Forall (page_request script limit offset_id) tr) ∧
        Z.of_nat (length (yielded tr)) ≤ total - current ∧
        (∀ c, r = inr (Some c) →
           c = current + Z.of_nat (length stories) ∧ c < total ∧
           length (yielded tr) = length stories).
Proof.
  revert current w. induction stories as [|story rest IH]; intros current w Hlt.
  { intros [= <- <-]. exists []. rewrite app_nil_r. split; [done|].
    split; [by intros; constructor|]. split; [simpl; lia|].
    intros c [= <-]. simpl. split; [lia|]. split; [lia|done]. }
  cbn [each_story]. rewrite run_bind, stories_run_call.
  destruct (script (Co.calls w)) as [e|parsed].
  { intros [= <- <-]. eexists. split; [done|].
    split; [by intros; repeat constructor|]. split; [simpl; lia|done]. }
  rewrite run_bind, run_tell. cbn [Co.calls Co.trace].
  destruct (decide (total ≤ current + 1)) as [Hstop|Hgo].
  { intros [= <- <-]. eexists [_; _]. split; [cbn; by rewrite <- app_assoc|].
    split; [by intros; repeat constructor|]. split; [simpl; lia|done]. }
  intros Hrest. destruct (IH (current + 1) _ ltac:(lia) Hrest)
    as (tr & Hw' & Hreq & Hy & Hc).
  cbn [Co.trace] in Hw'. eexists (_ :: _ :: tr).
  split; [by rewrite Hw', <- !app_assoc|].
  split; [|split].
  - intros limit offset_id. simpl. do 2 (constructor; [done|]). apply Hreq.
  - simpl. change (yielded (Invoke ?a :: Yield ?b :: tr)) with (b :: yielded tr).
    simpl. lia.
  - intros c Hr. destruct (Hc c Hr) as (-> & ? & Hlen). split; [|split; [done|]].
    + rewrite length_cons. lia.
    + change (yielded (Invoke ?a :: Yield ?b :: tr)) with (b :: yielded tr).
      simpl. by rewrite Hlen.
Qed.

Lemma pages_run fuel limit total offset_id0 offset_id current script w r w' :
  current < total →
  chained script offset_id0 offset_id →
  pages fuel limit total offset_id current script w = (r, w') →
  ∃ tr, Co.trace w' = Co.trace w ++ tr ∧
        Forall (page_request script limit offset_id0) tr ∧
        Z.of_nat (length (yielded tr)) ≤ total - current ∧
        (total - current ≤ Z.of_nat fuel → r ≠ inr None).
Proof.
  revert offset_id current w.
  induction fuel as [|fuel IH]; intros offset_id current w Hlt Hch.
  { intros [= <- <-]. exists []. rewrite app_nil_r. split; [done|].
    split; [constructor|]. split; [simpl; lia|]. lia. }
  cbn [pages]. rewrite run_bind, stories_run_call.
  destruct (script (Co.calls w)) as [e|peer].
  { intros [= <- <-]. eexists. split; [done|].
    split; [by repeat (constructor; [simpl; auto|])|]. split; [simpl; lia|done]. }
  rewrite run_bind, stories_run_call. cbn [Co.calls Co.trace].
  destruct (script (S (Co.calls w))) as [e|page] eqn:Hpage.
  { intros [= <- <-]. eexists [_; _]. split; [cbn; by rewrite <- app_assoc|].
    split; [by repeat (constructor; [simpl; auto|])|]. split; [simpl; lia|done]. }
  rewrite run_bind.
  destruct page as [p|stories users chats|parsed]; cbn [get_page];
    try (intros [= <- <-]; eexists [_; _]; (split; [cbn; by rewrite <- app_assoc|]);
         (split; [by repeat (constructor; [simpl; auto|])|]); (split; [simpl; lia|done])).
  rewrite run_ret. cbn beta iota.
  destruct (last stories) as [l|] eqn:Hlast.
  2:{ intros [= <- <-]. eexists [_; _]. split; [cbn; by rewrite <- app_assoc|].
      split; [by repeat (constructor; [simpl; auto|])|]. split; [simpl; lia|done]. }
  rewrite run_bind.
  match goal with |- context [each_story stories ?pe ?us ?cs current total script ?w1] =>
    destruct (each_story stories pe us cs current total script w1) as [rc wc] eqn:Heach end.
  destruct (each_story_run _ _ _ _ _ _ _ _ _ _ Hlt Heach) as (tr1 & Hwc & Hreq1 & Hy1 & Hc).
  cbn [Co.trace] in Hwc.
  destruct rc as [e|[c|]].
  - intros [= <- <-]. eexists (_ :: _ :: tr1). split; [by rewrite Hwc, <- !app_assoc|].
    split; [|split; [|done]].
    + simpl. do 2 (constructor; [simpl; auto|]). apply Hreq1.
    + simpl. change (yielded (Invoke ?a :: Invoke ?b :: tr1)) with (yielded tr1). lia.
  - destruct (Hc c eq_refl) as (-> & Hc' & Hall).
    assert (stories ≠ []) as Hne by (by intros ->).
    assert (0 < length stories)%nat as Hlen by (destruct stories; [done|simpl; lia]).
    intros Hloop.
    destruct (IH (story_id l) _ _ Hc' ltac:(right; by eexists _, _, _, _, _) Hloop)
      as (tr2 & Hw' & Hreq2 & Hy2 & Hterm).
    eexists (_ :: _ :: tr1 ++ tr2). split; [by rewrite Hw', Hwc, <- !app_assoc|].
    split; [|split].
    + simpl. do 2 (constructor; [simpl; auto|]). apply Forall_app. split; [apply Hreq1|done].
    + simpl.
      change (yielded (Invoke ?a :: Invoke ?b :: tr1 ++ tr2)) with (yielded (tr1 ++ tr2)).
      rewrite stories_yielded_app, length_app. lia.
    + intros Hfuel. apply Hterm. lia.
  - intros [= <- <-]. eexists (_ :: _ :: tr1). split; [by rewrite Hwc, <- !app_assoc|].
    split; [|split; [|done]].
    + simpl. do 2 (constructor; [simpl; auto|]). apply Hreq1.
    + simpl. change (yielded (Invoke ?a :: Invoke ?b :: tr1)) with (yielded tr1). lia.
Qed.

(** X24: [get_archived_stories] never yields more stories than [total =
    abs(limit) or (1 << 31)], whatever the pages hold: at most [abs(limit)]
    stories for a limit other than 0, also when the last page is longer. *)
Theorem get_archived_stories_yields_at_most_limit fuel limit offset_id script w r w' :
  get_archived_stories fuel limit offset_id script w = (r, w') →
  ∃ tr, Co.trace w' = Co.trace w ++ tr ∧
        Z.of_nat (length (yielded tr)) ≤ total_of limit ∧
        (limit ≠ 0 → Z.of_nat (length (yielded tr)) ≤ Z.abs limit).
Proof.
  unfold get_archived_stories. cbn zeta. intros Hrun.
  pose proof (total_of_ge_1 limit) as Hpos.
  assert (0 < total_of limit) as H0 by lia.
  destruct (pages_run _ _ _ offset_id _ _ _ _ _ _ H0 (or_introl eq_refl) Hrun)
    as (tr & Hw' & _ & Hy & _).
  exists tr. split; [done|]. split; [lia|]. intros Hne.
  unfold total_of in *. destruct (decide (Z.abs limit = 0)); lia.
Qed.

(** X25: every page [get_archived_stories] requests is asked with the
    limit [min(100, total)], between 1 and 100, and from the offset it was
    given or from the id of the last story of a page answered before. *)
Theorem get_archived_stories_page_requests fuel limit offset_id script w r w' :
  get_archived_stories fuel limit offset_id script w = (r, w') →
  ∃ tr, Co.trace w' = Co.trace w ++ tr ∧
        1 ≤ Z.min 100 (total_of limit) ≤ 100 ∧
        ∀ peer o l, Invoke (GetStoriesArchive peer o l) ∈ tr →
          l = Z.min 100 (total_of limit) ∧ chained script offset_id o.
Proof.
  unfold get_archived_stories. cbn zeta. intros Hrun.
  pose proof (total_of_ge_1 limit) as Hpos.
  assert (0 < total_of limit) as H0 by lia.
  destruct (pages_run _ _ _ offset_id _ _ _ _ _ _ H0 (or_introl eq_refl) Hrun)
    as (tr & Hw' & Hreq & _ & _).
  exists tr. split; [done|]. split; [lia|]. intros peer o l Hin.
  rewrite Forall_forall in Hreq. by apply Hreq in Hin.
Qed.

(** X26: the loop of [get_archived_stories] ends within [total] pages,
    whatever the server answers: every page it goes on after has delivered
    at least one story. *)
Theorem get_archived_stories_ends_within_total_pages fuel limit offset_id script w :
  total_of limit ≤ Z.of_nat fuel →
  (get_archived_stories fuel limit offset_id script w).1 ≠ inr None.
Proof.
  intros Hfuel. unfold get_archived_stories. cbn zeta.
  pose proof (total_of_ge_1 limit) as Hpos.
  assert (0 < total_of limit) as H0 by lia.
  destruct (pages fuel _ _ offset_id 0 script w) as [r w'] eqn:Hrun.
  destruct (pages_run _ _ _ offset_id _ _ _ _ _ _ H0 (or_introl eq_refl) Hrun)
    as (tr & _ & _ & _ & Hterm).
  apply Hterm. lia.
Qed.
End StoriesFacts.

(** A server whose pages hold three stories each, asked for two stories. *)
Lemma get_archived_stories_yields_at_most_limit_witness :
  let page := Stories.StoriesPage
                [{| Stories.story_id := 9; Stories.story_payload := 0 |};
                 {| Stories.story_id := 8; Stories.story_payload := 1 |};
                 {| Stories.story_id := 7; Stories.story_payload := 2 |}] [] [] in
  let script : nat → exn + Stories.response :=
    λ n, match n with
         | 0%nat => inr (Stories.InputPeer 1)
         | 1%nat => inr page
         | _ => inr (Stories.Parsed n)
         end in
  let run := Stories.get_archived_stories 2 (-2) 0 script Co.start in
  ∃ tr, Co.trace run.2 = Co.trace (Co.start (Ev := Stories.event)) ++ tr ∧
        Z.of_nat (length (Stories.yielded tr)) ≤ Stories.total_of (-2) ∧
        (-2 ≠ 0 → Z.of_nat (length (Stories.yielded tr)) ≤ Z.abs (-2)).
Proof.
  intros page script run.
  apply (get_archived_stories_yields_at_most_limit 2 (-2) 0 script Co.start run.1 run.2).
  vm_compute. reflexivity.
Defined.

Lemma get_archived_stories_page_requests_witness :
  let page := Stories.StoriesPage
                [{| Stories.story_id := 9; Stories.story_payload := 0 |};
                 {| Stories.story_id := 8; Stories.story_payload := 1 |}] [] [] in
  let script : nat → exn + Stories.response :=
    λ n, match n with
         | 0%nat | 4%nat => inr (Stories.InputPeer 1)
         | 1%nat => inr page
         | 5%nat => inr (Stories.StoriesPage [] [] [])
         | _ => inr (Stories.Parsed n)
         end in
  let run := Stories.get_archived_stories 3 0 12 script Co.start in
  ∃ tr, Co.trace run.2 = Co.trace (Co.start (Ev := Stories.event)) ++ tr ∧
        1 ≤ Z.min 100 (Stories.total_of 0) ≤ 100 ∧
        ∀ peer o l, Stories.Invoke (Stories.GetStoriesArchive peer o l) ∈ tr →
          l = Z.min 100 (Stories.total_of 0) ∧ Stories.chained script 12 o.
Proof.
  intros page script run.
  apply (get_archived_stories_page_requests 3 0 12 script Co.start run.1 run.2).
  vm_compute. reflexivity.
Defined.

Lemma get_archived_stories_ends_within_total_pages_witness :
  let script : nat → exn + Stories.response :=
    λ n, match n with
         | 0%nat => inr (Stories.InputPeer 1)
         | _ => inr (Stories.StoriesPage [] [] [])
         end in
  (Stories.get_archived_stories 5 5 0 script Co.start).1 ≠ inr None.
Proof.
  intros script.
  apply (get_archived_stories_ends_within_total_pages 5 5 0 script Co.start).
  vm_compute. discriminate.
Defined.
